(** * Vocabulary tree builder: a shallow embedding of
    [tools/build_vocabulary_tree.py] and the properties of its feature
    budgeter, vocabulary builder, quantizer and TF-IDF weighting engine.

    Conventions of the embedding.
    - Python [int] is [Z]; list positions produced by numpy ([argsort],
      [argmin]) are [nat]; a [uint8] array row is a [list N].
    - Python [float] is idealised: pixel coordinates, responses and k-means
      centres are exact rationals ([Q]); the IDF and TF-IDF weights, which
      go through [np.log], are real numbers ([R]).
    - A Python [dict] keyed by word-id is a [gmap Z _]: keys are unique by
      construction and the results of the loops over [dict.keys()] and
      [dict.items()] do not depend on the iteration order.
    - Raised exceptions are values of [PyError]; lines printed to stdout are
      values of [Event]. *)

From Stdlib Require Import ZArith NArith QArith Reals Lia Lra String.
From Stdlib Require Import Sorting.Sorted Sorting.Permutation.
From stdpp Require Import base option list gmap strings.

(** ** Exceptions *)

Inductive PyError : Type :=
| ValueError (msg : string)
| IndexError
| TypeError
| KeyError
| ZeroDivisionError
| InvalidParameterError.

Inductive Exc (A : Type) : Type :=
| Ok (a : A)
| Raise (e : PyError).

Arguments Ok {A} a.
Arguments Raise {A} e.

Definition bind {A B : Type} (m : Exc A) (f : A -> Exc B) : Exc B :=
  match m with
  | Ok a => f a
  | Raise e => Raise e
  end.

Notation "'let!' x <- m ; f" := (bind m (fun x => f))
  (at level 10, x name, m at level 100, f at level 200, only parsing).
Notation "'let!' ' pat <- m ; f" := (bind m (fun x => match x with pat => f end))
  (at level 10, pat pattern, m at level 100, f at level 200, only parsing).

Fixpoint mapE {A B : Type} (f : A -> Exc B) (l : list A) : Exc (list B) :=
  match l with
  | [] => Ok []
  | x :: t => let! y <- f x ; let! ys <- mapE f t ; Ok (y :: ys)
  end.

Fixpoint foldE {A B : Type} (f : A -> B -> Exc A) (a : A) (l : list B) : Exc A :=
  match l with
  | [] => Ok a
  | x :: t => let! a' <- f a x ; foldE f a' t
  end.

(** ** numpy and Python primitives *)

(** [a[i]] on a sequence of length [n]: a negative index counts from the
    end, anything outside [[-n, n)] raises [IndexError]. *)
Definition np_index (n : nat) (i : Z) : Exc nat :=
  if ((0 <=? i) && (i <? Z.of_nat n))%Z then Ok (Z.to_nat i)
  else if ((- Z.of_nat n <=? i) && (i <? 0))%Z then Ok (Z.to_nat (Z.of_nat n + i))
  else Raise IndexError.

Definition np_getitem {A : Type} (a : list A) (i : Z) : Exc A :=
  let! j <- np_index (length a) i ;
  match a !! j with
  | Some x => Ok x
  | None => Raise IndexError
  end.

(** [l[idx]] for an index that numpy produced (never negative). *)
Definition list_getitem {A : Type} (l : list A) (idx : nat) : Exc A :=
  match l !! idx with
  | Some x => Ok x
  | None => Raise IndexError
  end.

(** [a[selected_indices]] where [selected_indices = np.array(list)]: an empty
    Python list becomes a float array, which numpy refuses as an index. *)
Definition np_take {A : Type} (a : list A) (selected_indices : list nat) : Exc (list A) :=
  match selected_indices with
  | [] => Raise IndexError
  | _ => mapE (list_getitem a) selected_indices
  end.

(** [np.zeros(n)] *)
Definition np_zeros (n : Z) : Exc (list Z) :=
  if (n <? 0)%Z then Raise (ValueError "negative dimensions are not allowed")
  else Ok (replicate (Z.to_nat n) 0%Z).

(** [np.argmin]: the first position of the smallest value. *)
Fixpoint argmin_from (best_i best_v i : nat) (l : list nat) : nat :=
  match l with
  | [] => best_i
  | v :: t =>
      if (v <? best_v)%nat then argmin_from i v (S i) t
      else argmin_from best_i best_v (S i) t
  end.

Definition np_argmin (a : list nat) : Exc nat :=
  match a with
  | [] => Raise (ValueError "attempt to get argmin of an empty sequence")
  | v :: t => Ok (argmin_from 0 v 1 t)
  end.

(** [np.argsort]: positions in ascending order of their value. numpy leaves
    the order of equal values open; the model breaks ties by position. *)
Fixpoint insert_sorted (key : nat -> Q) (i : nat) (l : list nat) : list nat :=
  match l with
  | [] => [i]
  | j :: t =>
      if Qle_bool (key i) (key j) then i :: j :: t
      else j :: insert_sorted key i t
  end.

Definition np_argsort (a : list Q) : list nat :=
  foldr (insert_sorted (fun i => nth i a 0%Q)) [] (seq 0 (length a)).

(** Python [x / y] on floats and [int(x)] (truncation toward zero). *)
Definition py_truediv (x y : Q) : Exc Q :=
  if Qeq_bool y 0 then Raise ZeroDivisionError else Ok (x / y)%Q.

Definition py_int (q : Q) : Z := Z.quot (Qnum q) (Zpos (Qden q)).

Definition Qlt_bool (x y : Q) : bool := negb (Qle_bool y x).

(** ** Quantizer: [quantize_descriptor] *)

Abbreviation Descriptor := (list N).

(** [descriptor ^ word] on two one-dimensional uint8 arrays, with numpy's
    broadcasting of a length-one operand. *)
Definition np_xor (a b : Descriptor) : Exc Descriptor :=
  if (length a =? length b)%nat then Ok (zip_with N.lxor a b)
  else match a, b with
       | [x], _ => Ok (map (N.lxor x) b)
       | _, [y] => Ok (map (fun x => N.lxor x y) a)
       | _, _ => Raise (ValueError "operands could not be broadcast together")
       end.

(** [int.from_bytes(bytes(a), byteorder='big')] *)
Definition int_from_bytes (a : Descriptor) : N :=
  fold_left (fun acc b => (acc * 256 + b)%N) a 0%N.

(** [bin(n).count('1')] *)
Fixpoint count_ones_pos (p : positive) : nat :=
  match p with
  | xH => 1
  | xO q => count_ones_pos q
  | xI q => S (count_ones_pos q)
  end.

Definition count_ones (n : N) : nat :=
  match n with
  | N0 => 0
  | Npos p => count_ones_pos p
  end.

Definition hamming (descriptor word : Descriptor) : Exc nat :=
  let! x <- np_xor descriptor word ;
  Ok (count_ones (int_from_bytes x)).

Definition quantize_descriptor (descriptor : Descriptor) (vocabulary : list Descriptor) : Exc Z :=
  let! hamming_dist <- mapE (hamming descriptor) vocabulary ;
  let! w <- np_argmin hamming_dist ;
  Ok (Z.of_nat w).

(** Every entry of a [uint8] row is a byte. *)
Definition uint8_row (a : Descriptor) : Prop := Forall (fun b => (b < 256)%N) a.

(** The distance the specification speaks of: the number of bit positions
    in which two equally long byte rows differ. *)
Definition differing_bits (a b : Descriptor) : nat :=
  sum_list (zip_with (fun x y => count_ones (N.lxor x y)) a b).

(** ** Bag of words: [descriptors_to_bow] *)

Definition bow_add (bow : gmap Z Z) (word_id : Z) : gmap Z Z :=
  <[word_id := (default 0 (bow !! word_id) + 1)%Z]> bow.

Definition descriptors_to_bow (vocabulary : option (list Descriptor))
  (descriptors : list Descriptor) : Exc (gmap Z Z) :=
  foldE (fun bow desc =>
           match vocabulary with
           | None => Raise TypeError
           | Some voc => let! word_id <- quantize_descriptor desc voc ; Ok (bow_add bow word_id)
           end) ∅ descriptors.

(** ** Weighting engine: [compute_idf] and [compute_tfidf_vector] *)

(** [df[word_id] += 1] *)
Definition df_incr (df : list Z) (word_id : Z) : Exc (list Z) :=
  let! j <- np_index (length df) word_id ;
  match df !! j with
  | Some c => Ok (<[j := (c + 1)%Z]> df)
  | None => Raise IndexError
  end.

(** The counting loop of [compute_idf]. *)
Definition document_frequency (vocabulary_size : Z) (target_bow_vectors : list (gmap Z Z)) : Exc (list Z) :=
  let! df <- np_zeros vocabulary_size ;
  foldE (fun df bow => foldE df_incr df (map fst (map_to_list bow))) df target_bow_vectors.

(** [np.log((N + 1) / (df + 1))], one entry *)
Definition idf_weight (N : nat) (df : Z) : R :=
  ln ((INR N + 1) / (IZR df + 1)).

Definition compute_idf (vocabulary_size : Z) (target_bow_vectors : list (gmap Z Z)) : Exc (list R) :=
  let N := length target_bow_vectors in
  let! df <- document_frequency vocabulary_size target_bow_vectors ;
  Ok (map (idf_weight N) df).

(** [count / num_features] on two Python ints *)
Definition int_truediv (a b : Z) : Exc R :=
  if (b =? 0)%Z then Raise ZeroDivisionError else Ok (IZR a / IZR b)%R.

(** [self.idf_weights[word_id] if self.idf_weights is not None else 1.0] *)
Definition idf_lookup (idf_weights : option (list R)) (word_id : Z) : Exc R :=
  match idf_weights with
  | Some ws => np_getitem ws word_id
  | None => Ok 1%R
  end.

Definition tfidf_step (idf_weights : option (list R)) (num_features : Z)
  (tfidf : gmap Z R) (item : Z * Z) : Exc (gmap Z R) :=
  let '(word_id, count) := item in
  let! tf <- int_truediv count num_features ;
  let! idf <- idf_lookup idf_weights word_id ;
  Ok (<[word_id := (tf * idf)%R]> tfidf).

Definition compute_tfidf_vector (idf_weights : option (list R)) (bow : gmap Z Z)
  (num_features : Z) : Exc (gmap Z R) :=
  foldE (tfidf_step idf_weights num_features) ∅ (map_to_list bow).

(** The notions the specification uses for the weighting engine: the number
    of histograms whose key set contains a word, the histograms whose
    word-ids all lie in [[0, vocabulary_size)], and the sum of the counts of
    a histogram. *)
Definition targets_containing (target_bow_vectors : list (gmap Z Z)) (w : Z) : nat :=
  length (filter (fun bow : gmap Z Z => is_Some (bow !! w)) target_bow_vectors).

Definition word_ids_in_range (vocabulary_size : Z) (bow : gmap Z Z) : Prop :=
  forall w : Z, is_Some (bow !! w) -> (0 <= w < vocabulary_size)%Z.

Definition histogram_sum (bow : gmap Z Z) : Z :=
  map_fold (fun _ count acc => (count + acc)%Z) 0%Z bow.

(** ** Printed diagnostics

    One constructor per [print] of the modelled functions, carrying the
    values the line is formatted from. *)

Inductive Event : Type :=
| WarnNoFeaturesFound (image_path : string)
| ReducedFeatures (before after : nat)
| BuildingVocabulary (k levels vocabulary_size : Z) (input_descriptors : nat)
| WarnFewerDescriptors (descriptors : nat) (vocabulary_size : Z)
| ReducingVocabularySize (descriptors : nat)
| Clustering (descriptors : nat) (vocabulary_size : Z)
| VocabularyBuilt (words : nat)
| IdfComputed (vocabulary_size : Z)
| ProcessingTargets (images : nat)
| ExtractingFeatures (name : string)
| WarnSkipping (name : string)
| FoundFeatures (features : nat) (recommended : bool)
| TotalFeatures (features : nat)
| ConvertingToBow
| UniqueWords (id : string) (words : nat)
| ComputingTfidf
| InputNotFound
| ErrorReport (e : PyError)
| BuiltSuccessfully.

(** A computation that prints and may raise: what it printed, and how it
    ended. *)
Definition Py (A : Type) : Type := (list Event * Exc A)%type.

Definition ret {A : Type} (a : A) : Py A := ([], Ok a).

Definition pbind {A B : Type} (m : Py A) (f : A -> Py B) : Py B :=
  match m with
  | (out, Ok a) => let '(out', r) := f a in (out ++ out', r)
  | (out, Raise e) => (out, Raise e)
  end.

Definition print (e : Event) : Py unit := ([e], Ok tt).

Definition raise {A : Type} (e : PyError) : Py A := ([], Raise e).

Definition lift {A : Type} (m : Exc A) : Py A := ([], m).

Notation "'do!' x <- m ; f" := (pbind m (fun x => f))
  (at level 10, x name, m at level 100, f at level 200, only parsing).
Notation "'do!' ' pat <- m ; f" := (pbind m (fun x => match x with pat => f end))
  (at level 10, pat pattern, m at level 100, f at level 200, only parsing).
Notation "'say!' e ; f" := (pbind (print e) (fun _ => f))
  (at level 10, e at level 100, f at level 200, only parsing).

(** ** Feature budgeter: [_select_best_features] *)

Record KeyPoint : Type := {
  kp_pt : Q * Q;
  kp_response : Q
}.

Definition grid_size : Z := 4.

(** [cell_counts[cell_y, cell_x]] on the 4x4 integer array, kept row by row. *)
Definition grid_get (cell_counts : list nat) (cell_y cell_x : Z) : Exc nat :=
  let! r <- np_index 4 cell_y ;
  let! c <- np_index 4 cell_x ;
  list_getitem cell_counts (4 * r + c).

(** [cell_counts[cell_y, cell_x] += 1] *)
Definition grid_incr (cell_counts : list nat) (cell_y cell_x : Z) : Exc (list nat) :=
  let! r <- np_index 4 cell_y ;
  let! c <- np_index 4 cell_x ;
  let! v <- list_getitem cell_counts (4 * r + c) ;
  Ok (<[4 * r + c := S v]> cell_counts).

(** The grid cell of a keypoint: [min(int(x / cell_w), grid_size - 1)] and
    the same for [y]. *)
Definition grid_cell (cell_h cell_w : Q) (kp : KeyPoint) : Exc (Z * Z) :=
  let '(x, y) := kp_pt kp in
  let! qx <- py_truediv x cell_w ;
  let cell_x := Z.min (py_int qx) (grid_size - 1) in
  let! qy <- py_truediv y cell_h ;
  let cell_y := Z.min (py_int qy) (grid_size - 1) in
  Ok (cell_y, cell_x).

(** First pass: walk the strength-sorted positions and admit a feature when
    its cell is not full; leave the loop once the budget is reached. *)
Fixpoint first_pass (kps : list KeyPoint) (cell_h cell_w : Q)
  (features_per_cell max_features : nat) (sorted_indices : list nat)
  (selected_indices : list nat) (cell_counts : list nat)
  : Exc (list nat * list nat) :=
  match sorted_indices with
  | [] => Ok (selected_indices, cell_counts)
  | idx :: rest =>
      let! kp <- list_getitem kps idx ;
      let! '(cell_y, cell_x) <- grid_cell cell_h cell_w kp ;
      let! count <- grid_get cell_counts cell_y cell_x ;
      if (count <? features_per_cell)%nat then
        let selected_indices := selected_indices ++ [idx] in
        let! cell_counts <- grid_incr cell_counts cell_y cell_x ;
        if (max_features <=? length selected_indices)%nat
        then Ok (selected_indices, cell_counts)
        else first_pass kps cell_h cell_w features_per_cell max_features
               rest selected_indices cell_counts
      else first_pass kps cell_h cell_w features_per_cell max_features
             rest selected_indices cell_counts
  end.

(** Second pass: fill the remaining slots with the strongest positions not
    selected yet. *)
Fixpoint second_pass (max_features : nat) (sorted_indices : list nat)
  (selected_indices : list nat) : list nat :=
  match sorted_indices with
  | [] => selected_indices
  | idx :: rest =>
      if bool_decide (idx ∈ selected_indices)
      then second_pass max_features rest selected_indices
      else
        let selected_indices := selected_indices ++ [idx] in
        if (max_features <=? length selected_indices)%nat
        then selected_indices
        else second_pass max_features rest selected_indices
  end.

(** [np.argsort(-responses)] *)
Definition sorted_by_response (kps : list KeyPoint) : list nat :=
  np_argsort (map (fun kp => (- kp_response kp)%Q) kps).

(** The slow path of [_select_best_features] up to the value of
    [selected_indices] after both passes. *)
Definition select_indices (max_features : nat) (kps : list KeyPoint)
  (image_shape : Z * Z) : Exc (list nat) :=
  let '(h, w) := image_shape in
  let sorted_indices := sorted_by_response kps in
  let cell_h := (inject_Z h / inject_Z grid_size)%Q in
  let cell_w := (inject_Z w / inject_Z grid_size)%Q in
  let features_per_cell := (max_features / 16)%nat in
  let! '(selected_indices, cell_counts) <-
    first_pass kps cell_h cell_w features_per_cell max_features
      sorted_indices [] (replicate 16 0%nat) ;
  if (length selected_indices <? max_features)%nat
  then Ok (second_pass max_features sorted_indices selected_indices)
  else Ok selected_indices.

Definition _select_best_features (max_features_per_target : nat)
  (keypoints : list (Q * Q)) (descriptors : list Descriptor)
  (kps : list KeyPoint) (image_shape : Z * Z)
  : Py (list (Q * Q) * list Descriptor * list KeyPoint) :=
  if (length keypoints <=? max_features_per_target)%nat
  then ret (keypoints, descriptors, kps)
  else
    do! selected_indices <- lift (select_indices max_features_per_target kps image_shape) ;
    do! selected_keypoints <- lift (np_take keypoints selected_indices) ;
    do! selected_descriptors <- lift (np_take descriptors selected_indices) ;
    do! selected_kps <- lift (mapE (list_getitem kps) selected_indices) ;
    say! ReducedFeatures (length keypoints) (length selected_keypoints) ;
    ret (selected_keypoints, selected_descriptors, selected_kps).

(** *** The budgeter as the specification words it

    The grid cell of a keypoint as one number (row times four plus column),
    the number of selected positions that fall into a cell, and the walk
    "admit a feature only if its cell's quota is not yet exhausted; stop
    early once the global budget is reached", told without the numpy
    bookkeeping. *)
Definition cell_of (cell_h cell_w : Q) (kp : KeyPoint) : nat :=
  let '(x, y) := kp_pt kp in
  (4 * Z.to_nat (Z.min (py_int (y / cell_h)) 3)
   + Z.to_nat (Z.min (py_int (x / cell_w)) 3))%nat.

Definition cell_count (cell : nat -> nat) (c : nat) (selected : list nat) : nat :=
  length (filter (fun idx => cell idx = c) selected).

Fixpoint quota_walk (cell : nat -> nat) (quota budget : nat)
  (sorted_indices selected : list nat) : list nat :=
  match sorted_indices with
  | [] => selected
  | idx :: rest =>
      if (cell_count cell (cell idx) selected <? quota)%nat then
        if (budget <=? length (selected ++ [idx]))%nat then selected ++ [idx]
        else quota_walk cell quota budget rest (selected ++ [idx])
      else quota_walk cell quota budget rest selected
  end.

(** The cell of the keypoint at a position of [kps]. *)
Definition cell_at (kps : list KeyPoint) (image_shape : Z * Z) (idx : nat) : nat :=
  match kps !! idx with
  | Some kp =>
      cell_of (inject_Z (fst image_shape) / inject_Z grid_size)
              (inject_Z (snd image_shape) / inject_Z grid_size) kp
  | None => 0%nat
  end.

(** The response of the keypoint at a position of [kps]. *)
Definition response_at (kps : list KeyPoint) (idx : nat) : Q :=
  match kps !! idx with
  | Some kp => kp_response kp
  | None => 0%Q
  end.

(** The numpy array [cell_counts] holds, for every cell, the number of
    selected positions in it. *)
Definition counts_of (cell : nat -> nat) (selected : list nat) (cell_counts : list nat) : Prop :=
  length cell_counts = 16%nat /\
  forall c, (c < 16)%nat -> cell_counts !! c = Some (cell_count cell c selected).

(** What OpenCV hands to the budgeter: an image with positive height and
    width, keypoints at non-negative pixel coordinates, and one keypoint
    position and one descriptor per cv2 keypoint. *)
Definition detector_output (keypoints : list (Q * Q)) (descriptors : list Descriptor)
  (kps : list KeyPoint) (image_shape : Z * Z) : Prop :=
  (0 < fst image_shape)%Z /\ (0 < snd image_shape)%Z /\
  length keypoints = length kps /\ length descriptors = length kps /\
  Forall (fun kp => (0 <= fst (kp_pt kp))%Q /\ (0 <= snd (kp_pt kp))%Q) kps.

(** A small image for the examples: three keypoints on a 40x40 image. *)
Definition sample_kps : list KeyPoint :=
  [ {| kp_pt := (1, 1)%Q; kp_response := 5%Q |};
    {| kp_pt := (2, 1)%Q; kp_response := 9%Q |};
    {| kp_pt := (30, 35)%Q; kp_response := 7%Q |} ].

Definition sample_keypoints : list (Q * Q) := map kp_pt sample_kps.

Definition sample_descriptors : list Descriptor := [[1%N; 0%N]; [2%N; 0%N]; [3%N; 255%N]].

Definition sample_shape : Z * Z := (40%Z, 40%Z).

(** Twenty keypoints on the same image, the stronger the later: the first
    eighteen in the top-left cell, the last two in the bottom-right cell. *)
Definition crowded_kps : list KeyPoint :=
  map (fun i : nat =>
         {| kp_pt := if (i <? 18)%nat then (1, 1)%Q else (35, 35)%Q;
            kp_response := inject_Z (Z.of_nat i) |}) (seq 0 20).

(** ** Vocabulary builder: [build_vocabulary] *)

(** [np.unpackbits(a, axis=1)]: every byte becomes its eight bits, most
    significant first. *)
Definition byte_bits (b : N) : list bool :=
  map (fun i => N.testbit b i) [7; 6; 5; 4; 3; 2; 1; 0]%N.

Definition unpackbits (row : Descriptor) : list bool :=
  concat (map byte_bits row).

(** [np.packbits(bits, axis=1)]: groups of eight bits, most significant
    first, the last group padded with zeros. *)
Fixpoint packbits_from (bits : list bool) (acc : N) (filled : nat) : Descriptor :=
  match bits with
  | [] => if (filled =? 0)%nat then [] else [N.shiftl acc (N.of_nat (8 - filled))]
  | b :: t =>
      let acc := (2 * acc + (if b then 1 else 0))%N in
      if (S filled =? 8)%nat then acc :: packbits_from t 0%N 0%nat
      else packbits_from t acc (S filled)
  end.

Definition packbits (bits : list bool) : Descriptor := packbits_from bits 0%N 0%nat.

Definition bit_to_float (b : bool) : Q := if b then 1%Q else 0%Q.

(** The per-target dictionary of [process_targets], with its keys ['id'],
    ['filename'], ['keypoints'], ['descriptors'], ['num_features'],
    ['metadata'] and, once they are set, ['bow'] and ['bow_tfidf']. *)
Record Target {Metadata : Type} : Type := {
  t_id : string;
  t_filename : string;
  t_keypoints : list (Q * Q);
  t_descriptors : list Descriptor;
  t_num_features : Z;
  t_metadata : Metadata;
  t_bow : option (gmap Z Z);
  t_bow_tfidf : option (gmap Z R)
}.
Arguments Target Metadata : clear implicits.

(** The attributes of a [VocabularyTreeBuilder] object. *)
Record VocabularyTreeBuilder {Metadata : Type} : Type := {
  self_k : Z;
  self_levels : Z;
  self_vocabulary_size : Z;
  self_vocabulary : option (list Descriptor);
  self_idf_weights : option (list R);
  self_targets : list (Target Metadata);
  self_max_features_per_target : nat
}.
Arguments VocabularyTreeBuilder Metadata : clear implicits.

(** [VocabularyTreeBuilder.__init__], for a depth that is not negative:
    there Python's [k ** levels] is the integer power. With a negative
    depth Python raises [ZeroDivisionError] for [k = 0] and stores a float
    otherwise; the properties that go through [init] assume
    [0 <= levels]. *)
Definition init {Metadata : Type} (k levels : Z) : VocabularyTreeBuilder Metadata :=
  {| self_k := k;
     self_levels := levels;
     self_vocabulary_size := (k ^ levels)%Z;
     self_vocabulary := None;
     self_idf_weights := None;
     self_targets := [];
     self_max_features_per_target := 500 |}.

(** An image file of the target directory: [str(img_path)], [img_path.name]
    and [img_path.stem]. *)
Record ImagePath : Type := {
  path_str : string;
  path_name : string;
  path_stem : string
}.

Section Pipeline.

(** The collaborators outside the repository: OpenCV's image reader and BRISK
    detector, scikit-learn's mini-batch k-means (with its fixed random
    state, a function of its input), the quality heuristics and the JSON
    export. *)
Context {Image Metadata : Type}.
Variable imread : string -> option Image.
Variable gray_shape : Image -> Z * Z.
Variable detectAndCompute : Image -> list KeyPoint * option (list Descriptor).
Variable _compute_image_metadata : Image -> list (Q * Q) -> list KeyPoint -> Metadata.
Variable empty_metadata : Metadata.
Variable quality_recommended : Metadata -> bool.
Variable MiniBatchKMeans_fit : Z -> list (list Q) -> Exc (list (list Q)).
Variable export_database : VocabularyTreeBuilder Metadata -> Py unit.

Abbreviation Builder := (VocabularyTreeBuilder Metadata).

Definition set_vocabulary_size (self : Builder) (v : Z) : Builder :=
  {| self_k := self_k self;
     self_levels := self_levels self;
     self_vocabulary_size := v;
     self_vocabulary := self_vocabulary self;
     self_idf_weights := self_idf_weights self;
     self_targets := self_targets self;
     self_max_features_per_target := self_max_features_per_target self |}.

Definition set_vocabulary (self : Builder) (v : list Descriptor) : Builder :=
  {| self_k := self_k self;
     self_levels := self_levels self;
     self_vocabulary_size := self_vocabulary_size self;
     self_vocabulary := Some v;
     self_idf_weights := self_idf_weights self;
     self_targets := self_targets self;
     self_max_features_per_target := self_max_features_per_target self |}.

Definition set_idf_weights (self : Builder) (ws : list R) : Builder :=
  {| self_k := self_k self;
     self_levels := self_levels self;
     self_vocabulary_size := self_vocabulary_size self;
     self_vocabulary := self_vocabulary self;
     self_idf_weights := Some ws;
     self_targets := self_targets self;
     self_max_features_per_target := self_max_features_per_target self |}.

Definition set_targets (self : Builder) (ts : list (Target Metadata)) : Builder :=
  {| self_k := self_k self;
     self_levels := self_levels self;
     self_vocabulary_size := self_vocabulary_size self;
     self_vocabulary := self_vocabulary self;
     self_idf_weights := self_idf_weights self;
     self_targets := ts;
     self_max_features_per_target := self_max_features_per_target self |}.

Definition build_vocabulary (self : Builder) (all_descriptors : list Descriptor) : Py Builder :=
  say! BuildingVocabulary (self_k self) (self_levels self)
         (self_vocabulary_size self) (length all_descriptors) ;
  do! self <-
    (if (Z.of_nat (length all_descriptors) <? self_vocabulary_size self)%Z
     then
       say! WarnFewerDescriptors (length all_descriptors) (self_vocabulary_size self) ;
       say! ReducingVocabularySize (length all_descriptors) ;
       ret (set_vocabulary_size self (Z.of_nat (length all_descriptors)))
     else ret self) ;
  let desc_float := map (fun row => map bit_to_float (unpackbits row)) all_descriptors in
  say! Clustering (length desc_float) (self_vocabulary_size self) ;
  do! cluster_centers <- lift (MiniBatchKMeans_fit (self_vocabulary_size self) desc_float) ;
  let centers_binary :=
    map (fun center => packbits (map (fun c => Qlt_bool (1 # 2) c) center)) cluster_centers in
  let self := set_vocabulary self centers_binary in
  say! VocabularyBuilt (length centers_binary) ;
  ret self.

(** ** Orchestration: [extract_features], [process_targets], [main] *)

Definition extract_features (self : Builder) (image_path : string)
  : Py (list (Q * Q) * list Descriptor * Metadata) :=
  match imread image_path with
  | None => raise (ValueError ("Failed to load image: " ++ image_path))
  | Some img =>
      let '(kps, descs) := detectAndCompute img in
      match descs with
      | None => say! WarnNoFeaturesFound image_path ; ret ([], [], empty_metadata)
      | Some [] => say! WarnNoFeaturesFound image_path ; ret ([], [], empty_metadata)
      | Some descs =>
          let keypoints := map kp_pt kps in
          let metadata := _compute_image_metadata img keypoints kps in
          do! '(keypoints, descs, kps) <-
            _select_best_features (self_max_features_per_target self)
              keypoints descs kps (gray_shape img) ;
          ret (keypoints, descs, metadata)
      end
  end.

(** Step 1 of [process_targets]: the loop over the sorted image files. *)
Fixpoint extract_all (self : Builder) (image_files : list ImagePath)
  (all_descriptors : list (list Descriptor)) (target_features : list (Target Metadata))
  : Py (list (list Descriptor) * list (Target Metadata)) :=
  match image_files with
  | [] => ret (all_descriptors, target_features)
  | img_path :: rest =>
      say! ExtractingFeatures (path_name img_path) ;
      do! '(keypoints, descriptors, metadata) <- extract_features self (path_str img_path) ;
      if (length descriptors =? 0)%nat then
        say! WarnSkipping (path_name img_path) ;
        extract_all self rest all_descriptors target_features
      else
        let target :=
          {| t_id := path_stem img_path;
             t_filename := path_name img_path;
             t_keypoints := keypoints;
             t_descriptors := descriptors;
             t_num_features := Z.of_nat (length keypoints);
             t_metadata := metadata;
             t_bow := None;
             t_bow_tfidf := None |} in
        say! FoundFeatures (length descriptors) (quality_recommended metadata) ;
        extract_all self rest (all_descriptors ++ [descriptors]) (target_features ++ [target])
  end.

(** [np.vstack]: the arrays stacked, provided all rows are equally wide. *)
Definition np_vstack (arrays : list (list Descriptor)) : Exc (list Descriptor) :=
  match concat arrays with
  | [] => Raise (ValueError "need at least one array to concatenate")
  | row :: rows =>
      if forallb (fun r => (length r =? length row)%nat) rows then Ok (row :: rows)
      else Raise (ValueError "all the input array dimensions must match exactly")
  end.

Definition set_bow (target : Target Metadata) (bow : gmap Z Z) : Target Metadata :=
  {| t_id := t_id target;
     t_filename := t_filename target;
     t_keypoints := t_keypoints target;
     t_descriptors := t_descriptors target;
     t_num_features := t_num_features target;
     t_metadata := t_metadata target;
     t_bow := Some bow;
     t_bow_tfidf := t_bow_tfidf target |}.

Definition set_bow_tfidf (target : Target Metadata) (tfidf : gmap Z R) : Target Metadata :=
  {| t_id := t_id target;
     t_filename := t_filename target;
     t_keypoints := t_keypoints target;
     t_descriptors := t_descriptors target;
     t_num_features := t_num_features target;
     t_metadata := t_metadata target;
     t_bow := t_bow target;
     t_bow_tfidf := Some tfidf |}.

(** Step 3: one bag of words per target. *)
Fixpoint targets_to_bow (self : Builder) (target_features : list (Target Metadata))
  : Py (list (Target Metadata) * list (gmap Z Z)) :=
  match target_features with
  | [] => ret ([], [])
  | target :: rest =>
      do! bow <- lift (descriptors_to_bow (self_vocabulary self) (t_descriptors target)) ;
      say! UniqueWords (t_id target) (size bow) ;
      do! '(targets, bows) <- targets_to_bow self rest ;
      ret (set_bow target bow :: targets, bow :: bows)
  end.

(** Step 5: one TF-IDF vector per target. *)
Definition targets_to_tfidf (self : Builder) (target_features : list (Target Metadata))
  : Exc (list (Target Metadata)) :=
  mapE (fun target =>
          match t_bow target with
          | None => Raise KeyError
          | Some bow =>
              let! tfidf <- compute_tfidf_vector (self_idf_weights self) bow (t_num_features target) ;
              Ok (set_bow_tfidf target tfidf)
          end) target_features.

(** [process_targets], from [sorted(image_files)] on: listing the directory,
    the filter on the file extension and the sort are outside the model. *)
Definition process_targets (self : Builder) (image_files : list ImagePath) : Py Builder :=
  say! ProcessingTargets (length image_files) ;
  do! '(all_descriptors, target_features) <- extract_all self image_files [] [] ;
  if (length all_descriptors =? 0)%nat
  then raise (ValueError "No features extracted from any target images")
  else
    do! all_descriptors <- lift (np_vstack all_descriptors) ;
    say! TotalFeatures (length all_descriptors) ;
    do! self <- build_vocabulary self all_descriptors ;
    say! ConvertingToBow ;
    do! '(target_features, target_bow_vectors) <- targets_to_bow self target_features ;
    do! idf <- lift (compute_idf (self_vocabulary_size self) target_bow_vectors) ;
    let self := set_idf_weights self idf in
    say! IdfComputed (self_vocabulary_size self) ;
    say! ComputingTfidf ;
    do! target_features <- lift (targets_to_tfidf self target_features) ;
    ret (set_targets self target_features).

(** [main], from the parsed arguments on: the printed lines and the exit
    status of the process. *)
Definition main (input_exists : bool) (branching_factor levels vocab_size : Z)
  (image_files : list ImagePath) : list Event * Z :=
  if negb input_exists then ([InputNotFound], 1%Z)
  else
    let builder : Builder := init branching_factor levels in
    let builder :=
      if (vocab_size =? 0)%Z then builder else set_vocabulary_size builder vocab_size in
    match (do! builder <- process_targets builder image_files ;
           do! _ <- export_database builder ;
           say! BuiltSuccessfully ; ret tt) with
    | (out, Ok _) => (out, 0%Z)
    | (out, Raise e) => (out ++ [ErrorReport e], 1%Z)
    end.

End Pipeline.

(** ** What the embedding assumes of the collaborators *)

(** A two-dimensional [uint8] array with [D] columns. *)
Definition descriptor_rows (D : nat) (rows : list Descriptor) : Prop :=
  Forall (fun r => length r = D /\ uint8_row r) rows.

(** scikit-learn's [MiniBatchKMeans(n_clusters=n).fit(data)]: for
    [1 <= n <= len(data)] it succeeds and [cluster_centers_] has [n] rows,
    as wide as the rows of [data]. *)
Definition kmeans_contract (fit : Z -> list (list Q) -> Exc (list (list Q))) : Prop :=
  forall (n : Z) (data : list (list Q)),
    (1 <= n <= Z.of_nat (length data))%Z ->
    exists centers, fit n data = Ok centers /\
      length centers = Z.to_nat n /\
      forall width, Forall (fun row => length row = width) data ->
        Forall (fun center => length center = width) centers.

(** OpenCV's BRISK [detectAndCompute]: when it finds features, it returns
    one [D]-byte descriptor per keypoint, and the keypoints lie in the
    image. *)
Definition detector_contract {Image : Type} (D : nat) (gray_shape : Image -> Z * Z)
  (detectAndCompute : Image -> list KeyPoint * option (list Descriptor)) : Prop :=
  forall img kps descs,
    detectAndCompute img = (kps, Some descs) -> descs <> [] ->
    detector_output (map kp_pt kps) descs kps (gray_shape img) /\
    descriptor_rows D descs.

(** An image file loads; an image file yields at least one feature. *)
Definition loads {Image : Type} (imread : string -> option Image) (f : ImagePath) : bool :=
  match imread (path_str f) with
  | Some _ => true
  | None => false
  end.

Definition has_features {Image : Type} (imread : string -> option Image)
  (detectAndCompute : Image -> list KeyPoint * option (list Descriptor))
  (f : ImagePath) : bool :=
  match imread (path_str f) with
  | Some img =>
      match snd (detectAndCompute img) with
      | Some (_ :: _) => true
      | _ => false
      end
  | None => false
  end.

(** A target record as step 1 of [process_targets] leaves it: at least one
    descriptor, as many keypoint positions as descriptors, that number
    stored as [num_features], and no bag of words yet. *)
Definition extracted_target {Metadata : Type} (D : nat) (t : Target Metadata) : Prop :=
  t_descriptors t <> [] /\
  length (t_keypoints t) = length (t_descriptors t) /\
  t_num_features t = Z.of_nat (length (t_keypoints t)) /\
  descriptor_rows D (t_descriptors t) /\
  t_bow t = None.

(** A target record as [process_targets] returns it: its histogram is the
    bag of words of its own descriptors over the vocabulary, and its TF-IDF
    vector is computed from that histogram, its own feature count and the
    IDF table. *)
Definition indexed_target {Metadata : Type} (voc : list Descriptor) (idf : list R)
  (t : Target Metadata) : Prop :=
  exists (bow : gmap Z Z) (tfidf : gmap Z R),
    t_bow t = Some bow /\ t_bow_tfidf t = Some tfidf /\
    t_descriptors t <> [] /\
    length (t_keypoints t) = length (t_descriptors t) /\
    t_num_features t = Z.of_nat (length (t_keypoints t)) /\
    descriptors_to_bow (Some voc) (t_descriptors t) = Ok bow /\
    word_ids_in_range (Z.of_nat (length voc)) bow /\
    histogram_sum bow = Z.of_nat (length (t_descriptors t)) /\
    compute_tfidf_vector (Some idf) bow (t_num_features t) = Ok tfidf.

(** ** Stand-ins for the collaborators, used in the examples

    Images are numbers: [a.png] is image 0 with the three sample features,
    [blank.png] is image 1 without features, any other path fails to load.
    The stand-in clustering takes the first [n] samples as centres. *)
Definition sample_imread (path : string) : option nat :=
  if String.eqb path "a.png" then Some 0%nat
  else if String.eqb path "blank.png" then Some 1%nat
  else None.

Definition sample_detect (img : nat) : list KeyPoint * option (list Descriptor) :=
  match img with
  | O => (sample_kps, Some sample_descriptors)
  | _ => ([], None)
  end.

Definition sample_gray_shape (img : nat) : Z * Z := sample_shape.

Definition sample_metadata (img : nat) (keypoints : list (Q * Q)) (kps : list KeyPoint) : unit := tt.

Definition sample_recommended (metadata : unit) : bool := false.

Definition sample_kmeans (n : Z) (data : list (list Q)) : Exc (list (list Q)) :=
  if ((1 <=? n) && (n <=? Z.of_nat (length data)))%Z then Ok (take (Z.to_nat n) data)
  else Raise InvalidParameterError.

Definition sample_export (builder : VocabularyTreeBuilder unit) : Py unit := ret tt.

Definition sample_path (name stem : string) : ImagePath :=
  {| path_str := name; path_name := name; path_stem := stem |}.

Definition sample_builder (vocabulary_size : Z) : VocabularyTreeBuilder unit :=
  {| self_k := 10;
     self_levels := 2;
     self_vocabulary_size := vocabulary_size;
     self_vocabulary := None;
     self_idf_weights := None;
     self_targets := [];
     self_max_features_per_target := 500 |}.

Definition sample_files : list ImagePath :=
  [sample_path "a.png" "a"; sample_path "blank.png" "blank"].

Definition sample_process (self : VocabularyTreeBuilder unit) (image_files : list ImagePath)
  : Py (VocabularyTreeBuilder unit) :=
  process_targets sample_imread sample_gray_shape sample_detect sample_metadata tt
    sample_recommended sample_kmeans self image_files.

Definition sample_main (vocab_size : Z) (image_files : list ImagePath) : list Event * Z :=
  main sample_imread sample_gray_shape sample_detect sample_metadata tt
    sample_recommended sample_kmeans sample_export true 10 2 vocab_size image_files.

(** ** Notions used by the further properties *)

(** The number of descriptors whose nearest centroid is the word [w]. *)
Definition quantizes_to (vocabulary : list Descriptor) (w : Z) (d : Descriptor) : bool :=
  match quantize_descriptor d vocabulary with
  | Ok w' => (w' =? w)%Z
  | Raise _ => false
  end.

Definition occurrences (vocabulary : list Descriptor) (descriptors : list Descriptor)
  (w : Z) : nat :=
  length (filter (fun d => quantizes_to vocabulary w d = true) descriptors).

(** The sum of the weights of a sparse vector. *)
Definition weight_sum (v : gmap Z R) : R :=
  map_fold (fun _ x acc => (x + acc)%R) 0%R v.

(** A builder with another branching factor and depth, everything else
    alike. *)
Definition with_tree_shape {Metadata : Type} (k levels : Z)
  (self : VocabularyTreeBuilder Metadata) : VocabularyTreeBuilder Metadata :=
  {| self_k := k;
     self_levels := levels;
     self_vocabulary_size := self_vocabulary_size self;
     self_vocabulary := self_vocabulary self;
     self_idf_weights := self_idf_weights self;
     self_targets := self_targets self;
     self_max_features_per_target := self_max_features_per_target self |}.

(** ** Image metadata: the feature distribution map of [_compute_image_metadata]

    The slice of [_compute_image_metadata] that produces
    [spatial_layout['grid_8x8']]: the two divisions by the image sides that
    come first ([w / h] for the aspect ratio and [len(keypoints) / area] for
    the feature density), then the loop over the keypoint positions on the
    8x8 integer array, kept row by row as [flatten()] returns it. The OpenCV
    and numpy statistics computed in between take no part in it. *)

(** [feature_distribution[grid_y, grid_x] += 1] *)
Definition distribution_incr (feature_distribution : list Z) (grid_y grid_x : Z)
  : Exc (list Z) :=
  let! r <- np_index 8 grid_y ;
  let! c <- np_index 8 grid_x ;
  let! v <- list_getitem feature_distribution (8 * r + c) ;
  Ok (<[8 * r + c := (v + 1)%Z]> feature_distribution).

Definition distribution_step (cell_h cell_w : Q) (feature_distribution : list Z)
  (kp : Q * Q) : Exc (list Z) :=
  let '(x, y) := kp in
  let grid_x := Z.min (py_int (x / cell_w)) (8 - 1) in
  let grid_y := Z.min (py_int (y / cell_h)) (8 - 1) in
  distribution_incr feature_distribution grid_y grid_x.

Definition feature_distribution (keypoints : list (Q * Q)) (gray_shape : Z * Z)
  : Exc (list Z) :=
  let '(h, w) := gray_shape in
  let! aspect_ratio <- int_truediv w h ;
  let area := (w * h)%Z in
  let! density <- int_truediv (Z.of_nat (length keypoints)) area ;
  let cell_h := (inject_Z h / 8)%Q in
  let cell_w := (inject_Z w / 8)%Q in
  foldE (distribution_step cell_h cell_w) (replicate 64 0%Z) keypoints.

(** The cell of the 8x8 map that a position falls into, as one number, and
    the sum of an integer array. *)
Definition distribution_cell (gray_shape : Z * Z) (kp : Q * Q) : nat :=
  (8 * Z.to_nat (Z.min (py_int (snd kp / (inject_Z (fst gray_shape) / 8))) 7)
   + Z.to_nat (Z.min (py_int (fst kp / (inject_Z (snd gray_shape) / 8))) 7))%nat.

Definition array_sum (a : list Z) : Z := foldr Z.add 0%Z a.

(** The lines that step 1 of [process_targets] and [extract_features] can
    print. *)
Definition is_extraction_event (e : Event) : bool :=
  match e with
  | ExtractingFeatures _ | WarnNoFeaturesFound _ | WarnSkipping _
  | FoundFeatures _ _ | ReducedFeatures _ _ => true
  | _ => false
  end.

(** * Properties *)

(** ** The exception monad *)

Lemma mapE_ok {A B : Type} (f : A -> Exc B) (g : A -> B) (l : list A) :
  (forall x, x ∈ l -> f x = Ok (g x)) -> mapE f l = Ok (map g l).
Proof.
  induction l as [|x t IH]; intros Hf; simpl; [reflexivity|].
  rewrite Hf by constructor. simpl.
  rewrite IH; [reflexivity|]. intros y Hy. apply Hf. now constructor.
Qed.

Lemma mapE_length {A B : Type} (f : A -> Exc B) (l : list A) (r : list B) :
  mapE f l = Ok r -> length r = length l.
Proof.
  revert r. induction l as [|x t IH]; intros r; simpl.
  - intros [= <-]. reflexivity.
  - destruct (f x) as [y|e]; simpl; [|discriminate].
    destruct (mapE f t) as [ys|e]; simpl; [|discriminate].
    intros [= <-]. simpl. f_equal. now apply IH.
Qed.

(** ** Quantizer *)

Section Quantizer.

Lemma count_ones_double (n : N) (b : bool) :
  count_ones (2 * n + N.b2n b) = (count_ones n + Nat.b2n b)%nat.
Proof.
  destruct n as [|p], b; try reflexivity.
  - change (S (count_ones_pos p) = (count_ones_pos p + 1)%nat). lia.
  - change (count_ones_pos p = (count_ones_pos p + 0)%nat). lia.
Qed.

Lemma count_ones_shift (k : nat) : forall acc b : N,
  (b < 2 ^ N.of_nat k)%N ->
  count_ones (acc * 2 ^ N.of_nat k + b) = (count_ones acc + count_ones b)%nat.
Proof.
  induction k as [|k IH]; intros acc b Hb.
  - change (N.of_nat 0) with 0%N in *. rewrite N.pow_0_r in *.
    assert (b = 0%N) by lia. subst b.
    rewrite N.mul_1_r, N.add_0_r. simpl. lia.
  - rewrite Nat2N.inj_succ, N.pow_succ_r' in *.
    rewrite (N.div2_odd b) in Hb |- * at 1.
    replace (acc * (2 * 2 ^ N.of_nat k) + (2 * N.div2 b + N.b2n (N.odd b)))%N
      with (2 * (acc * 2 ^ N.of_nat k + N.div2 b) + N.b2n (N.odd b))%N by lia.
    rewrite count_ones_double, IH.
    + rewrite <- Nat.add_assoc, <- count_ones_double, <- N.div2_odd. reflexivity.
    + destruct (N.odd b); simpl N.b2n in Hb; lia.
Qed.

Lemma count_ones_fold (a : Descriptor) : forall acc : N,
  uint8_row a ->
  count_ones (fold_left (fun acc b => (acc * 256 + b)%N) a acc)
  = (count_ones acc + sum_list (map count_ones a))%nat.
Proof.
  induction a as [|b t IH]; intros acc Ha; simpl; [lia|].
  inversion Ha as [|? ? Hb Ht]; subst.
  rewrite IH by assumption.
  change 256%N with (2 ^ N.of_nat 8)%N.
  rewrite count_ones_shift by exact Hb. lia.
Qed.

Lemma count_ones_int_from_bytes (a : Descriptor) :
  uint8_row a -> count_ones (int_from_bytes a) = sum_list (map count_ones a).
Proof.
  intros Ha. unfold int_from_bytes. rewrite count_ones_fold by assumption.
  reflexivity.
Qed.

Lemma lxor_byte (x y : N) : (x < 256)%N -> (y < 256)%N -> (N.lxor x y < 256)%N.
Proof.
  intros Hx Hy.
  destruct (N.eq_dec (N.lxor x y) 0%N) as [->|Hne]; [lia|].
  change 256%N with (2 ^ 8)%N in *.
  apply N.log2_lt_pow2; [lia|].
  pose proof (N.log2_lxor x y) as Hl.
  assert (N.log2 x < 8)%N.
  { destruct (N.eq_dec x 0%N) as [->|]; [simpl; lia|]. apply N.log2_lt_pow2; lia. }
  assert (N.log2 y < 8)%N.
  { destruct (N.eq_dec y 0%N) as [->|]; [simpl; lia|]. apply N.log2_lt_pow2; lia. }
  lia.
Qed.

Lemma zip_with_lxor_uint8 (a b : Descriptor) :
  uint8_row a -> uint8_row b -> uint8_row (zip_with N.lxor a b).
Proof.
  intros Ha. revert b. induction Ha as [|x a Hx Ha IH]; intros b Hb; simpl.
  - constructor.
  - destruct Hb as [|y b Hy Hb]; constructor; [now apply lxor_byte | now apply IH].
Qed.

Lemma sum_count_ones_zip (a b : Descriptor) :
  sum_list (map count_ones (zip_with N.lxor a b)) = differing_bits a b.
Proof.
  unfold differing_bits. revert b.
  induction a as [|x a IH]; intros [|y b]; simpl; try reflexivity.
  now rewrite IH.
Qed.

(** On two rows of bytes of one length, the big-integer route of the code
    counts the differing bit positions. *)
Lemma hamming_differing_bits (a b : Descriptor) :
  length a = length b -> uint8_row a -> uint8_row b ->
  hamming a b = Ok (differing_bits a b).
Proof.
  intros Hlen Ha Hb. unfold hamming, np_xor.
  rewrite (proj2 (Nat.eqb_eq _ _) Hlen). simpl.
  rewrite count_ones_int_from_bytes by now apply zip_with_lxor_uint8.
  now rewrite sum_count_ones_zip.
Qed.

Lemma count_ones_zero (n : N) : count_ones n = 0%nat -> n = 0%N.
Proof.
  destruct n as [|p]; [reflexivity|]. simpl.
  assert (0 < count_ones_pos p) by (induction p; simpl; lia). lia.
Qed.

Lemma differing_bits_zero (a b : Descriptor) :
  length a = length b -> (differing_bits a b = 0%nat <-> a = b).
Proof.
  unfold differing_bits. revert b.
  induction a as [|x a IH]; intros [|y b] Hlen; simpl in *; try discriminate.
  - tauto.
  - injection Hlen as Hlen. split.
    + intros H.
      assert (Hx : count_ones (N.lxor x y) = 0%nat) by lia.
      apply count_ones_zero, N.lxor_eq in Hx. subst y.
      f_equal. apply IH; [assumption | lia].
    + intros [= <- <-]. rewrite N.lxor_nilpotent. simpl.
      now apply IH.
Qed.

(** [argmin_from] keeps the first position of the least value seen. *)
Lemma argmin_from_spec (t : list nat) : forall (pre : list nat) (bi bv : nat),
  pre !! bi = Some bv ->
  (forall j v, pre !! j = Some v -> bv <= v /\ (j < bi -> bv < v)) ->
  exists rv,
    (pre ++ t) !! argmin_from bi bv (length pre) t = Some rv /\
    forall j v, (pre ++ t) !! j = Some v ->
      rv <= v /\ (j < argmin_from bi bv (length pre) t -> rv < v).
Proof.
  induction t as [|x t IH]; intros pre bi bv Hbi Hmin; simpl.
  - rewrite app_nil_r. eauto.
  - assert (Hlt : bi < length pre) by (eapply lookup_lt_Some; eauto).
    replace (pre ++ x :: t) with ((pre ++ [x]) ++ t) by now rewrite <- app_assoc.
    replace (S (length pre)) with (length (pre ++ [x])) by (rewrite length_app; simpl; lia).
    destruct (x <? bv)%nat eqn:Hx.
    + apply Nat.ltb_lt in Hx.
      replace (argmin_from (length pre) x) with (argmin_from (length pre) x) by reflexivity.
      apply IH.
      * rewrite lookup_app_r by lia. now rewrite Nat.sub_diag.
      * intros j v Hj.
        destruct (decide (j < length pre)) as [Hjl|Hjl].
        -- rewrite lookup_app_l in Hj by assumption.
           destruct (Hmin j v Hj). lia.
        -- rewrite lookup_app_r in Hj by lia.
           destruct (j - length pre) as [|n] eqn:E; simpl in Hj; [|discriminate].
           injection Hj as <-. lia.
    + apply Nat.ltb_ge in Hx.
      apply IH.
      * rewrite lookup_app_l by assumption. assumption.
      * intros j v Hj.
        destruct (decide (j < length pre)) as [Hjl|Hjl].
        -- rewrite lookup_app_l in Hj by assumption. now apply Hmin.
        -- rewrite lookup_app_r in Hj by lia.
           destruct (j - length pre) as [|n] eqn:E; simpl in Hj; [|discriminate].
           injection Hj as <-. lia.
Qed.

Lemma np_argmin_spec (a : list nat) :
  a <> [] ->
  exists w rv, np_argmin a = Ok w /\ a !! w = Some rv /\
    forall j v, a !! j = Some v -> rv <= v /\ (j < w -> rv < v).
Proof.
  destruct a as [|v t]; [congruence|]. intros _.
  destruct (argmin_from_spec t [v] 0 v) as (rv & Hrv & Hmin).
  - reflexivity.
  - intros [|j] x; simpl; [|discriminate]. intros [= <-]. lia.
  - exists (argmin_from 0 v 1 t), rv. simpl in *. auto.
Qed.

(** What [quantize_descriptor] returns on a vocabulary of byte rows as long
    as the descriptor. *)
Lemma quantize_descriptor_spec (d : Descriptor) (vocabulary : list Descriptor) :
  vocabulary <> [] ->
  uint8_row d ->
  Forall (fun word => length word = length d /\ uint8_row word) vocabulary ->
  exists (w : nat) (centroid : Descriptor),
    quantize_descriptor d vocabulary = Ok (Z.of_nat w) /\
    vocabulary !! w = Some centroid /\
    forall j word, vocabulary !! j = Some word ->
      differing_bits d centroid <= differing_bits d word /\
      (j < w -> differing_bits d centroid < differing_bits d word).
Proof.
  intros Hne Hd Hvoc. unfold quantize_descriptor.
  rewrite (mapE_ok _ (differing_bits d)).
  2:{ intros word Hin. rewrite Forall_forall in Hvoc.
      destruct (Hvoc word Hin) as [Hlen Hw]. now apply hamming_differing_bits. }
  simpl.
  destruct (np_argmin_spec (map (differing_bits d) vocabulary)) as (w & rv & Hw & Hrv & Hmin).
  { destruct vocabulary; [congruence | discriminate]. }
  rewrite Hw. simpl.
  change (map (differing_bits d) vocabulary) with (differing_bits d <$> vocabulary) in *.
  rewrite list_lookup_fmap in Hrv.
  destruct (vocabulary !! w) as [centroid|] eqn:Hc; [|discriminate].
  injection Hrv as <-.
  exists w, centroid. split; [reflexivity|]. split; [assumption|].
  intros j word Hj. apply (Hmin j).
  rewrite list_lookup_fmap, Hj. reflexivity.
Qed.

(** C4. On a non-empty vocabulary of centroids shaped like the descriptor,
    [quantize_descriptor] returns the index of a centroid whose Hamming
    distance to the descriptor (which the code's XOR-and-count computes) is
    least over the whole vocabulary, and every other centroid at that least
    distance has a higher index. *)
Theorem quantize_descriptor_nearest_lowest (d : Descriptor) (vocabulary : list Descriptor) :
  vocabulary <> [] ->
  uint8_row d ->
  Forall (fun word => length word = length d /\ uint8_row word) vocabulary ->
  exists (w : nat) (centroid : Descriptor),
    quantize_descriptor d vocabulary = Ok (Z.of_nat w) /\
    vocabulary !! w = Some centroid /\
    (forall j word, vocabulary !! j = Some word ->
       hamming d word = Ok (differing_bits d word) /\
       differing_bits d centroid <= differing_bits d word) /\
    (forall j word, vocabulary !! j = Some word ->
       differing_bits d word = differing_bits d centroid -> w <= j).
Proof.
  intros Hne Hd Hvoc.
  destruct (quantize_descriptor_spec d vocabulary Hne Hd Hvoc)
    as (w & centroid & Hq & Hw & Hmin).
  exists w, centroid. repeat split; try assumption.
  - rewrite Forall_forall in Hvoc.
    destruct (Hvoc word) as [Hlen Hu]; [eapply list_elem_of_lookup_2; eauto|].
    now apply hamming_differing_bits.
  - now apply (Hmin j).
  - intros j word Hj Heq. destruct (Hmin j word Hj) as [_ Hlt].
    destruct (decide (j < w)) as [Hjw|]; [specialize (Hlt Hjw)|]; lia.
Qed.

Lemma quantize_descriptor_nearest_lowest_witness :
  exists (w : nat) (centroid : Descriptor),
    quantize_descriptor [5%N; 0%N] [[255%N; 0%N]; [4%N; 0%N]; [1%N; 0%N]] = Ok (Z.of_nat w) /\
    [[255%N; 0%N]; [4%N; 0%N]; [1%N; 0%N]] !! w = Some centroid /\
    (forall j word, [[255%N; 0%N]; [4%N; 0%N]; [1%N; 0%N]] !! j = Some word ->
       hamming [5%N; 0%N] word = Ok (differing_bits [5%N; 0%N] word) /\
       differing_bits [5%N; 0%N] centroid <= differing_bits [5%N; 0%N] word) /\
    (forall j word, [[255%N; 0%N]; [4%N; 0%N]; [1%N; 0%N]] !! j = Some word ->
       differing_bits [5%N; 0%N] word = differing_bits [5%N; 0%N] centroid -> w <= j).
Proof.
  apply quantize_descriptor_nearest_lowest.
  - discriminate.
  - repeat constructor.
  - repeat constructor.
Defined.

(** C9, refuted as stated: with two equal centroids, quantizing the second
    one returns the index of the first. *)
Lemma quantize_centroid_not_own_index :
  [[3%N; 7%N]; [3%N; 7%N]] !! 1%nat = Some [3%N; 7%N] /\
  quantize_descriptor [3%N; 7%N] [[3%N; 7%N]; [3%N; 7%N]] = Ok 0%Z /\
  quantize_descriptor [3%N; 7%N] [[3%N; 7%N]; [3%N; 7%N]] <> Ok (Z.of_nat 1).
Proof.
  repeat split. discriminate.
Qed.

(** C9, amended. Quantizing the centroid at index [i] against its own
    vocabulary returns the lowest index that holds the same bit pattern: the
    distance there is 0, the index is at most [i], and it is [i] itself
    when no earlier centroid equals it. *)
Theorem quantize_centroid_first_equal (vocabulary : list Descriptor) (i : nat) (c : Descriptor) :
  Forall (fun word => length word = length c /\ uint8_row word) vocabulary ->
  vocabulary !! i = Some c ->
  exists j : nat,
    quantize_descriptor c vocabulary = Ok (Z.of_nat j) /\
    j <= i /\
    vocabulary !! j = Some c /\
    hamming c c = Ok 0%nat /\
    (forall j', j' < j -> vocabulary !! j' <> Some c) /\
    ((forall j', j' < i -> vocabulary !! j' <> Some c) -> j = i).
Proof.
  intros Hvoc Hi.
  assert (Hc : uint8_row c).
  { rewrite Forall_forall in Hvoc. apply (Hvoc c). eapply list_elem_of_lookup_2; eauto. }
  assert (Hne : vocabulary <> []) by (intros ->; discriminate).
  destruct (quantize_descriptor_spec c vocabulary Hne Hc Hvoc)
    as (j & centroid & Hq & Hj & Hmin).
  assert (Hzero : differing_bits c c = 0%nat) by now apply differing_bits_zero.
  assert (Hcen : centroid = c).
  { destruct (Hmin i c Hi) as [Hle _]. rewrite Hzero in Hle.
    rewrite Forall_forall in Hvoc.
    destruct (Hvoc centroid) as [Hlen _]; [eapply list_elem_of_lookup_2; eauto|].
    symmetry. apply differing_bits_zero; [congruence | lia]. }
  subst centroid.
  assert (Hfirst : forall j', j' < j -> vocabulary !! j' <> Some c).
  { intros j' Hlt Hj'. destruct (Hmin j' c Hj') as [_ Hs]. specialize (Hs Hlt). lia. }
  assert (Hji : j <= i).
  { destruct (decide (j <= i)) as [|Hgt]; [assumption|].
    exfalso. apply (Hfirst i); [lia | assumption]. }
  exists j. repeat split; try assumption.
  - rewrite hamming_differing_bits by (reflexivity || assumption). now rewrite Hzero.
  - intros Hnone. destruct (decide (j = i)) as [|Hneq]; [assumption|].
    exfalso. apply (Hnone j); [lia | assumption].
Qed.

Lemma quantize_centroid_first_equal_witness :
  exists j : nat,
    quantize_descriptor [3%N; 7%N] [[1%N; 2%N]; [3%N; 7%N]; [3%N; 7%N]] = Ok (Z.of_nat j) /\
    j <= 2 /\
    [[1%N; 2%N]; [3%N; 7%N]; [3%N; 7%N]] !! j = Some [3%N; 7%N] /\
    hamming [3%N; 7%N] [3%N; 7%N] = Ok 0%nat /\
    (forall j', j' < j -> [[1%N; 2%N]; [3%N; 7%N]; [3%N; 7%N]] !! j' <> Some [3%N; 7%N]) /\
    ((forall j', j' < 2 -> [[1%N; 2%N]; [3%N; 7%N]; [3%N; 7%N]] !! j' <> Some [3%N; 7%N]) -> j = 2).
Proof.
  apply quantize_centroid_first_equal.
  - repeat constructor.
  - reflexivity.
Defined.

End Quantizer.

(** ** Weighting engine *)

Section Weighting.

Lemma np_index_in_range (n : nat) (i : Z) :
  (0 <= i < Z.of_nat n)%Z -> np_index n i = Ok (Z.to_nat i).
Proof.
  intros H. unfold np_index.
  destruct (Z.leb_spec 0 i), (Z.ltb_spec i (Z.of_nat n)); simpl; try lia.
  reflexivity.
Qed.

Lemma df_incr_in_range (df : list Z) (w : Z) :
  (0 <= w < Z.of_nat (length df))%Z ->
  exists c, df !! Z.to_nat w = Some c /\
    df_incr df w = Ok (<[Z.to_nat w := (c + 1)%Z]> df).
Proof.
  intros H. unfold df_incr. rewrite np_index_in_range by assumption. simpl.
  destruct (lookup_lt_is_Some_2 df (Z.to_nat w)) as [c Hc]; [lia|].
  exists c. now rewrite Hc.
Qed.

(** One histogram: every listed key adds one to its own slot. *)
Lemma foldE_df_incr (keys : list Z) : forall df : list Z,
  Forall (fun w => (0 <= w < Z.of_nat (length df))%Z) keys ->
  exists df', foldE df_incr df keys = Ok df' /\
    length df' = length df /\
    forall (w : Z) (c : Z), (0 <= w)%Z -> df !! Z.to_nat w = Some c ->
      df' !! Z.to_nat w = Some (c + Z.of_nat (length (filter (fun k => k = w) keys)))%Z.
Proof.
  induction keys as [|k keys IH]; intros df Hkeys; simpl.
  - exists df. repeat split. intros w c _ Hc. rewrite Hc. f_equal. simpl. lia.
  - inversion Hkeys as [|? ? Hk Hrest]; subst.
    destruct (df_incr_in_range df k Hk) as (ck & Hck & ->). simpl.
    destruct (IH (<[Z.to_nat k := (ck + 1)%Z]> df)) as (df' & Hfold & Hlen & Hget).
    { now rewrite length_insert. }
    exists df'. split; [assumption|]. split; [now rewrite Hlen, length_insert|].
    intros w c Hw Hc.
    rewrite filter_cons. destruct (decide (k = w)) as [->|Hne].
    + rewrite (Hget w (c + 1)%Z Hw).
      * f_equal. simpl. lia.
      * rewrite list_lookup_insert_eq by (eapply lookup_lt_Some; eauto).
        congruence.
    + rewrite (Hget w c Hw).
      * reflexivity.
      * rewrite list_lookup_insert_ne by lia. assumption.
Qed.

Lemma filter_eq_NoDup (keys : list Z) (w : Z) :
  NoDup keys ->
  length (filter (fun k => k = w) keys) = if decide (w ∈ keys) then 1%nat else 0%nat.
Proof.
  induction 1 as [|k keys Hk Hnd IH]; simpl.
  - destruct (decide (w ∈ [])) as [Hin|]; [inversion Hin | reflexivity].
  - rewrite filter_cons. destruct (decide (k = w)) as [->|Hne].
    + simpl. rewrite IH. destruct (decide (w ∈ keys)); [contradiction|].
      destruct (decide (w ∈ w :: keys)) as [|Hn]; [reflexivity|].
      exfalso. apply Hn. constructor.
    + rewrite IH. destruct (decide (w ∈ keys)) as [Hin|Hin].
      * destruct (decide (w ∈ k :: keys)) as [|Hn]; [reflexivity|].
        exfalso. apply Hn. now constructor.
      * destruct (decide (w ∈ k :: keys)) as [Hn|]; [|reflexivity].
        inversion Hn; subst; contradiction.
Qed.

Lemma bow_keys_count (bow : gmap Z Z) (w : Z) :
  length (filter (fun k => k = w) (map fst (map_to_list bow)))
  = if decide (is_Some (bow !! w)) then 1%nat else 0%nat.
Proof.
  rewrite filter_eq_NoDup by apply NoDup_fst_map_to_list.
  destruct (decide (w ∈ map fst (map_to_list bow))) as [Hin|Hin],
           (decide (is_Some (bow !! w))) as [Hs|Hs]; try reflexivity; exfalso.
  - apply Hs. apply list_elem_of_fmap in Hin as ([k c] & -> & Hin).
    apply elem_of_map_to_list in Hin. simpl. eauto.
  - apply Hin. destruct Hs as [c Hc]. apply list_elem_of_fmap.
    exists (w, c). split; [reflexivity|]. now apply elem_of_map_to_list.
Qed.

(** All histograms: slot [w] ends up with the number of histograms that
    contain [w]. *)
Lemma foldE_bows (bows : list (gmap Z Z)) : forall df : list Z,
  Forall (word_ids_in_range (Z.of_nat (length df))) bows ->
  exists df',
    foldE (fun df bow => foldE df_incr df (map fst (map_to_list bow))) df bows = Ok df' /\
    length df' = length df /\
    forall (w : Z) (c : Z), (0 <= w)%Z -> df !! Z.to_nat w = Some c ->
      df' !! Z.to_nat w = Some (c + Z.of_nat (targets_containing bows w))%Z.
Proof.
  induction bows as [|bow bows IH]; intros df Hr; simpl.
  - exists df. repeat split. intros w c _ ->. f_equal. unfold targets_containing. simpl. lia.
  - inversion Hr as [|? ? Hbow Hrest]; subst.
    destruct (foldE_df_incr (map fst (map_to_list bow)) df) as (df1 & -> & Hlen1 & Hget1).
    { apply Forall_forall. intros k Hin.
      apply list_elem_of_fmap in Hin as ([k' c] & -> & Hin).
      apply elem_of_map_to_list in Hin. apply Hbow. simpl. eauto. }
    simpl.
    destruct (IH df1) as (df' & Hfold & Hlen & Hget).
    { now rewrite Hlen1. }
    exists df'. split; [assumption|]. split; [congruence|].
    intros w c Hw Hc.
    rewrite (Hget w _ Hw (Hget1 w c Hw Hc)). f_equal.
    rewrite bow_keys_count. unfold targets_containing. rewrite filter_cons.
    destruct (decide (is_Some (bow !! w))); simpl; lia.
Qed.

Lemma targets_containing_le (bows : list (gmap Z Z)) (w : Z) :
  targets_containing bows w <= length bows.
Proof. apply length_filter. Qed.

Lemma document_frequency_spec (V : Z) (bows : list (gmap Z Z)) :
  (0 <= V)%Z ->
  Forall (word_ids_in_range V) bows ->
  exists df, document_frequency V bows = Ok df /\
    length df = Z.to_nat V /\
    forall w, (0 <= w < V)%Z ->
      df !! Z.to_nat w = Some (Z.of_nat (targets_containing bows w)).
Proof.
  intros HV Hr. unfold document_frequency, np_zeros.
  destruct (Z.ltb_spec V 0); [lia|]. simpl.
  destruct (foldE_bows bows (replicate (Z.to_nat V) 0%Z)) as (df & Hfold & Hlen & Hget).
  { rewrite length_replicate, Z2Nat.id by assumption. assumption. }
  exists df. split; [assumption|]. rewrite length_replicate in Hlen.
  split; [assumption|].
  intros w Hw. rewrite (Hget w 0%Z); [f_equal; lia | lia |].
  apply lookup_replicate_2. lia.
Qed.

Lemma idf_weight_nonneg (N : nat) (df : Z) :
  (0 <= df <= Z.of_nat N)%Z -> (0 <= idf_weight N df)%R.
Proof.
  intros [H0 HN]. unfold idf_weight.
  apply IZR_le in H0, HN. rewrite <- INR_IZR_INZ in HN.
  rewrite <- ln_1.
  destruct (Req_dec (IZR df) (INR N)) as [->|Hne].
  - right. f_equal. field. lra.
  - left. apply ln_increasing; [lra|].
    apply Rmult_lt_reg_r with (IZR df + 1)%R; [lra|].
    unfold Rdiv. rewrite Rmult_assoc, Rinv_l by lra. lra.
Qed.

Lemma idf_weight_zero (N : nat) (df : Z) :
  (0 <= df <= Z.of_nat N)%Z -> (idf_weight N df = 0%R <-> df = Z.of_nat N).
Proof.
  intros [H0 HN]. unfold idf_weight. split.
  - intros Hln. rewrite <- ln_1 in Hln.
    assert (Hpos : (0 < IZR df + 1)%R) by (apply IZR_le in H0; lra).
    assert (HposN : (0 < INR N + 1)%R) by (pose proof (pos_INR N); lra).
    apply ln_inv in Hln; [|apply Rdiv_lt_0_compat; assumption | lra].
    assert (INR N = IZR df).
    { apply Rmult_eq_compat_r with (r := (IZR df + 1)%R) in Hln.
      unfold Rdiv in Hln. rewrite Rmult_assoc, Rinv_l in Hln by lra. lra. }
    rewrite INR_IZR_INZ in H. apply eq_IZR in H. lia.
  - intros ->. rewrite <- INR_IZR_INZ. rewrite <- ln_1. f_equal. field.
    pose proof (pos_INR N). lra.
Qed.


Lemma foldE_tfidf_step (ws : option (list R)) (num : Z) (l : list (Z * Z)) :
  forall acc : gmap Z R,
  num <> 0%Z ->
  (forall w c, (w, c) ∈ l -> exists x, idf_lookup ws w = Ok x) ->
  exists r, foldE (tfidf_step ws num) acc l = Ok r /\
    (forall w, w ∉ map fst l -> r !! w = acc !! w) /\
    (NoDup (map fst l) -> forall w c, (w, c) ∈ l ->
       exists x, idf_lookup ws w = Ok x /\ r !! w = Some (IZR c / IZR num * x)%R).
Proof.
  induction l as [|[w0 c0] l IH]; intros acc Hnum Hidf; simpl.
  - exists acc. repeat split. intros _ w c Hin. inversion Hin.
  - unfold int_truediv. destruct (Z.eqb_spec num 0) as [|_]; [contradiction|]. simpl.
    destruct (Hidf w0 c0) as [x0 Hx0]; [constructor|]. rewrite Hx0. simpl.
    destruct (IH (<[w0 := (IZR c0 / IZR num * x0)%R]> acc) Hnum) as (r & Hr & Hout & Hin).
    { intros w c Hwc. apply (Hidf w c). now constructor. }
    exists r. split; [assumption|]. split.
    + intros w Hw. rewrite Hout.
      * apply lookup_insert_ne. intros ->. apply Hw. constructor.
      * intros Hw'. apply Hw. now constructor.
    + intros Hnd w c Hwc. inversion Hnd as [|? ? Hw0 Hnd']; subst.
      apply elem_of_cons in Hwc as [[= -> ->]|Hwc].
      * exists x0. split; [assumption|].
        rewrite Hout by assumption. apply lookup_insert_eq.
      * now apply Hin.
Qed.

Lemma compute_tfidf_vector_spec (ws : option (list R)) (bow : gmap Z Z) (num : Z) :
  num <> 0%Z ->
  (forall w c, bow !! w = Some c -> exists x, idf_lookup ws w = Ok x) ->
  exists tfidf, compute_tfidf_vector ws bow num = Ok tfidf /\
    (forall w c, bow !! w = Some c ->
       exists x, idf_lookup ws w = Ok x /\ tfidf !! w = Some (IZR c / IZR num * x)%R) /\
    (forall w, bow !! w = None -> tfidf !! w = None).
Proof.
  intros Hnum Hidf. unfold compute_tfidf_vector.
  destruct (foldE_tfidf_step ws num (map_to_list bow) ∅ Hnum) as (r & Hr & Hout & Hin).
  { intros w c Hwc. apply (Hidf w c). now apply elem_of_map_to_list. }
  exists r. split; [assumption|]. split.
  - intros w c Hwc. apply Hin; [apply NoDup_fst_map_to_list|].
    now apply elem_of_map_to_list.
  - intros w Hw. rewrite Hout; [apply lookup_empty|].
    intros Hin'. apply list_elem_of_fmap in Hin' as ([w' c] & -> & Hin').
    apply elem_of_map_to_list in Hin'. simpl in Hw. congruence.
Qed.

Lemma histogram_sum_insert (bow : gmap Z Z) (w c : Z) :
  bow !! w = None -> histogram_sum (<[w := c]> bow) = (c + histogram_sum bow)%Z.
Proof.
  intros Hw. unfold histogram_sum.
  apply (map_fold_insert_L (fun _ count acc => (count + acc)%Z)); [|assumption].
  intros. lia.
Qed.

Lemma histogram_sum_bow_add (bow : gmap Z Z) (w : Z) :
  histogram_sum (bow_add bow w) = (histogram_sum bow + 1)%Z.
Proof.
  unfold bow_add. destruct (bow !! w) as [c|] eqn:Hw; simpl.
  - rewrite <- (insert_delete_id bow w c) at 2 by assumption.
    rewrite <- insert_delete_eq.
    rewrite !histogram_sum_insert by apply lookup_delete_eq. lia.
  - rewrite histogram_sum_insert by assumption. lia.
Qed.

Lemma descriptors_to_bow_sum (vocabulary : option (list Descriptor))
  (descriptors : list Descriptor) (bow : gmap Z Z) :
  descriptors_to_bow vocabulary descriptors = Ok bow ->
  histogram_sum bow = Z.of_nat (length descriptors).
Proof.
  unfold descriptors_to_bow.
  assert (H : forall bow0 : gmap Z Z,
    foldE (fun bow desc =>
             match vocabulary with
             | None => Raise TypeError
             | Some voc => let! word_id <- quantize_descriptor desc voc ; Ok (bow_add bow word_id)
             end) bow0 descriptors = Ok bow ->
    histogram_sum bow = (histogram_sum bow0 + Z.of_nat (length descriptors))%Z).
  { induction descriptors as [|d ds IH]; intros bow0; simpl.
    - intros [= <-]. lia.
    - destruct vocabulary as [voc|]; [|discriminate].
      destruct (quantize_descriptor d voc) as [w|e]; simpl; [|discriminate].
      intros Hfold. rewrite (IH _ Hfold), histogram_sum_bow_add. lia. }
  intros Hb. rewrite (H ∅ Hb). unfold histogram_sum. rewrite map_fold_empty. lia.
Qed.


(** C1, refuted as stated: on histograms whose word-ids lie in the
    vocabulary, no IDF weight is negative, since [df[w] <= N]. *)
Lemma idf_weight_never_negative :
  ~ exists (V : Z) (bows : list (gmap Z Z)) (idf : list R) (w : nat) (x : R),
      (0 <= V)%Z /\ Forall (word_ids_in_range V) bows /\
      compute_idf V bows = Ok idf /\ idf !! w = Some x /\ (x < 0)%R.
Proof.
  intros (V & bows & idf & w & x & HV & Hr & Hidf & Hw & Hx).
  unfold compute_idf in Hidf.
  destruct (document_frequency_spec V bows HV Hr) as (df & Hdf & Hlen & Hget).
  rewrite Hdf in Hidf. simpl in Hidf. injection Hidf as <-.
  rewrite list_lookup_fmap in Hw.
  destruct (df !! w) as [d|] eqn:Hd; [|discriminate]. injection Hw as <-.
  assert (Hwlt : w < length df) by (eapply lookup_lt_Some; eauto).
  specialize (Hget (Z.of_nat w)). rewrite Nat2Z.id in Hget.
  rewrite Hget in Hd by lia. injection Hd as <-.
  pose proof (targets_containing_le bows (Z.of_nat w)).
  assert (0 <= idf_weight (length bows) (Z.of_nat (targets_containing bows (Z.of_nat w))))%R
    by (apply idf_weight_nonneg; lia).
  lra.
Qed.

(** C1, amended. On [N] histograms whose word-ids lie in
    [[0, vocabulary_size)], [df[w]] is the number of histograms whose key
    set contains [w], so [0 <= df[w] <= N]; the stored weight is
    [ln((N+1)/(df[w]+1))], computed without clamping, and it is never
    negative: it is 0 exactly when [df[w] = N]. *)
Theorem compute_idf_document_frequency (V : Z) (bows : list (gmap Z Z)) :
  (0 <= V)%Z ->
  Forall (word_ids_in_range V) bows ->
  exists (df : list Z) (idf : list R),
    document_frequency V bows = Ok df /\
    compute_idf V bows = Ok idf /\
    length df = Z.to_nat V /\
    length idf = Z.to_nat V /\
    forall w : Z, (0 <= w < V)%Z ->
      exists (d : Z) (x : R),
        df !! Z.to_nat w = Some d /\
        d = Z.of_nat (targets_containing bows w) /\
        (0 <= d <= Z.of_nat (length bows))%Z /\
        idf !! Z.to_nat w = Some x /\
        x = ln ((INR (length bows) + 1) / (IZR d + 1)) /\
        (0 <= x)%R /\
        (x = 0%R <-> d = Z.of_nat (length bows)).
Proof.
  intros HV Hr.
  destruct (document_frequency_spec V bows HV Hr) as (df & Hdf & Hlen & Hget).
  exists df, (map (idf_weight (length bows)) df).
  split; [assumption|]. split; [unfold compute_idf; now rewrite Hdf|].
  split; [assumption|]. split; [now rewrite length_map|].
  intros w Hw. pose proof (targets_containing_le bows w) as Hle.
  exists (Z.of_nat (targets_containing bows w)),
         (idf_weight (length bows) (Z.of_nat (targets_containing bows w))).
  split; [now apply Hget|]. split; [reflexivity|]. split; [lia|].
  split; [rewrite list_lookup_fmap, (Hget w Hw); reflexivity|].
  split; [reflexivity|].
  split; [apply idf_weight_nonneg; lia | apply idf_weight_zero; lia].
Qed.

Lemma compute_idf_document_frequency_witness :
  exists (df : list Z) (idf : list R),
    document_frequency 4 [{[2%Z := 5%Z]}; {[2%Z := 1%Z; 0%Z := 3%Z]}; {[2%Z := 2%Z]}] = Ok df /\
    compute_idf 4 [{[2%Z := 5%Z]}; {[2%Z := 1%Z; 0%Z := 3%Z]}; {[2%Z := 2%Z]}] = Ok idf /\
    length df = Z.to_nat 4 /\
    length idf = Z.to_nat 4 /\
    forall w : Z, (0 <= w < 4)%Z ->
      exists (d : Z) (x : R),
        df !! Z.to_nat w = Some d /\
        d = Z.of_nat (targets_containing
              [{[2%Z := 5%Z]}; {[2%Z := 1%Z; 0%Z := 3%Z]}; {[2%Z := 2%Z]}] w) /\
        (0 <= d <= Z.of_nat 3)%Z /\
        idf !! Z.to_nat w = Some x /\
        x = ln ((INR 3 + 1) / (IZR d + 1)) /\
        (0 <= x)%R /\
        (x = 0%R <-> d = Z.of_nat 3).
Proof.
  apply (compute_idf_document_frequency 4
           [{[2%Z := 5%Z]}; {[2%Z := 1%Z; 0%Z := 3%Z]}; {[2%Z := 2%Z]}]).
  - lia.
  - repeat (apply List.Forall_cons; [intros w [c Hc]|]); [| | |apply List.Forall_nil].
    + apply lookup_singleton_Some in Hc as [<- _]. lia.
    + apply lookup_insert_Some in Hc as [[<- _]|[_ Hc]]; [lia|].
      apply lookup_singleton_Some in Hc as [<- _]. lia.
    + apply lookup_singleton_Some in Hc as [<- _]. lia.
Defined.


(** C6, refuted as stated: a word that occurs in the only target has a
    non-zero count and the TF-IDF weight 0. *)
Lemma tfidf_support_smaller_than_histogram :
  exists (idf : list R) (tfidf : gmap Z R),
    compute_idf 1 [{[0%Z := 1%Z]}] = Ok idf /\
    compute_tfidf_vector (Some idf) {[0%Z := 1%Z]} 1 = Ok tfidf /\
    ({[0%Z := 1%Z]} : gmap Z Z) !! 0%Z = Some 1%Z /\
    tfidf !! 0%Z = Some 0%R.
Proof.
  assert (Hdf : document_frequency 1 [{[0%Z := 1%Z]}] = Ok [1%Z]) by (vm_compute; reflexivity).
  assert (Hzero : idf_weight 1 1 = 0%R) by (apply (idf_weight_zero 1 1); simpl; lia).
  exists [0%R], {[0%Z := (IZR 1 / IZR 1 * 0)%R]}.
  split; [unfold compute_idf; rewrite Hdf; simpl; now rewrite Hzero|].
  split.
  - unfold compute_tfidf_vector. rewrite map_to_list_singleton. simpl.
    now rewrite insert_empty.
  - split; [apply lookup_singleton_eq|].
    rewrite lookup_singleton_eq. f_equal. lra.
Qed.

(** C6, amended. The TF-IDF vector has exactly the key set of the
    histogram, and a word has a non-zero weight exactly when its count and
    its IDF weight are both non-zero. *)
Theorem tfidf_same_keys (ws : option (list R)) (bow : gmap Z Z) (num : Z) :
  num <> 0%Z ->
  (forall w c, bow !! w = Some c -> exists x, idf_lookup ws w = Ok x) ->
  exists tfidf : gmap Z R,
    compute_tfidf_vector ws bow num = Ok tfidf /\
    dom tfidf = dom bow /\
    forall w : Z,
      (exists x : R, tfidf !! w = Some x /\ x <> 0%R) <->
      (exists (c : Z) (idf : R),
         bow !! w = Some c /\ c <> 0%Z /\ idf_lookup ws w = Ok idf /\ idf <> 0%R).
Proof.
  intros Hnum Hidf.
  destruct (compute_tfidf_vector_spec ws bow num Hnum Hidf) as (tfidf & Ht & Hin & Hout).
  exists tfidf. split; [assumption|]. split.
  - apply set_eq. intros w. rewrite !elem_of_dom. split.
    + intros [x Hx]. destruct (bow !! w) as [c|] eqn:Hw; [eauto|].
      rewrite (Hout w Hw) in Hx. discriminate.
    + intros [c Hc]. destruct (Hin w c Hc) as (x & _ & Hx). eauto.
  - intros w. split.
    + intros (x & Hx & Hne). destruct (bow !! w) as [c|] eqn:Hw.
      * destruct (Hin w c Hw) as (i & Hi & Hx'). rewrite Hx in Hx'. injection Hx' as ->.
        exists c, i. split; [reflexivity|]. split.
        -- intros ->. apply Hne. unfold Rdiv. lra.
        -- split; [assumption|]. intros ->. apply Hne. lra.
      * rewrite (Hout w Hw) in Hx. discriminate.
    + intros (c & i & Hc & Hcne & Hi & Hine).
      destruct (Hin w c Hc) as (i' & Hi' & Hx). rewrite Hi in Hi'. injection Hi' as <-.
      eexists. split; [exact Hx|].
      apply Rmult_integral_contrapositive_currified; [|assumption].
      unfold Rdiv. apply Rmult_integral_contrapositive_currified.
      * now apply not_0_IZR.
      * apply Rinv_neq_0_compat. now apply not_0_IZR.
Qed.

Lemma tfidf_same_keys_witness :
  exists tfidf : gmap Z R,
    compute_tfidf_vector (Some [2%R; 0%R]) {[0%Z := 3%Z; 1%Z := 1%Z]} 4 = Ok tfidf /\
    dom tfidf = dom ({[0%Z := 3%Z; 1%Z := 1%Z]} : gmap Z Z) /\
    forall w : Z,
      (exists x : R, tfidf !! w = Some x /\ x <> 0%R) <->
      (exists (c : Z) (idf : R),
         ({[0%Z := 3%Z; 1%Z := 1%Z]} : gmap Z Z) !! w = Some c /\ c <> 0%Z /\
         idf_lookup (Some [2%R; 0%R]) w = Ok idf /\ idf <> 0%R).
Proof.
  apply tfidf_same_keys.
  - lia.
  - intros w c Hc.
    apply lookup_insert_Some in Hc as [[<- _]|[_ Hc]]; [eexists; reflexivity|].
    apply lookup_singleton_Some in Hc as [<- _]. eexists; reflexivity.
Defined.

(** [df[word_id] += 1] with a negative word-id counts from the end of the
    array, so a histogram with such a key is outside the specification. *)
Example negative_word_id_wraps :
  document_frequency 1 [{[0%Z := 1%Z; (-1)%Z := 1%Z]}] = Ok [2%Z] /\
  document_frequency 1 [{[1%Z := 1%Z]}] = Raise IndexError.
Proof. split; vm_compute; reflexivity. Qed.

End Weighting.

(** ** Feature budgeter *)

Section Budgeter.

Lemma insert_sorted_perm (key : nat -> Q) (i : nat) (l : list nat) :
  Permutation (insert_sorted key i l) (i :: l).
Proof.
  induction l as [|j t IH]; simpl; [reflexivity|].
  destruct (Qle_bool (key i) (key j)); [reflexivity|].
  rewrite IH. apply perm_swap.
Qed.

Lemma np_argsort_perm (a : list Q) : Permutation (np_argsort a) (seq 0 (length a)).
Proof.
  unfold np_argsort. generalize (seq 0 (length a)) as l.
  induction l as [|i l IH]; simpl; [reflexivity|].
  rewrite insert_sorted_perm. now constructor.
Qed.

Lemma insert_sorted_sorted (key : nat -> Q) (i : nat) (l : list nat) :
  StronglySorted (fun a b => (key a <= key b)%Q) l ->
  StronglySorted (fun a b => (key a <= key b)%Q) (insert_sorted key i l).
Proof.
  induction 1 as [|j t Ht IH Hj]; simpl.
  - repeat constructor.
  - destruct (Qle_bool (key i) (key j)) eqn:Hle.
    + apply Qle_bool_iff in Hle.
      constructor; [now constructor|].
      constructor; [assumption|].
      eapply Forall_impl; [exact Hj|]. intros k Hk. simpl in Hk.
      now apply Qle_trans with (key j).
    + assert (Hji : (key j <= key i)%Q).
      { apply Qlt_le_weak, Qnot_le_lt. intros Hc.
        apply Qle_bool_iff in Hc. congruence. }
      constructor; [assumption|].
      rewrite (insert_sorted_perm key i t). now constructor.
Qed.

Lemma np_argsort_sorted (a : list Q) :
  StronglySorted (fun i j => (nth i a 0 <= nth j a 0)%Q) (np_argsort a).
Proof.
  unfold np_argsort. generalize (seq 0 (length a)) as l.
  induction l as [|i l IH]; simpl; [constructor|].
  now apply insert_sorted_sorted.
Qed.

Lemma sorted_by_response_perm (kps : list KeyPoint) :
  Permutation (sorted_by_response kps) (seq 0 (length kps)).
Proof.
  unfold sorted_by_response. rewrite np_argsort_perm, length_map. reflexivity.
Qed.

Lemma sorted_by_response_NoDup (kps : list KeyPoint) : NoDup (sorted_by_response kps).
Proof. rewrite sorted_by_response_perm. apply NoDup_seq. Qed.

Lemma sorted_by_response_lt (kps : list KeyPoint) (idx : nat) :
  idx ∈ sorted_by_response kps <-> idx < length kps.
Proof.
  rewrite sorted_by_response_perm, elem_of_seq. lia.
Qed.

Lemma sorted_by_response_length (kps : list KeyPoint) :
  length (sorted_by_response kps) = length kps.
Proof. rewrite sorted_by_response_perm. apply length_seq. Qed.


Lemma py_truediv_pos (x y : Q) : (0 < y)%Q -> py_truediv x y = Ok (x / y)%Q.
Proof.
  intros Hy. unfold py_truediv.
  destruct (Qeq_bool y 0) eqn:E; [|reflexivity].
  apply Qeq_bool_iff in E. rewrite E in Hy. now apply Qlt_irrefl in Hy.
Qed.

Lemma py_int_nonneg (q : Q) : (0 <= q)%Q -> (0 <= py_int q)%Z.
Proof.
  intros Hq. unfold py_int. apply Z.quot_pos; [|lia].
  unfold Qle in Hq. simpl in Hq. lia.
Qed.

Lemma Qdiv_nonneg (x y : Q) : (0 <= x)%Q -> (0 < y)%Q -> (0 <= x / y)%Q.
Proof.
  intros Hx Hy. unfold Qdiv. apply Qmult_le_0_compat; [assumption|].
  apply Qinv_le_0_compat. now apply Qlt_le_weak.
Qed.

Lemma cell_size_pos (n : Z) : (0 < n)%Z -> (0 < inject_Z n / inject_Z grid_size)%Q.
Proof.
  intros Hn. unfold Qdiv. apply Qmult_lt_0_compat.
  - unfold Qlt. simpl. lia.
  - reflexivity.
Qed.

Lemma grid_cell_ok (cell_h cell_w : Q) (kp : KeyPoint) :
  (0 < cell_h)%Q -> (0 < cell_w)%Q ->
  (0 <= fst (kp_pt kp))%Q -> (0 <= snd (kp_pt kp))%Q ->
  exists cy cx : Z,
    grid_cell cell_h cell_w kp = Ok (cy, cx) /\
    (0 <= cy <= 3)%Z /\ (0 <= cx <= 3)%Z /\
    cell_of cell_h cell_w kp = (4 * Z.to_nat cy + Z.to_nat cx)%nat.
Proof.
  intros Hh Hw Hx Hy. unfold grid_cell, cell_of.
  destruct (kp_pt kp) as [x y]. simpl in Hx, Hy.
  rewrite !py_truediv_pos by assumption. simpl.
  pose proof (py_int_nonneg (x / cell_w) (Qdiv_nonneg x cell_w Hx Hw)).
  pose proof (py_int_nonneg (y / cell_h) (Qdiv_nonneg y cell_h Hy Hh)).
  eexists _, _. split; [reflexivity|]. unfold grid_size.
  change (4 - 1)%Z with 3%Z. repeat split; lia.
Qed.

Lemma cell_count_snoc (cell : nat -> nat) (c idx : nat) (selected : list nat) :
  cell_count cell c (selected ++ [idx])
  = (cell_count cell c selected + if decide (cell idx = c) then 1 else 0)%nat.
Proof.
  unfold cell_count. rewrite filter_app, length_app. f_equal.
  rewrite filter_cons, filter_nil. destruct (decide (cell idx = c)); reflexivity.
Qed.

Lemma grid_get_ok (cell : nat -> nat) (selected cell_counts : list nat) (cy cx : Z) :
  counts_of cell selected cell_counts ->
  (0 <= cy <= 3)%Z -> (0 <= cx <= 3)%Z ->
  grid_get cell_counts cy cx
  = Ok (cell_count cell (4 * Z.to_nat cy + Z.to_nat cx) selected).
Proof.
  intros [Hlen Hc] Hy Hx. unfold grid_get.
  rewrite !np_index_in_range by lia. cbn [bind]. unfold list_getitem.
  rewrite Hc by lia. reflexivity.
Qed.

Lemma grid_incr_ok (cell : nat -> nat) (selected cell_counts : list nat) (cy cx : Z) (idx : nat) :
  counts_of cell selected cell_counts ->
  (0 <= cy <= 3)%Z -> (0 <= cx <= 3)%Z ->
  cell idx = (4 * Z.to_nat cy + Z.to_nat cx)%nat ->
  exists cell_counts',
    grid_incr cell_counts cy cx = Ok cell_counts' /\
    counts_of cell (selected ++ [idx]) cell_counts'.
Proof.
  intros [Hlen Hc] Hy Hx Hcell. unfold grid_incr.
  rewrite !np_index_in_range by lia. cbn [bind]. unfold list_getitem.
  rewrite Hc by lia. cbn [bind]. eexists. split; [reflexivity|].
  split; [now rewrite length_insert|].
  intros c Hlt. rewrite cell_count_snoc, Hcell.
  destruct (decide ((4 * Z.to_nat cy + Z.to_nat cx)%nat = c)) as [Heq|Hne].
  - rewrite <- Heq. rewrite list_lookup_insert_eq by lia. f_equal. lia.
  - rewrite list_lookup_insert_ne by assumption. rewrite Hc by assumption.
    f_equal. lia.
Qed.

(** The first pass of the code is the quota walk of the specification. *)
Lemma first_pass_quota_walk (kps : list KeyPoint) (cell_h cell_w : Q) (q M : nat)
  (cell : nat -> nat) (sorted : list nat) :
  (0 < cell_h)%Q -> (0 < cell_w)%Q ->
  Forall (fun kp => (0 <= fst (kp_pt kp))%Q /\ (0 <= snd (kp_pt kp))%Q) kps ->
  (forall idx kp, kps !! idx = Some kp -> cell idx = cell_of cell_h cell_w kp) ->
  Forall (fun idx => idx < length kps) sorted ->
  forall selected cell_counts,
    counts_of cell selected cell_counts ->
    exists cell_counts',
      first_pass kps cell_h cell_w q M sorted selected cell_counts
      = Ok (quota_walk cell q M sorted selected, cell_counts') /\
      counts_of cell (quota_walk cell q M sorted selected) cell_counts'.
Proof.
  intros Hh Hw Hkps Hcell Hsorted.
  induction Hsorted as [|idx rest Hidx Hrest IH]; intros selected cell_counts Hcc.
  - simpl. eauto.
  - destruct (lookup_lt_is_Some_2 kps idx Hidx) as [kp Hkp].
    rewrite Forall_forall in Hkps.
    destruct (Hkps kp) as [Hx Hy]; [eapply list_elem_of_lookup_2; eauto|].
    destruct (grid_cell_ok cell_h cell_w kp Hh Hw Hx Hy) as (cy & cx & Hgc & Hcy & Hcx & Hco).
    assert (Hci : cell idx = (4 * Z.to_nat cy + Z.to_nat cx)%nat).
    { rewrite (Hcell idx kp Hkp). exact Hco. }
    cbn [first_pass quota_walk].
    unfold list_getitem at 1. rewrite Hkp. cbn [bind].
    rewrite Hgc. cbn [bind].
    rewrite (grid_get_ok cell selected) by assumption. cbn [bind].
    rewrite <- Hci.
    destruct (cell_count cell (cell idx) selected <? q)%nat.
    + destruct (grid_incr_ok cell selected cell_counts cy cx idx Hcc Hcy Hcx Hci)
        as (cc' & -> & Hcc').
      cbn [bind].
      destruct (M <=? length (selected ++ [idx]))%nat; [eauto|].
      now apply IH.
    + now apply IH.
Qed.


Lemma quota_walk_app (cell : nat -> nat) (q M : nat) (sorted : list nat) :
  forall selected, exists admitted,
    quota_walk cell q M sorted selected = selected ++ admitted /\
    sublist admitted sorted.
Proof.
  induction sorted as [|idx rest IH]; intros selected; simpl.
  - exists []. split; [now rewrite app_nil_r | constructor].
  - destruct (cell_count cell (cell idx) selected <? q)%nat.
    + destruct (M <=? length (selected ++ [idx]))%nat.
      * exists [idx]. split; [reflexivity|]. apply sublist_skip, sublist_nil_l.
      * destruct (IH (selected ++ [idx])) as (adm & -> & Hsub).
        exists (idx :: adm). split; [now rewrite <- app_assoc|]. now apply sublist_skip.
    + destruct (IH selected) as (adm & -> & Hsub).
      exists adm. split; [reflexivity|]. now apply sublist_cons.
Qed.

Lemma cell_count_app_le (cell : nat -> nat) (c : nat) (selected admitted : list nat) :
  cell_count cell c selected <= cell_count cell c (selected ++ admitted).
Proof. unfold cell_count. rewrite filter_app, length_app. lia. Qed.

Lemma quota_walk_quota (cell : nat -> nat) (q M : nat) (sorted : list nat) :
  forall selected,
    (forall c, cell_count cell c selected <= q) ->
    forall c, cell_count cell c (quota_walk cell q M sorted selected) <= q.
Proof.
  induction sorted as [|idx rest IH]; intros selected Hq; simpl; [assumption|].
  destruct (cell_count cell (cell idx) selected <? q)%nat eqn:Hlt.
  - apply Nat.ltb_lt in Hlt.
    assert (Hq' : forall c, cell_count cell c (selected ++ [idx]) <= q).
    { intros c. rewrite cell_count_snoc. specialize (Hq c).
      destruct (decide (cell idx = c)) as [<-|]; lia. }
    destruct (M <=? length (selected ++ [idx]))%nat; [assumption | now apply IH].
  - now apply IH.
Qed.

Lemma quota_walk_budget (cell : nat -> nat) (q M : nat) (sorted : list nat) :
  forall selected,
    length selected < M -> length (quota_walk cell q M sorted selected) <= M.
Proof.
  induction sorted as [|idx rest IH]; intros selected Hlen; simpl; [lia|].
  destruct (cell_count cell (cell idx) selected <? q)%nat.
  - destruct (M <=? length (selected ++ [idx]))%nat eqn:HM.
    + rewrite length_app. simpl. lia.
    + apply Nat.leb_gt in HM. now apply IH.
  - now apply IH.
Qed.

(** When the walk ends below the budget it has seen every position, and a
    position it did not admit lies in a cell that is full. *)
Lemma quota_walk_exhausts (cell : nat -> nat) (q M : nat) (sorted : list nat) :
  forall selected,
    (forall c, cell_count cell c selected <= q) ->
    length (quota_walk cell q M sorted selected) < M ->
    forall idx, idx ∈ sorted ->
      idx ∈ quota_walk cell q M sorted selected \/
      cell_count cell (cell idx) (quota_walk cell q M sorted selected) = q.
Proof.
  induction sorted as [|i rest IH]; intros selected Hq Hlen idx Hin.
  - inversion Hin.
  - pose proof (quota_walk_quota cell q M (i :: rest) selected Hq) as Hfinal.
    simpl in *.
    destruct (cell_count cell (cell i) selected <? q)%nat eqn:Hlt.
    + apply Nat.ltb_lt in Hlt.
      assert (Hq' : forall c, cell_count cell c (selected ++ [i]) <= q).
      { intros c. rewrite cell_count_snoc. specialize (Hq c).
        destruct (decide (cell i = c)) as [<-|]; lia. }
      destruct (M <=? length (selected ++ [i]))%nat eqn:HM.
      * apply Nat.leb_le in HM. lia.
      * apply elem_of_cons in Hin as [->|Hin]; [|now apply IH].
        left. destruct (quota_walk_app cell q M rest (selected ++ [i])) as (adm & -> & _).
        rewrite !elem_of_app, list_elem_of_singleton. auto.
    + apply Nat.ltb_ge in Hlt.
      apply elem_of_cons in Hin as [->|Hin]; [|now apply IH].
      right. specialize (Hfinal (cell i)).
      destruct (quota_walk_app cell q M rest selected) as (adm & Heq & _).
      rewrite Heq in *.
      pose proof (cell_count_app_le cell (cell i) selected adm). lia.
Qed.

Lemma filter_not_in_snoc (rest selected : list nat) (idx : nat) :
  idx ∉ rest ->
  filter (fun i => i ∉ selected ++ [idx]) rest = filter (fun i => i ∉ selected) rest.
Proof.
  induction rest as [|i rest IH]; intros Hidx; [reflexivity|].
  apply not_elem_of_cons in Hidx as [Hne Hidx].
  rewrite !filter_cons, IH by assumption.
  destruct (decide (i ∉ selected ++ [idx])) as [H1|H1],
           (decide (i ∉ selected)) as [H2|H2]; try reflexivity; exfalso.
  - apply H2. intros Hin. apply H1. apply elem_of_app. now left.
  - apply H1. rewrite elem_of_app, list_elem_of_singleton. intros [?|?]; auto.
Qed.

Lemma filter_split_length (selected sorted : list nat) :
  (length (filter (fun i => i ∈ selected) sorted)
   + length (filter (fun i => i ∉ selected) sorted) = length sorted)%nat.
Proof.
  induction sorted as [|i rest IH]; [reflexivity|].
  rewrite !filter_cons.
  destruct (decide (i ∈ selected)), (decide (i ∉ selected));
    try contradiction; simpl; lia.
Qed.

(** The second pass appends the strongest positions not selected yet until
    the budget is reached. *)
Lemma second_pass_fill (M : nat) (sorted : list nat) :
  forall selected,
    NoDup sorted -> length selected < M ->
    second_pass M sorted selected
    = selected ++ take (M - length selected) (filter (fun i => i ∉ selected) sorted).
Proof.
  induction sorted as [|idx rest IH]; intros selected Hnd Hlen; simpl.
  - rewrite filter_nil, take_nil, app_nil_r. reflexivity.
  - inversion Hnd as [|? ? Hidx Hnd']; subst.
    rewrite filter_cons.
    destruct (decide (idx ∈ selected)) as [Hin|Hin].
    + rewrite bool_decide_eq_true_2 by assumption.
      destruct (decide (idx ∉ selected)); [contradiction|]. now apply IH.
    + rewrite bool_decide_eq_false_2 by assumption.
      destruct (decide (idx ∉ selected)); [|contradiction].
      destruct (M - length selected) as [|m] eqn:Hm; [lia|]. simpl.
      destruct (M <=? length (selected ++ [idx]))%nat eqn:HM.
      * apply Nat.leb_le in HM. rewrite length_app in HM. simpl in HM.
        assert (m = 0) by lia. subst m. now rewrite take_0.
      * apply Nat.leb_gt in HM. rewrite IH by assumption.
        rewrite filter_not_in_snoc by assumption.
        rewrite length_app in *. simpl in *.
        replace (M - (length selected + 1)) with m by lia.
        now rewrite <- app_assoc.
Qed.

Lemma filter_not_in_length (sorted selected : list nat) :
  NoDup sorted -> NoDup selected -> selected ⊆ sorted ->
  length (filter (fun i => i ∉ selected) sorted) = length sorted - length selected.
Proof.
  intros Hs Hsel Hsub.
  assert (Hperm : Permutation (filter (fun i => i ∈ selected) sorted) selected).
  { apply NoDup_Permutation; [now apply NoDup_filter | assumption|].
    intros i. rewrite list_elem_of_filter. split; [tauto|]. intros Hi. split; [assumption|].
    now apply Hsub. }
  pose proof (filter_split_length selected sorted) as Hlen.
  rewrite Hperm in Hlen. lia.
Qed.


Lemma mapE_getitem {A : Type} (l : list A) (selected : list nat) :
  Forall (fun idx => idx < length l) selected ->
  exists r, mapE (list_getitem l) selected = Ok r /\
    length r = length selected /\
    forall i idx, selected !! i = Some idx -> r !! i = l !! idx.
Proof.
  induction 1 as [|idx rest Hidx Hrest IH]; simpl.
  - exists []. repeat split. intros i idx Hi. inversion Hi.
  - destruct (lookup_lt_is_Some_2 l idx Hidx) as [x Hx].
    destruct IH as (r & -> & Hlen & Hget).
    unfold list_getitem at 1. rewrite Hx. simpl.
    exists (x :: r). split; [reflexivity|]. split; [simpl; lia|].
    intros [|i] idx' Hi; simpl in *.
    + injection Hi as <-. now rewrite Hx.
    + now apply Hget.
Qed.

Lemma np_take_getitem {A : Type} (l : list A) (selected : list nat) :
  selected <> [] ->
  Forall (fun idx => idx < length l) selected ->
  exists r, np_take l selected = Ok r /\
    length r = length selected /\
    forall i idx, selected !! i = Some idx -> r !! i = l !! idx.
Proof.
  intros Hne Hsel. unfold np_take.
  destruct selected; [congruence|]. now apply mapE_getitem.
Qed.

(** The value of [selected_indices] after the two passes. *)
Lemma select_indices_passes (M : nat) (kps : list KeyPoint) (image_shape : Z * Z) :
  (0 < fst image_shape)%Z -> (0 < snd image_shape)%Z ->
  Forall (fun kp => (0 <= fst (kp_pt kp))%Q /\ (0 <= snd (kp_pt kp))%Q) kps ->
  let sorted := sorted_by_response kps in
  let first := quota_walk (cell_at kps image_shape) (M / 16) M sorted [] in
  exists cell_counts,
    first_pass kps (inject_Z (fst image_shape) / inject_Z grid_size)
      (inject_Z (snd image_shape) / inject_Z grid_size) (M / 16) M sorted []
      (replicate 16 0%nat) = Ok (first, cell_counts) /\
    counts_of (cell_at kps image_shape) first cell_counts /\
    select_indices M kps image_shape
    = Ok (if (length first <? M)%nat then second_pass M sorted first else first).
Proof.
  intros Hh Hw Hkps sorted first. destruct image_shape as [h w]. simpl in Hh, Hw.
  destruct (first_pass_quota_walk kps (inject_Z h / inject_Z grid_size)
              (inject_Z w / inject_Z grid_size) (M / 16) M (cell_at kps (h, w)) sorted
              (cell_size_pos h Hh) (cell_size_pos w Hw) Hkps) with (selected := @nil nat)
              (cell_counts := replicate 16 0%nat)
    as (cc & Hfp & Hcc).
  - intros idx kp Hkp. unfold cell_at. now rewrite Hkp.
  - apply Forall_forall. intros idx Hidx. now apply sorted_by_response_lt.
  - split; [reflexivity|]. intros c Hc. rewrite lookup_replicate_2 by assumption. reflexivity.
  - exists cc. split; [exact Hfp|]. split; [exact Hcc|].
    unfold select_indices. fold sorted. simpl fst in Hfp. simpl snd in Hfp.
    rewrite Hfp. cbn [bind]. fold first.
    destruct (length first <? M)%nat; reflexivity.
Qed.

(** Facts about the selection, for a budget smaller than the input. *)
Lemma select_indices_facts (M : nat) (kps : list KeyPoint) (image_shape : Z * Z) :
  0 < M -> M < length kps ->
  let sorted := sorted_by_response kps in
  let first := quota_walk (cell_at kps image_shape) (M / 16) M sorted [] in
  let selected := if (length first <? M)%nat then second_pass M sorted first else first in
  NoDup first /\ sublist first sorted /\ length first <= M /\
  NoDup selected /\ length selected = M /\
  Forall (fun idx => idx < length kps) selected /\
  (length first < M ->
   selected = first ++ take (M - length first) (filter (fun i => i ∉ first) sorted)).
Proof.
  intros HM Hn sorted first selected.
  pose proof (sorted_by_response_NoDup kps) as Hnd. fold sorted in Hnd.
  destruct (quota_walk_app (cell_at kps image_shape) (M / 16) M sorted []) as (adm & Hadm & Hsub).
  fold first in Hadm. simpl in Hadm. subst adm.
  assert (Hnd1 : NoDup first) by (eapply sublist_NoDup; [exact Hnd | exact Hsub]).
  assert (Hlen1 : length first <= M) by (apply quota_walk_budget; simpl; lia).
  assert (Hsubset : first ⊆ sorted).
  { now apply sublist_subseteq. }
  split; [assumption|]. split; [assumption|]. split; [assumption|].
  subst selected. destruct (length first <? M)%nat eqn:Hlt.
  - apply Nat.ltb_lt in Hlt. rewrite second_pass_fill by assumption.
    assert (Hfl : length (filter (fun i => i ∉ first) sorted) = length kps - length first).
    { rewrite filter_not_in_length by assumption.
      unfold sorted. now rewrite sorted_by_response_length. }
    split.
    { apply NoDup_app. split; [assumption|]. split.
      - intros i Hi Hi'. apply elem_of_take in Hi' as (j & Hj & _).
        apply list_elem_of_lookup_2 in Hj. apply list_elem_of_filter in Hj as [Hj _]. tauto.
      - apply (sublist_NoDup _ (filter (fun i => i ∉ first) sorted)).
        + now apply NoDup_filter.
        + apply sublist_take. }
    split.
    { rewrite length_app, length_take, Hfl. lia. }
    split; [|reflexivity].
    apply Forall_app. split.
    + apply Forall_forall. intros i Hi. apply sorted_by_response_lt. now apply Hsubset.
    + apply Forall_forall. intros i Hi. apply sorted_by_response_lt.
      apply elem_of_take in Hi as (j & Hj & _).
      apply list_elem_of_lookup_2 in Hj. now apply list_elem_of_filter in Hj as [_ Hj].
  - apply Nat.ltb_ge in Hlt. split; [assumption|]. split; [lia|].
    split; [|lia].
    apply Forall_forall. intros i Hi. apply sorted_by_response_lt. now apply Hsubset.
Qed.


Lemma sorted_by_response_descending (kps : list KeyPoint) :
  StronglySorted (fun i j => (response_at kps j <= response_at kps i)%Q)
    (sorted_by_response kps).
Proof.
  unfold sorted_by_response.
  assert (Hkey : forall i,
    (nth i (map (fun kp => (- kp_response kp)%Q) kps) 0 == - response_at kps i)%Q).
  { intros i. unfold response_at. revert i.
    induction kps as [|kp kps IH]; intros [|i]; simpl;
      [reflexivity | reflexivity | reflexivity | apply IH]. }
  pose proof (np_argsort_sorted (map (fun kp => (- kp_response kp)%Q) kps)) as Hs.
  induction Hs as [|i l Hl IH Hi]; constructor; [assumption|].
  eapply Forall_impl; [exact Hi|]. intros j Hj. simpl in Hj.
  rewrite !Hkey in Hj. apply Qopp_le_compat in Hj.
  rewrite !Qopp_involutive in Hj. exact Hj.
Qed.

Lemma select_best_features_fast (M : nat) (keypoints : list (Q * Q))
  (descriptors : list Descriptor) (kps : list KeyPoint) (image_shape : Z * Z) :
  length keypoints <= M ->
  _select_best_features M keypoints descriptors kps image_shape
  = ([], Ok (keypoints, descriptors, kps)).
Proof.
  intros Hle. unfold _select_best_features.
  now rewrite (proj2 (Nat.leb_le _ _) Hle).
Qed.

Lemma select_best_features_slow (M : nat) (keypoints : list (Q * Q))
  (descriptors : list Descriptor) (kps : list KeyPoint) (image_shape : Z * Z) :
  0 < M -> M < length keypoints ->
  detector_output keypoints descriptors kps image_shape ->
  exists selected ks ds kps',
    select_indices M kps image_shape = Ok selected /\
    _select_best_features M keypoints descriptors kps image_shape
    = ([ReducedFeatures (length keypoints) M], Ok (ks, ds, kps')) /\
    NoDup selected /\ Forall (fun idx => idx < length kps) selected /\
    length selected = M /\ length ks = M /\ length ds = M /\ length kps' = M /\
    forall i idx, selected !! i = Some idx ->
      ks !! i = keypoints !! idx /\ ds !! i = descriptors !! idx /\ kps' !! i = kps !! idx.
Proof.
  intros HM Hn (Hh & Hw & Hlk & Hld & Hkps). rewrite Hlk in Hn.
  destruct (select_indices_passes M kps image_shape Hh Hw Hkps) as (cc & _ & _ & Hsel).
  destruct (select_indices_facts M kps image_shape HM Hn)
    as (_ & _ & _ & Hnd & Hlen & Hlt & _).
  set (selected := if (length _ <? M)%nat then _ else _) in *.
  assert (Hne : selected <> []) by (intros E; rewrite E in Hlen; simpl in Hlen; lia).
  destruct (np_take_getitem keypoints selected Hne) as (ks & Hks & Hlks & Hgks).
  { now rewrite Hlk. }
  destruct (np_take_getitem descriptors selected Hne) as (ds & Hds & Hlds & Hgds).
  { now rewrite Hld. }
  destruct (mapE_getitem kps selected Hlt) as (kps' & Hkps' & Hlkps' & Hgkps').
  exists selected, ks, ds, kps'. split; [assumption|]. split.
  - unfold _select_best_features. rewrite Hlk.
    rewrite (proj2 (Nat.leb_gt _ _) Hn).
    rewrite Hsel. cbn [pbind lift]. rewrite Hks. cbn [pbind lift].
    rewrite Hds. cbn [pbind lift]. rewrite Hkps'. cbn [pbind lift print ret app].
    rewrite Hlks, Hlen. reflexivity.
  - split; [assumption|]. split; [assumption|].
    repeat split; try lia; [now apply Hgks | now apply Hgds | now apply Hgkps'].
Qed.


Lemma sample_detector_output :
  detector_output sample_keypoints sample_descriptors sample_kps sample_shape.
Proof.
  unfold detector_output. simpl.
  repeat split; try lia; try reflexivity.
  repeat (apply List.Forall_cons; [split; simpl; unfold Qle; simpl; lia|]).
  apply List.Forall_nil.
Defined.

Lemma lookup_subseteq {A : Type} (l r : list A) (selected : list nat) :
  length r = length selected ->
  (forall i idx, selected !! i = Some idx -> r !! i = l !! idx) ->
  r ⊆ l.
Proof.
  intros Hlen Hget x Hx. apply list_elem_of_lookup in Hx as [i Hi].
  destruct (lookup_lt_is_Some_2 selected i) as [idx Hidx].
  { rewrite <- Hlen. eapply lookup_lt_Some; eauto. }
  rewrite (Hget i idx Hidx) in Hi. eapply list_elem_of_lookup_2; eauto.
Qed.

Lemma omap_id_Some {A : Type} (l : list A) :
  omap (fun x : option A => x) (Some <$> l) = l.
Proof. induction l as [|x l IH]; [reflexivity|]. cbn. now rewrite IH. Qed.

(** Reading a list at distinct positions gives a sub-multiset of it: no
    element is taken more often than it occurs. *)
Lemma lookup_submseteq {A : Type} (l r : list A) (selected : list nat) :
  NoDup selected ->
  length r = length selected ->
  (forall i idx, selected !! i = Some idx -> r !! i = l !! idx) ->
  r ⊆+ l.
Proof.
  intros Hnd Hlen Hget.
  assert (Hlt : forall idx, idx ∈ selected -> idx < length l).
  { intros idx Hidx. apply list_elem_of_lookup in Hidx as [i Hi].
    destruct (lookup_lt_is_Some_2 r i) as [x Hx].
    { rewrite Hlen. eapply lookup_lt_Some; eauto. }
    rewrite (Hget i idx Hi) in Hx. eapply lookup_lt_Some; eauto. }
  assert (Hsub : selected ⊆+ seq 0 (length l)).
  { apply NoDup_submseteq; [assumption|]. intros idx Hidx.
    apply elem_of_seq. specialize (Hlt idx Hidx). lia. }
  assert (Hr : (fun idx => l !! idx) <$> selected = Some <$> r).
  { apply list_eq. intros i. rewrite !list_lookup_fmap.
    destruct (selected !! i) as [idx|] eqn:Hi; cbn.
    - rewrite <- (Hget i idx Hi).
      destruct (lookup_lt_is_Some_2 r i) as [x ->]; [|reflexivity].
      rewrite Hlen. eapply lookup_lt_Some; eauto.
    - apply lookup_ge_None in Hi. rewrite <- Hlen in Hi.
      apply lookup_ge_None in Hi. now rewrite Hi. }
  assert (Hl : (fun idx => l !! idx) <$> seq 0 (length l) = Some <$> l).
  { apply list_eq. intros i. rewrite !list_lookup_fmap.
    destruct (decide (i < length l)) as [Hi|Hi].
    - rewrite lookup_seq_lt by assumption. cbn.
      now destruct (lookup_lt_is_Some_2 l i Hi) as [x ->].
    - rewrite lookup_seq_ge by lia. cbn.
      assert (Hn : l !! i = None) by (apply lookup_ge_None; lia). now rewrite Hn. }
  apply (fmap_submseteq (fun idx => l !! idx)) in Hsub. rewrite Hr, Hl in Hsub.
  apply submseteq_Permutation in Hsub as [k Hk].
  apply (omap_Permutation (fun x : option A => x)) in Hk.
  rewrite omap_app, !omap_id_Some in Hk.
  transitivity (r ++ omap (fun x : option A => x) k).
  - now apply submseteq_inserts_r.
  - apply Permutation_submseteq. now symmetry.
Qed.

(** C2. The budgeter returns [min(input size, max_features_per_target)]
    features and they are a subset of the input: the features found at that
    many distinct positions of the input arrays, so that no input feature is
    returned more often than it occurs. An input within the budget is
    returned as it is, and budgeting the output again changes nothing. *)
Theorem select_best_features_size (M : nat) (keypoints : list (Q * Q))
  (descriptors : list Descriptor) (kps : list KeyPoint) (image_shape : Z * Z) :
  0 < M ->
  detector_output keypoints descriptors kps image_shape ->
  exists out ks ds kps' (positions : list nat),
    _select_best_features M keypoints descriptors kps image_shape
    = (out, Ok (ks, ds, kps')) /\
    length ks = length keypoints `min` M /\
    length ds = length keypoints `min` M /\
    length kps' = length keypoints `min` M /\
    NoDup positions /\
    length positions = length keypoints `min` M /\
    (forall i idx, positions !! i = Some idx ->
       idx < length keypoints /\
       ks !! i = keypoints !! idx /\ ds !! i = descriptors !! idx /\
       kps' !! i = kps !! idx) /\
    ks ⊆+ keypoints /\ ds ⊆+ descriptors /\ kps' ⊆+ kps /\
    ks ⊆ keypoints /\ ds ⊆ descriptors /\ kps' ⊆ kps /\
    (length keypoints <= M ->
     out = [] /\ ks = keypoints /\ ds = descriptors /\ kps' = kps) /\
    _select_best_features M ks ds kps' image_shape = ([], Ok (ks, ds, kps')).
Proof.
  intros HM Hdet.
  destruct (decide (length keypoints <= M)) as [Hle|Hgt].
  - destruct Hdet as (_ & _ & Hlk & Hld & _).
    exists [], keypoints, descriptors, kps, (seq 0 (length keypoints)).
    rewrite (select_best_features_fast M keypoints descriptors kps image_shape Hle).
    split; [reflexivity|]. split; [lia|]. split; [lia|]. split; [lia|].
    split; [apply NoDup_seq|]. split; [rewrite length_seq; lia|].
    split.
    { intros i idx Hi. apply lookup_seq in Hi as [-> Hi]. cbn [Nat.add].
      split; [assumption|]. split; [reflexivity|]. split; reflexivity. }
    repeat split; try reflexivity; try lia.
  - destruct (select_best_features_slow M keypoints descriptors kps image_shape)
      as (selected & ks & ds & kps' & _ & Hrun & Hnd & Hlt & Hls & Hlks & Hlds & Hlkps & Hget);
      [lia | lia | assumption |].
    destruct Hdet as (_ & _ & Hlk & Hld & _).
    exists [ReducedFeatures (length keypoints) M], ks, ds, kps', selected.
    split; [assumption|]. split; [lia|]. split; [lia|]. split; [lia|].
    split; [assumption|]. split; [lia|].
    split.
    { intros i idx Hi. split; [|now apply Hget].
      rewrite Forall_forall in Hlt. rewrite Hlk. apply Hlt.
      eapply list_elem_of_lookup_2; eauto. }
    split; [apply (lookup_submseteq keypoints ks selected); [assumption | lia |];
            intros i idx Hi; now apply Hget|].
    split; [apply (lookup_submseteq descriptors ds selected); [assumption | lia |];
            intros i idx Hi; now apply Hget|].
    split; [apply (lookup_submseteq kps kps' selected); [assumption | lia |];
            intros i idx Hi; now apply Hget|].
    repeat split; try lia.
    + apply (lookup_subseteq keypoints ks selected); [lia|]. intros i idx Hi. now apply Hget.
    + apply (lookup_subseteq descriptors ds selected); [lia|]. intros i idx Hi. now apply Hget.
    + apply (lookup_subseteq kps kps' selected); [lia|]. intros i idx Hi. now apply Hget.
    + apply select_best_features_fast. lia.
Qed.

Lemma select_best_features_size_witness :
  exists out ks ds kps' (positions : list nat),
    _select_best_features 2 sample_keypoints sample_descriptors sample_kps sample_shape
    = (out, Ok (ks, ds, kps')) /\
    length ks = length sample_keypoints `min` 2 /\
    length ds = length sample_keypoints `min` 2 /\
    length kps' = length sample_keypoints `min` 2 /\
    NoDup positions /\
    length positions = length sample_keypoints `min` 2 /\
    (forall i idx, positions !! i = Some idx ->
       idx < length sample_keypoints /\
       ks !! i = sample_keypoints !! idx /\ ds !! i = sample_descriptors !! idx /\
       kps' !! i = sample_kps !! idx) /\
    ks ⊆+ sample_keypoints /\ ds ⊆+ sample_descriptors /\ kps' ⊆+ sample_kps /\
    ks ⊆ sample_keypoints /\ ds ⊆ sample_descriptors /\ kps' ⊆ sample_kps /\
    (length sample_keypoints <= 2 ->
     out = [] /\ ks = sample_keypoints /\ ds = sample_descriptors /\ kps' = sample_kps) /\
    _select_best_features 2 ks ds kps' sample_shape = ([], Ok (ks, ds, kps')).
Proof.
  apply select_best_features_size; [lia | exact sample_detector_output].
Defined.

(** C10. No input feature is selected twice, in the quota pass and after
    the fill pass, and the three returned sequences are read off the input
    at the same positions: the i-th returned keypoint position, descriptor
    and cv2 keypoint all come from one input index. *)
Theorem select_best_features_aligned (M : nat) (keypoints : list (Q * Q))
  (descriptors : list Descriptor) (kps : list KeyPoint) (image_shape : Z * Z) :
  0 < M ->
  detector_output keypoints descriptors kps image_shape ->
  exists out ks ds kps' (selected : list nat),
    _select_best_features M keypoints descriptors kps image_shape
    = (out, Ok (ks, ds, kps')) /\
    NoDup selected /\
    length ks = length selected /\ length ds = length selected /\
    length kps' = length selected /\
    (forall i idx, selected !! i = Some idx ->
       idx < length kps /\
       ks !! i = keypoints !! idx /\ ds !! i = descriptors !! idx /\
       kps' !! i = kps !! idx) /\
    (length keypoints <= M -> selected = seq 0 (length keypoints)) /\
    (M < length keypoints ->
     select_indices M kps image_shape = Ok selected /\
     exists first cell_counts,
       first_pass kps (inject_Z (fst image_shape) / inject_Z grid_size)
         (inject_Z (snd image_shape) / inject_Z grid_size) (M / 16) M
         (sorted_by_response kps) [] (replicate 16 0%nat) = Ok (first, cell_counts) /\
       NoDup first).
Proof.
  intros HM Hdet.
  destruct (decide (length keypoints <= M)) as [Hle|Hgt].
  - destruct Hdet as (_ & _ & Hlk & Hld & _).
    exists [], keypoints, descriptors, kps, (seq 0 (length keypoints)).
    rewrite (select_best_features_fast M keypoints descriptors kps image_shape Hle).
    split; [reflexivity|]. split; [apply NoDup_seq|].
    rewrite length_seq. repeat split; try lia.
    + apply lookup_seq in H as [-> Hlt]. simpl. lia.
    + apply lookup_seq in H as [-> Hlt]. reflexivity.
    + apply lookup_seq in H as [-> Hlt]. reflexivity.
    + apply lookup_seq in H as [-> Hlt]. reflexivity.
  - assert (Hn : M < length keypoints) by lia.
    destruct (select_best_features_slow M keypoints descriptors kps image_shape HM Hn Hdet)
      as (selected & ks & ds & kps' & Hsel & Hrun & Hnd & Hlt & Hls & Hlks & Hlds & Hlkps & Hget).
    destruct Hdet as (Hh & Hw & Hlk & Hld & Hkps). rewrite Hlk in Hn.
    destruct (select_indices_passes M kps image_shape Hh Hw Hkps) as (cc & Hfp & _ & _).
    destruct (select_indices_facts M kps image_shape HM Hn) as (Hnd1 & _).
    exists [ReducedFeatures (length keypoints) M], ks, ds, kps', selected.
    split; [assumption|]. split; [assumption|].
    split; [lia|]. split; [lia|]. split; [lia|]. split.
    + intros i idx Hi. split; [|now apply Hget].
      rewrite Forall_forall in Hlt. apply Hlt. eapply list_elem_of_lookup_2; eauto.
    + split; [lia|]. intros _. split; [assumption|]. eauto.
Qed.

Lemma select_best_features_aligned_witness :
  exists out ks ds kps' (selected : list nat),
    _select_best_features 2 sample_keypoints sample_descriptors sample_kps sample_shape
    = (out, Ok (ks, ds, kps')) /\
    NoDup selected /\
    length ks = length selected /\ length ds = length selected /\
    length kps' = length selected /\
    (forall i idx, selected !! i = Some idx ->
       idx < length sample_kps /\
       ks !! i = sample_keypoints !! idx /\ ds !! i = sample_descriptors !! idx /\
       kps' !! i = sample_kps !! idx) /\
    (length sample_keypoints <= 2 -> selected = seq 0 (length sample_keypoints)) /\
    (2 < length sample_keypoints ->
     select_indices 2 sample_kps sample_shape = Ok selected /\
     exists first cell_counts,
       first_pass sample_kps (inject_Z (fst sample_shape) / inject_Z grid_size)
         (inject_Z (snd sample_shape) / inject_Z grid_size) (2 / 16) 2
         (sorted_by_response sample_kps) [] (replicate 16 0%nat) = Ok (first, cell_counts) /\
       NoDup first).
Proof.
  apply select_best_features_aligned; [lia | exact sample_detector_output].
Defined.


(** C8. With more features than the budget, the first pass is the quota
    walk over the positions in descending response order: it admits at most
    [max_features_per_target // 16] features per grid cell and never more
    than the budget. The second pass runs exactly when the first pass ended
    below the budget; a cell holds more than the quota in the final selection
    only then, and whenever the second pass runs every feature of every cell
    that the first pass left under its quota has already been admitted. *)
Theorem first_pass_cell_quota (M : nat) (kps : list KeyPoint) (image_shape : Z * Z) :
  0 < M -> M < length kps ->
  (0 < fst image_shape)%Z -> (0 < snd image_shape)%Z ->
  Forall (fun kp => (0 <= fst (kp_pt kp))%Q /\ (0 <= snd (kp_pt kp))%Q) kps ->
  let sorted := sorted_by_response kps in
  let cell := cell_at kps image_shape in
  let quota := M / 16 in
  let first := quota_walk cell quota M sorted [] in
  exists cell_counts selected,
    StronglySorted (fun i j => (response_at kps j <= response_at kps i)%Q) sorted /\
    first_pass kps (inject_Z (fst image_shape) / inject_Z grid_size)
      (inject_Z (snd image_shape) / inject_Z grid_size) quota M sorted []
      (replicate 16 0%nat) = Ok (first, cell_counts) /\
    select_indices M kps image_shape = Ok selected /\
    sublist first sorted /\
    (forall c, cell_count cell c first <= quota) /\
    (forall c, c < 16 -> cell_counts !! c = Some (cell_count cell c first)) /\
    length first <= M /\
    (M <= length first -> selected = first) /\
    (length first < M ->
     selected = second_pass M sorted first /\
     selected = first ++ take (M - length first) (filter (fun i => i ∉ first) sorted)) /\
    (forall c, quota < cell_count cell c selected -> length first < M) /\
    (length first < M ->
     forall c' idx, cell_count cell c' first < quota ->
       idx < length kps -> cell idx = c' -> idx ∈ first).
Proof.
  intros HM Hn Hh Hw Hkps sorted cell quota first.
  destruct (select_indices_passes M kps image_shape Hh Hw Hkps) as (cc & Hfp & Hcc & Hsel).
  destruct (select_indices_facts M kps image_shape HM Hn)
    as (Hnd1 & Hsub & Hlen1 & _ & _ & _ & Hfill).
  fold sorted cell quota first in Hfp, Hcc, Hsel, Hnd1, Hsub, Hlen1, Hfill.
  assert (Hquota : forall c, cell_count cell c first <= quota).
  { apply quota_walk_quota. intros c. unfold cell_count. simpl. lia. }
  exists cc, (if (length first <? M)%nat then second_pass M sorted first else first).
  split; [apply sorted_by_response_descending|].
  split; [assumption|]. split; [assumption|]. split; [assumption|].
  split; [assumption|]. split; [apply Hcc|]. split; [assumption|].
  split; [|split; [|split]].
  - intros Hge. now rewrite (proj2 (Nat.ltb_ge _ _) Hge).
  - intros Hlt. split; [|now apply Hfill]. now rewrite (proj2 (Nat.ltb_lt _ _) Hlt).
  - intros c Hover.
    destruct (length first <? M)%nat eqn:Hlt; [now apply Nat.ltb_lt in Hlt|].
    specialize (Hquota c). lia.
  - intros Hlt c' idx Hc' Hidx Hcell.
    destruct (quota_walk_exhausts cell quota M sorted []) with (idx := idx)
      as [Hin|Hfull].
    + intros c0. unfold cell_count. simpl. lia.
    + assumption.
    + now apply sorted_by_response_lt.
    + assumption.
    + fold first in Hfull. rewrite Hcell in Hfull. lia.
Qed.

Lemma first_pass_cell_quota_witness :
  let sorted := sorted_by_response crowded_kps in
  let cell := cell_at crowded_kps sample_shape in
  let quota := 16 / 16 in
  let first := quota_walk cell quota 16 sorted [] in
  exists cell_counts selected,
    StronglySorted (fun i j => (response_at crowded_kps j <= response_at crowded_kps i)%Q) sorted /\
    first_pass crowded_kps (inject_Z (fst sample_shape) / inject_Z grid_size)
      (inject_Z (snd sample_shape) / inject_Z grid_size) quota 16 sorted []
      (replicate 16 0%nat) = Ok (first, cell_counts) /\
    select_indices 16 crowded_kps sample_shape = Ok selected /\
    sublist first sorted /\
    (forall c, cell_count cell c first <= quota) /\
    (forall c, c < 16 -> cell_counts !! c = Some (cell_count cell c first)) /\
    length first <= 16 /\
    (16 <= length first -> selected = first) /\
    (length first < 16 ->
     selected = second_pass 16 sorted first /\
     selected = first ++ take (16 - length first) (filter (fun i => i ∉ first) sorted)) /\
    (forall c, quota < cell_count cell c selected -> length first < 16) /\
    (length first < 16 ->
     forall c' idx, cell_count cell c' first < quota ->
       idx < length crowded_kps -> cell idx = c' -> idx ∈ first).
Proof.
  apply (first_pass_cell_quota 16 crowded_kps sample_shape).
  - lia.
  - simpl. lia.
  - simpl. lia.
  - simpl. lia.
  - unfold crowded_kps. simpl.
    repeat (apply List.Forall_cons; [split; simpl; unfold Qle; simpl; lia|]).
    apply List.Forall_nil.
Defined.

Lemma cell_at_lt (kps : list KeyPoint) (image_shape : Z * Z) (idx : nat) :
  cell_at kps image_shape idx < 16.
Proof.
  unfold cell_at. destruct (kps !! idx) as [kp|]; [|lia].
  unfold cell_of. destruct (kp_pt kp) as [x y]. lia.
Qed.

Lemma cell_count_below (cell : nat -> nat) (n : nat) (selected : list nat) :
  length (filter (fun idx => cell idx < S n) selected)
  = length (filter (fun idx => cell idx < n) selected) + cell_count cell n selected.
Proof.
  unfold cell_count. induction selected as [|idx rest IH]; [reflexivity|].
  rewrite !filter_cons.
  destruct (decide (cell idx < S n)), (decide (cell idx < n)), (decide (cell idx = n));
    simpl; lia.
Qed.

(** The cells together hold no more than sixteen quotas. *)
Lemma quota_total (cell : nat -> nat) (q : nat) (selected : list nat) :
  (forall idx, cell idx < 16) ->
  (forall c, cell_count cell c selected <= q) ->
  length selected <= 16 * q.
Proof.
  intros Hcell Hq.
  assert (Hn : forall n, length (filter (fun idx => cell idx < n) selected) <= n * q).
  { induction n as [|n IH].
    - induction selected as [|idx rest IHr]; [simpl; lia|].
      rewrite filter_cons. destruct (decide (cell idx < 0)); [lia|].
      apply IHr. intros c. specialize (Hq c). unfold cell_count in *.
      rewrite filter_cons in Hq. destruct (decide (cell idx = c)); simpl in Hq; lia.
    - rewrite cell_count_below. specialize (Hq n). lia. }
  specialize (Hn 16).
  replace (filter (fun idx => cell idx < 16) selected) with selected in Hn; [assumption|].
  clear - Hcell. induction selected as [|idx rest IH]; [reflexivity|].
  rewrite filter_cons. destruct (decide (cell idx < 16)) as [|Hc]; [now f_equal|].
  exfalso. apply Hc, Hcell.
Qed.

(** Both passes at work: with a budget of 16 the quota is 1, the first pass
    admits the strongest feature of each of the two occupied cells, and the
    second pass fills the fourteen free slots from the crowded cell. *)
Example two_pass_selection :
  first_pass crowded_kps 10 10 1 16 (sorted_by_response crowded_kps) []
    (replicate 16 0%nat)
  = Ok ([19; 17], [1; 0; 0; 0; 0; 0; 0; 0; 0; 0; 0; 0; 0; 0; 0; 1]) /\
  select_indices 16 crowded_kps sample_shape
  = Ok [19; 17; 18; 16; 15; 14; 13; 12; 11; 10; 9; 8; 7; 6; 5; 4].
Proof. split; vm_compute; reflexivity. Qed.

(** With the default budget of 500 the quota is 31 and sixteen quotas are
    496: on every input over the budget the first pass ends below the budget
    and the second pass adds the strongest features left, whatever their
    cells. *)
Lemma default_budget_runs_second_pass (kps : list KeyPoint) (image_shape : Z * Z) :
  500 < length kps ->
  (0 < fst image_shape)%Z -> (0 < snd image_shape)%Z ->
  Forall (fun kp => (0 <= fst (kp_pt kp))%Q /\ (0 <= snd (kp_pt kp))%Q) kps ->
  let sorted := sorted_by_response kps in
  let first := quota_walk (cell_at kps image_shape) (500 / 16) 500 sorted [] in
  length first <= 496 /\
  select_indices 500 kps image_shape = Ok (second_pass 500 sorted first).
Proof.
  intros Hn Hh Hw Hkps sorted first.
  assert (Hlen : length first <= 16 * (500 / 16)).
  { apply (quota_total (cell_at kps image_shape)).
    - intros idx. apply cell_at_lt.
    - apply quota_walk_quota. intros c. unfold cell_count. simpl. lia. }
  change (16 * (500 / 16)) with 496 in Hlen.
  split; [assumption|].
  destruct (select_indices_passes 500 kps image_shape Hh Hw Hkps) as (cc & _ & _ & Hsel).
  fold sorted first in Hsel. rewrite Hsel.
  now rewrite (proj2 (Nat.ltb_lt (length first) 500)) by lia.
Qed.

End Budgeter.

(** ** Vocabulary builder *)

Section VocabularyBuilder.

Lemma byte_bits_length (b : N) : length (byte_bits b) = 8.
Proof. reflexivity. Qed.

Lemma unpackbits_length (row : Descriptor) : length (unpackbits row) = 8 * length row.
Proof.
  unfold unpackbits. induction row as [|b row IH]; [reflexivity|].
  cbn [map concat]. rewrite length_app, byte_bits_length, IH. simpl. lia.
Qed.

Lemma packbits_from_rows (bits : list bool) : forall (acc : N) (filled k : nat),
  filled < 8 -> (acc < 2 ^ N.of_nat filled)%N ->
  length bits + filled = 8 * k ->
  length (packbits_from bits acc filled) = k /\
  uint8_row (packbits_from bits acc filled).
Proof.
  induction bits as [|b t IH]; intros acc filled k Hf Hacc Hlen; simpl.
  - assert (filled = 0) by (simpl in Hlen; lia). subst filled. simpl.
    split; [simpl in Hlen; lia | constructor].
  - destruct (Nat.eqb_spec filled 7) as [->|Hne].
    + destruct (IH 0%N 0 (k - 1)) as [Hl Hu]; [lia | simpl; lia | simpl in *; lia|].
      split; [simpl; simpl in Hlen; lia|].
      constructor; [|assumption].
      change (2 ^ N.of_nat 7)%N with 128%N in Hacc. destruct b; lia.
    + destruct (IH (2 * acc + (if b then 1 else 0))%N (S filled) k) as [Hl Hu].
      * lia.
      * rewrite Nat2N.inj_succ, N.pow_succ_r'. destruct b; lia.
      * simpl in *. lia.
      * destruct filled as [|[|[|[|[|[|[|f]]]]]]]; try lia; simpl; auto.
Qed.

Lemma packbits_rows (bits : list bool) (D : nat) :
  length bits = 8 * D -> length (packbits bits) = D /\ uint8_row (packbits bits).
Proof.
  intros Hlen. unfold packbits. apply packbits_from_rows; [lia | simpl; lia | lia].
Qed.


Context {Metadata : Type}.
Variable MiniBatchKMeans_fit : Z -> list (list Q) -> Exc (list (list Q)).
Hypothesis kmeans_ok : kmeans_contract MiniBatchKMeans_fit.

(** One run of [build_vocabulary] on a non-empty pool with a positive
    requested size. *)
Lemma build_vocabulary_run (self : VocabularyTreeBuilder Metadata)
  (all_descriptors : list Descriptor) :
  all_descriptors <> [] ->
  (1 <= self_vocabulary_size self)%Z ->
  let n := length all_descriptors in
  let V := self_vocabulary_size self in
  exists (vocabulary : list Descriptor),
    build_vocabulary MiniBatchKMeans_fit self all_descriptors
    = ([BuildingVocabulary (self_k self) (self_levels self) V n]
       ++ (if (Z.of_nat n <? V)%Z
           then [WarnFewerDescriptors n V; ReducingVocabularySize n] else [])
       ++ [Clustering n (Z.min V (Z.of_nat n)); VocabularyBuilt (length vocabulary)],
       Ok (set_vocabulary (set_vocabulary_size self (Z.min V (Z.of_nat n))) vocabulary)) /\
    Z.of_nat (length vocabulary) = Z.min V (Z.of_nat n) /\
    forall D, descriptor_rows D all_descriptors -> descriptor_rows D vocabulary.
Proof.
  intros Hne HV n V.
  assert (Hn : 0 < n) by (subst n; destruct all_descriptors; [congruence | simpl; lia]).
  set (desc_float := map (fun row => map bit_to_float (unpackbits row)) all_descriptors).
  destruct (kmeans_ok (Z.min V (Z.of_nat n)) desc_float) as (centers & Hfit & Hlen & Hwidth).
  { subst desc_float. rewrite length_map. fold n. lia. }
  set (binarize := fun center : list Q => packbits (map (fun c => Qlt_bool (1 # 2) c) center)).
  exists (map binarize centers).
  split; [|split].
  - unfold build_vocabulary. fold n V desc_float.
    destruct (Z.ltb_spec (Z.of_nat n) V) as [Hlt|Hge].
    + rewrite Z.min_r in * by lia.
      cbn [pbind print ret app self_vocabulary_size set_vocabulary_size].
      rewrite Hfit. cbn [pbind lift print ret app]. subst desc_float.
      rewrite !length_map. reflexivity.
    + rewrite Z.min_l in * by lia.
      cbn [pbind print ret app]. fold V. rewrite Hfit.
      cbn [pbind lift print ret app]. subst desc_float.
      rewrite !length_map. destruct self; reflexivity.
  - rewrite length_map, Hlen. lia.
  - intros D Hrows. unfold descriptor_rows in *.
    specialize (Hwidth (8 * D)).
    apply Forall_fmap. eapply Forall_impl; [apply Hwidth|].
    + subst desc_float. apply Forall_fmap. eapply Forall_impl; [exact Hrows|].
      intros row [Hl _]. simpl. now rewrite length_map, unpackbits_length, Hl.
    + intros center Hc. simpl. apply packbits_rows. now rewrite length_map.
Qed.

(** C3. On a pool with at least one descriptor and a positive requested
    size, [build_vocabulary] succeeds with a vocabulary of
    [min(vocabulary_size, pooled count)] centroids, which is positive; it
    records that size, and when the pool is smaller than the requested size
    it prints the two warning lines instead of failing. *)
Theorem build_vocabulary_size (self : VocabularyTreeBuilder Metadata)
  (all_descriptors : list Descriptor) :
  all_descriptors <> [] ->
  (1 <= self_vocabulary_size self)%Z ->
  let n := length all_descriptors in
  let V := self_vocabulary_size self in
  exists out self' vocabulary,
    build_vocabulary MiniBatchKMeans_fit self all_descriptors = (out, Ok self') /\
    self_vocabulary self' = Some vocabulary /\
    Z.of_nat (length vocabulary) = Z.min V (Z.of_nat n) /\
    self_vocabulary_size self' = Z.of_nat (length vocabulary) /\
    0 < length vocabulary /\
    ((Z.of_nat n < V)%Z ->
     WarnFewerDescriptors n V ∈ out /\ ReducingVocabularySize n ∈ out) /\
    ((V <= Z.of_nat n)%Z ->
     forall e, e ∈ out ->
       e <> WarnFewerDescriptors n V /\ e <> ReducingVocabularySize n).
Proof.
  intros Hne HV n V.
  destruct (build_vocabulary_run self all_descriptors Hne HV) as (vocabulary & Hrun & Hlen & _).
  fold n V in Hrun, Hlen.
  assert (Hn : 0 < n) by (subst n; destruct all_descriptors; [congruence | simpl; lia]).
  eexists _, _, vocabulary. split; [exact Hrun|]. split; [reflexivity|].
  split; [assumption|]. split; [simpl; lia|]. split; [lia|]. split.
  - intros Hlt. rewrite (proj2 (Z.ltb_lt _ _) Hlt).
    split; repeat (rewrite elem_of_cons || rewrite elem_of_app); auto.
  - intros Hge e He. rewrite (proj2 (Z.ltb_ge _ _) Hge) in He.
    simpl in He. repeat (apply elem_of_cons in He as [->|He]); try discriminate He;
      try (split; discriminate). inversion He.
Qed.

End VocabularyBuilder.

(** ** Orchestration *)

Lemma pbind_ok {A B : Type} (out : list Event) (a : A) (f : A -> Py B) :
  pbind (out, Ok a) f = (out ++ fst (f a), snd (f a)).
Proof. unfold pbind. now destruct (f a). Qed.

Lemma pbind_raise {A B : Type} (out : list Event) (e : PyError) (f : A -> Py B) :
  pbind (out, Raise e) f = (out, Raise e).
Proof. reflexivity. Qed.

Lemma pbind_print {B : Type} (e : Event) (f : unit -> Py B) :
  pbind (print e) f = (e :: fst (f tt), snd (f tt)).
Proof. unfold print. now rewrite pbind_ok. Qed.

Lemma select_best_features_run (M : nat) (keypoints : list (Q * Q))
  (descriptors : list Descriptor) (kps : list KeyPoint) (image_shape : Z * Z) :
  0 < M ->
  detector_output keypoints descriptors kps image_shape ->
  exists out ks ds kps',
    _select_best_features M keypoints descriptors kps image_shape
    = (out, Ok (ks, ds, kps')) /\
    (out = [] \/ out = [ReducedFeatures (length keypoints) M]) /\
    length ks = length keypoints `min` M /\
    length ds = length keypoints `min` M /\
    ds ⊆ descriptors.
Proof.
  intros HM Hdet.
  destruct (decide (length keypoints <= M)) as [Hle|Hgt].
  - exists [], keypoints, descriptors, kps.
    rewrite (select_best_features_fast M keypoints descriptors kps image_shape Hle).
    destruct Hdet as (_ & _ & Hlk & Hld & _).
    split; [reflexivity|]. split; [now left|]. split; [lia|]. split; [lia|].
    reflexivity.
  - destruct (select_best_features_slow M keypoints descriptors kps image_shape)
      as (selected & ks & ds & kps' & _ & Hrun & _ & _ & Hls & Hlks & Hlds & Hlkps & Hget);
      [lia | lia | assumption |].
    exists [ReducedFeatures (length keypoints) M], ks, ds, kps'.
    split; [assumption|]. split; [now right|]. split; [lia|]. split; [lia|].
    apply (lookup_subseteq descriptors ds selected); [lia|]. intros i idx Hi. now apply Hget.
Qed.

Lemma np_getitem_in_range {A : Type} (a : list A) (i : Z) :
  (0 <= i < Z.of_nat (length a))%Z ->
  exists x, np_getitem a i = Ok x /\ a !! Z.to_nat i = Some x.
Proof.
  intros Hi. unfold np_getitem. rewrite np_index_in_range by assumption. cbn [bind].
  destruct (lookup_lt_is_Some_2 a (Z.to_nat i)) as [x ->]; [lia|]. eauto.
Qed.

Lemma all_or_some_false {A : Type} (p : A -> bool) (l : list A) :
  (exists x, x ∈ l /\ p x = false) \/ (forall x, x ∈ l -> p x = true).
Proof.
  induction l as [|a l [(x & Hx & Hp)|IH]].
  - right. intros x Hx. inversion Hx.
  - left. exists x. split; [now constructor | assumption].
  - destruct (p a) eqn:Ha.
    + right. intros x Hx. apply elem_of_cons in Hx as [->|Hx]; auto.
    + left. exists a. split; [constructor | assumption].
Qed.

Lemma bow_add_in_range (V : Z) (bow : gmap Z Z) (w : Z) :
  (0 <= w < V)%Z -> word_ids_in_range V bow -> word_ids_in_range V (bow_add bow w).
Proof.
  intros Hw Hr w' [c Hc]. unfold bow_add in Hc.
  apply lookup_insert_Some in Hc as [[<- _]|[_ Hc]]; [assumption|].
  apply Hr. eauto.
Qed.

(** [descriptors_to_bow] on a vocabulary of centroids shaped like the
    descriptors: every descriptor is counted once, under a word-id of the
    vocabulary. *)
Lemma descriptors_to_bow_ok (D : nat) (voc : list Descriptor) (descriptors : list Descriptor) :
  voc <> [] -> descriptor_rows D voc -> descriptor_rows D descriptors ->
  exists bow,
    descriptors_to_bow (Some voc) descriptors = Ok bow /\
    word_ids_in_range (Z.of_nat (length voc)) bow /\
    histogram_sum bow = Z.of_nat (length descriptors).
Proof.
  intros Hne Hvoc Hdescs.
  assert (H : forall bow0, word_ids_in_range (Z.of_nat (length voc)) bow0 ->
    exists bow,
      foldE (fun bow desc =>
               let! word_id <- quantize_descriptor desc voc ; Ok (bow_add bow word_id))
        bow0 descriptors = Ok bow /\
      word_ids_in_range (Z.of_nat (length voc)) bow).
  { induction Hdescs as [|d ds [Hlen Hu] Hds IH]; intros bow0 Hr; cbn [foldE]; [eauto|].
    destruct (quantize_descriptor_spec d voc Hne Hu) as (w & centroid & -> & Hw & _).
    { eapply Forall_impl; [exact Hvoc|]. intros word [Hl Hb]. split; [congruence | assumption]. }
    cbn [bind]. apply IH. apply bow_add_in_range; [|assumption].
    apply lookup_lt_Some in Hw. lia. }
  destruct (H ∅) as (bow & Hbow & Hr).
  { intros w [c Hc]. rewrite lookup_empty in Hc. discriminate. }
  exists bow. split; [exact Hbow|]. split; [assumption|].
  now apply (descriptors_to_bow_sum (Some voc)).
Qed.

Section Orchestration.

Context {Image Metadata : Type}.
Variable imread : string -> option Image.
Variable gray_shape : Image -> Z * Z.
Variable detectAndCompute : Image -> list KeyPoint * option (list Descriptor).
Variable _compute_image_metadata : Image -> list (Q * Q) -> list KeyPoint -> Metadata.
Variable empty_metadata : Metadata.
Variable quality_recommended : Metadata -> bool.
Variable MiniBatchKMeans_fit : Z -> list (list Q) -> Exc (list (list Q)).
Variable export_database : VocabularyTreeBuilder Metadata -> Py unit.
Variable D : nat.
Hypothesis detector_ok : detector_contract D gray_shape detectAndCompute.
Hypothesis kmeans_ok : kmeans_contract MiniBatchKMeans_fit.

Local Abbreviation extract :=
  (extract_features imread gray_shape detectAndCompute _compute_image_metadata
     empty_metadata).
Local Abbreviation extract_loop :=
  (extract_all imread gray_shape detectAndCompute _compute_image_metadata
     empty_metadata quality_recommended).
Local Abbreviation process :=
  (process_targets imread gray_shape detectAndCompute _compute_image_metadata
     empty_metadata quality_recommended MiniBatchKMeans_fit).
Local Abbreviation run_main :=
  (main imread gray_shape detectAndCompute _compute_image_metadata
     empty_metadata quality_recommended MiniBatchKMeans_fit export_database).
Local Abbreviation usable := (fun f => has_features imread detectAndCompute f = true).

Lemma extract_features_load_failure (self : VocabularyTreeBuilder Metadata) (f : ImagePath) :
  loads imread f = false ->
  extract self (path_str f)
  = ([], Raise (ValueError ("Failed to load image: " ++ path_str f))).
Proof.
  unfold loads, extract_features.
  destruct (imread (path_str f)); [discriminate | reflexivity].
Qed.

Lemma extract_features_no_features (self : VocabularyTreeBuilder Metadata) (f : ImagePath) :
  loads imread f = true -> has_features imread detectAndCompute f = false ->
  extract self (path_str f)
  = ([WarnNoFeaturesFound (path_str f)], Ok ([], [], empty_metadata)).
Proof.
  unfold loads, has_features, extract_features.
  destruct (imread (path_str f)) as [img|]; [|discriminate]. intros _.
  destruct (detectAndCompute img) as [kps [[|d descs]|]]; simpl; try discriminate;
    reflexivity.
Qed.

Lemma extract_features_found (self : VocabularyTreeBuilder Metadata) (f : ImagePath) :
  0 < self_max_features_per_target self ->
  has_features imread detectAndCompute f = true ->
  exists out keypoints descriptors metadata,
    extract self (path_str f) = (out, Ok (keypoints, descriptors, metadata)) /\
    descriptors <> [] /\
    length keypoints = length descriptors /\
    descriptor_rows D descriptors /\
    forall e, e ∈ out -> exists n m, e = ReducedFeatures n m.
Proof.
  intros HM. unfold has_features, extract_features.
  destruct (imread (path_str f)) as [img|]; [|discriminate].
  destruct (detectAndCompute img) as [kps [[|d descs]|]] eqn:Hdet; simpl; try discriminate.
  intros _.
  destruct (detector_ok img kps (d :: descs) Hdet) as [Hout Hrows]; [discriminate|].
  destruct (select_best_features_run (self_max_features_per_target self)
              (map kp_pt kps) (d :: descs) kps (gray_shape img) HM Hout)
    as (out & ks & ds & kps' & Hrun & Hlog & Hlk & Hld & Hsub).
  rewrite Hrun, pbind_ok. cbn [ret fst snd]. rewrite app_nil_r.
  exists out, ks, ds, (_compute_image_metadata img (map kp_pt kps) kps).
  split; [reflexivity|].
  pose proof Hout as (_ & _ & Hlen1 & Hlen2 & _). cbn [length] in Hlen2.
  split; [|split; [lia|split]].
  - intros ->. cbn [length] in Hld. lia.
  - unfold descriptor_rows in *. rewrite Forall_forall in *.
    intros r Hr. apply Hrows. now apply Hsub.
  - intros e He. destruct Hlog as [->| ->]; [inversion He|].
    apply list_elem_of_singleton in He as ->. eauto.
Qed.


Lemma has_features_loads (f : ImagePath) :
  has_features imread detectAndCompute f = true -> loads imread f = true.
Proof.
  unfold has_features, loads. now destruct (imread (path_str f)).
Qed.

(** Step 1 when an image fails to load: the exception of [extract_features]
    leaves the loop. *)
Lemma extract_all_load_failure (self : VocabularyTreeBuilder Metadata)
  (image_files : list ImagePath) :
  0 < self_max_features_per_target self ->
  forall all_descriptors target_features,
    (exists f, f ∈ image_files /\ loads imread f = false) ->
    exists out f,
      f ∈ image_files /\ loads imread f = false /\
      extract_loop self image_files all_descriptors target_features
      = (out, Raise (ValueError ("Failed to load image: " ++ path_str f))).
Proof.
  intros HM. induction image_files as [|f0 rest IH]; intros acc_d acc_t (f & Hin & Hf).
  - inversion Hin.
  - cbn [extract_all]. rewrite pbind_print.
    destruct (loads imread f0) eqn:Hl0.
    + assert (Hrest : exists f, f ∈ rest /\ loads imread f = false).
      { apply elem_of_cons in Hin as [->|Hin]; [congruence | eauto]. }
      destruct (has_features imread detectAndCompute f0) eqn:Hf0.
      * destruct (extract_features_found self f0 HM Hf0)
          as (out & ks & ds & md & -> & Hne & _).
        rewrite pbind_ok. cbn [fst snd].
        assert (Hz : (length ds =? 0)%nat = false) by (destruct ds; [congruence | reflexivity]).
        rewrite Hz, pbind_print.
        destruct (IH (acc_d ++ [ds])
                    (acc_t ++ [{| t_id := path_stem f0; t_filename := path_name f0;
                                  t_keypoints := ks; t_descriptors := ds;
                                  t_num_features := Z.of_nat (length ks);
                                  t_metadata := md; t_bow := None;
                                  t_bow_tfidf := None |}]) Hrest)
          as (out' & f' & Hin' & Hf' & ->).
        cbn [fst snd]. eexists _, f'. split; [now constructor|]. split; [assumption|].
        reflexivity.
      * rewrite (extract_features_no_features self f0 Hl0 Hf0), pbind_ok.
        cbn [fst snd length Nat.eqb]. rewrite pbind_print.
        destruct (IH acc_d acc_t Hrest) as (out' & f' & Hin' & Hf' & ->).
        cbn [fst snd]. eexists _, f'. split; [now constructor|]. split; [assumption|].
        reflexivity.
    + rewrite (extract_features_load_failure self f0 Hl0), pbind_raise. cbn [fst snd].
      eexists _, f0. split; [constructor|]. split; [assumption|]. reflexivity.
Qed.

(** Step 1 when every image loads: one target per image with features, in
    order; the images without features are reported and skipped. *)
Lemma extract_all_ok (self : VocabularyTreeBuilder Metadata)
  (image_files : list ImagePath) :
  0 < self_max_features_per_target self ->
  (forall f, f ∈ image_files -> loads imread f = true) ->
  forall all_descriptors target_features,
    exists out targets,
      extract_loop self image_files all_descriptors target_features
      = (out, Ok (all_descriptors ++ map t_descriptors targets, target_features ++ targets)) /\
      Forall (extracted_target D) targets /\
      map t_filename targets = map path_name (filter usable image_files) /\
      map t_id targets = map path_stem (filter usable image_files) /\
      (forall f, f ∈ image_files -> has_features imread detectAndCompute f = false ->
         WarnNoFeaturesFound (path_str f) ∈ out /\ WarnSkipping (path_name f) ∈ out).
Proof.
  intros HM. induction image_files as [|f0 rest IH]; intros Hload acc_d acc_t.
  - exists [], []. cbn [extract_all ret map]. rewrite !app_nil_r.
    split; [reflexivity|]. split; [constructor|]. split; [reflexivity|].
    split; [reflexivity|]. intros f Hf. inversion Hf.
  - assert (Hl0 : loads imread f0 = true) by (apply Hload; constructor).
    assert (Hrest : forall f, f ∈ rest -> loads imread f = true).
    { intros f Hf. apply Hload. now constructor. }
    cbn [extract_all]. rewrite pbind_print, filter_cons.
    destruct (has_features imread detectAndCompute f0) eqn:Hf0.
    + destruct (extract_features_found self f0 HM Hf0)
        as (out & ks & ds & md & -> & Hne & Hlen & Hrows & _).
      rewrite pbind_ok. cbn [fst snd].
      assert (Hz : (length ds =? 0)%nat = false) by (destruct ds; [congruence | reflexivity]).
      rewrite Hz, pbind_print.
      set (target := {| t_id := path_stem f0; t_filename := path_name f0;
                        t_keypoints := ks; t_descriptors := ds;
                        t_num_features := Z.of_nat (length ks);
                        t_metadata := md; t_bow := None; t_bow_tfidf := None |}).
      destruct (IH Hrest (acc_d ++ [ds]) (acc_t ++ [target]))
        as (out' & targets & -> & Hall & Hnames & Hids & Hskip).
      cbn [fst snd]. eexists _, (target :: targets).
      split; [cbn [map]; rewrite <- !app_assoc; reflexivity|].
      split; [constructor; [repeat split; assumption | assumption]|].
      destruct (decide (true = true)); [|congruence].
      split; [cbn [map]; now rewrite Hnames|]. split; [cbn [map]; now rewrite Hids|].
      intros f Hf Hnf. apply elem_of_cons in Hf as [->|Hf]; [congruence|].
      destruct (Hskip f Hf Hnf) as [H1 H2].
      split; repeat (rewrite elem_of_cons || rewrite elem_of_app); auto.
    + rewrite (extract_features_no_features self f0 Hl0 Hf0), pbind_ok.
      cbn [fst snd length Nat.eqb]. rewrite pbind_print.
      destruct (IH Hrest acc_d acc_t) as (out' & targets & -> & Hall & Hnames & Hids & Hskip).
      cbn [fst snd]. eexists _, targets. split; [reflexivity|]. split; [assumption|].
      destruct (decide (false = true)); [congruence|].
      split; [assumption|]. split; [assumption|].
      intros f Hf Hnf. apply elem_of_cons in Hf as [->|Hf].
      * split; repeat (rewrite elem_of_cons || rewrite elem_of_app); auto.
      * destruct (Hskip f Hf Hnf) as [H1 H2].
        split; repeat (rewrite elem_of_cons || rewrite elem_of_app); auto.
Qed.


Lemma np_vstack_ok (targets : list (Target Metadata)) :
  targets <> [] -> Forall (extracted_target D) targets ->
  np_vstack (map t_descriptors targets) = Ok (concat (map t_descriptors targets)) /\
  concat (map t_descriptors targets) <> [] /\
  descriptor_rows D (concat (map t_descriptors targets)).
Proof.
  intros Hne Hall.
  assert (Hrows : descriptor_rows D (concat (map t_descriptors targets))).
  { clear Hne. unfold descriptor_rows.
    induction Hall as [|t ts (_ & _ & _ & Hr & _) Hts IH]; [constructor|].
    cbn [map concat]. apply Forall_app. split; [exact Hr | exact IH]. }
  assert (Hcat : concat (map t_descriptors targets) <> []).
  { destruct Hall as [|t ts (Hd & _) _]; [congruence|].
    cbn [map concat]. destruct (t_descriptors t); [congruence | discriminate]. }
  split; [|split; assumption].
  unfold np_vstack. destruct (concat (map t_descriptors targets)) as [|row rows]; [congruence|].
  inversion Hrows as [|? ? [Hrow _] Hrest]; subst.
  replace (forallb (fun r => (length r =? length row)%nat) rows) with true; [reflexivity|].
  symmetry. apply forallb_forall. intros r Hr. apply Nat.eqb_eq.
  unfold descriptor_rows in Hrest. rewrite Forall_forall in Hrest.
  apply list_elem_of_In in Hr. now destruct (Hrest r Hr).
Qed.

(** Step 3 on extracted targets. *)
Lemma targets_to_bow_ok (self : VocabularyTreeBuilder Metadata) (voc : list Descriptor)
  (targets : list (Target Metadata)) :
  self_vocabulary self = Some voc -> voc <> [] -> descriptor_rows D voc ->
  Forall (extracted_target D) targets ->
  exists out bows,
    targets_to_bow self targets = (out, Ok (zip_with set_bow targets bows, bows)) /\
    Forall2 (fun t bow =>
               descriptors_to_bow (Some voc) (t_descriptors t) = Ok bow /\
               word_ids_in_range (Z.of_nat (length voc)) bow /\
               histogram_sum bow = Z.of_nat (length (t_descriptors t))) targets bows.
Proof.
  intros Hself Hne Hvoc. induction 1 as [|t ts Ht Hts IH]; cbn [targets_to_bow].
  - exists [], []. split; [reflexivity | constructor].
  - destruct Ht as (_ & _ & _ & Hrows & _).
    destruct (descriptors_to_bow_ok D voc (t_descriptors t) Hne Hvoc Hrows)
      as (bow & Hbow & Hr & Hsum).
    destruct IH as (out & bows & Hrun & Hall).
    rewrite Hself, Hbow. unfold lift. rewrite pbind_ok. cbn [fst snd].
    rewrite pbind_print, Hrun, pbind_ok. cbn [fst snd ret].
    eexists _, (bow :: bows). split; [reflexivity|]. now constructor.
Qed.

(** Step 5 on targets that carry an in-range bag of words and a non-zero
    feature count. *)
Lemma targets_to_tfidf_ok (self : VocabularyTreeBuilder Metadata) (idf : list R)
  (targets : list (Target Metadata)) :
  self_idf_weights self = Some idf ->
  Forall (fun t => exists bow, t_bow t = Some bow /\
                     word_ids_in_range (Z.of_nat (length idf)) bow /\
                     t_num_features t <> 0%Z) targets ->
  exists targets',
    targets_to_tfidf self targets = Ok targets' /\
    Forall2 (fun t t' => exists bow tfidf,
               t_bow t = Some bow /\
               compute_tfidf_vector (Some idf) bow (t_num_features t) = Ok tfidf /\
               t' = set_bow_tfidf t tfidf) targets targets'.
Proof.
  intros Hself. unfold targets_to_tfidf. rewrite Hself.
  induction 1 as [|t ts (bow & Hbow & Hr & Hnum) Hts IH]; cbn [mapE].
  - exists []. split; [reflexivity | constructor].
  - destruct (compute_tfidf_vector_spec (Some idf) bow (t_num_features t) Hnum)
      as (tfidf & Htfidf & _).
    { intros w c Hc. destruct (np_getitem_in_range idf w) as (x & Hx & _); [|eauto].
      apply Hr. eauto. }
    destruct IH as (targets' & Hrun & Hall).
    rewrite Hbow, Htfidf. cbn [bind]. rewrite Hrun. cbn [bind].
    eexists. split; [reflexivity|]. constructor; [|assumption].
    exists bow, tfidf. auto.
Qed.


Lemma process_targets_load_failure (self : VocabularyTreeBuilder Metadata)
  (image_files : list ImagePath) :
  0 < self_max_features_per_target self ->
  (exists f, f ∈ image_files /\ loads imread f = false) ->
  exists out f,
    f ∈ image_files /\ loads imread f = false /\
    process self image_files
    = (out, Raise (ValueError ("Failed to load image: " ++ path_str f))).
Proof.
  intros HM Hfail.
  destruct (extract_all_load_failure self image_files HM [] [] Hfail)
    as (out & f & Hin & Hf & Hrun).
  unfold process_targets. rewrite pbind_print, Hrun, pbind_raise. cbn [fst snd].
  eauto.
Qed.

Lemma filter_usable_nil (image_files : list ImagePath) :
  (forall f, f ∈ image_files -> has_features imread detectAndCompute f = false) ->
  filter usable image_files = [].
Proof.
  intros Hnone. induction image_files as [|f rest IH]; [reflexivity|].
  rewrite filter_cons, (Hnone f) by constructor.
  destruct (decide (false = true)); [congruence|].
  apply IH. intros g Hg. apply Hnone. now constructor.
Qed.

Lemma process_targets_no_features (self : VocabularyTreeBuilder Metadata)
  (image_files : list ImagePath) :
  0 < self_max_features_per_target self ->
  (forall f, f ∈ image_files -> loads imread f = true) ->
  (forall f, f ∈ image_files -> has_features imread detectAndCompute f = false) ->
  exists out,
    process self image_files
    = (out, Raise (ValueError "No features extracted from any target images")) /\
    forall f, f ∈ image_files ->
      WarnNoFeaturesFound (path_str f) ∈ out /\ WarnSkipping (path_name f) ∈ out.
Proof.
  intros HM Hload Hnone.
  destruct (extract_all_ok self image_files HM Hload [] [])
    as (out & targets & Hrun & _ & Hnames & _ & Hskip).
  rewrite (filter_usable_nil image_files Hnone) in Hnames.
  destruct targets; [|discriminate].
  unfold process_targets. rewrite pbind_print, Hrun, pbind_ok. cbn [fst snd app map length Nat.eqb raise].
  eexists. split; [reflexivity|].
  intros f Hf. destruct (Hskip f Hf (Hnone f Hf)) as [H1 H2].
  split; repeat (rewrite elem_of_cons || rewrite elem_of_app); auto.
Qed.

Lemma process_targets_ok (self : VocabularyTreeBuilder Metadata)
  (image_files : list ImagePath) :
  0 < self_max_features_per_target self ->
  (1 <= self_vocabulary_size self)%Z ->
  (forall f, f ∈ image_files -> loads imread f = true) ->
  (exists f, f ∈ image_files /\ has_features imread detectAndCompute f = true) ->
  exists out self' voc idf,
    process self image_files = (out, Ok self') /\
    self_vocabulary self' = Some voc /\
    self_idf_weights self' = Some idf /\
    self_vocabulary_size self' = Z.of_nat (length voc) /\
    length idf = length voc /\
    map t_filename (self_targets self') = map path_name (filter usable image_files) /\
    Forall (indexed_target voc idf) (self_targets self') /\
    (forall f, f ∈ image_files -> has_features imread detectAndCompute f = false ->
       WarnNoFeaturesFound (path_str f) ∈ out /\ WarnSkipping (path_name f) ∈ out).
Proof.
  intros HM HV Hload (f1 & Hin1 & Hf1).
  destruct (extract_all_ok self image_files HM Hload [] [])
    as (out1 & targets & Hrun1 & Hall & Hnames & _ & Hskip).
  cbn [app] in Hrun1.
  assert (Hne : targets <> []).
  { intros ->. cbn [map] in Hnames. symmetry in Hnames. apply fmap_nil_inv in Hnames.
    assert (Hin : f1 ∈ filter usable image_files) by (apply list_elem_of_filter; auto).
    rewrite Hnames in Hin. inversion Hin. }
  destruct (np_vstack_ok targets Hne Hall) as (Hstack & Hcat & Hrows).
  set (pool := concat (map t_descriptors targets)) in *.
  destruct (build_vocabulary_run MiniBatchKMeans_fit kmeans_ok self pool Hcat HV)
    as (voc & Hrun2 & Hlen & Hvrows).
  specialize (Hvrows D Hrows).
  set (V' := Z.min (self_vocabulary_size self) (Z.of_nat (length pool))) in *.
  set (self1 := set_vocabulary (set_vocabulary_size self V') voc) in *.
  assert (Hpool : 0 < length pool) by (destruct pool; [congruence | simpl; lia]).
  assert (Hvne : voc <> []) by (intros ->; simpl in Hlen; lia).
  destruct (targets_to_bow_ok self1 voc targets eq_refl Hvne Hvrows Hall)
    as (out3 & bows & Hrun3 & Hbows).
  destruct (document_frequency_spec V' bows) as (df & Hdf & Hdflen & _); [lia | |].
  { apply Forall_forall. intros bow Hbow.
    apply list_elem_of_lookup in Hbow as [i Hi].
    destruct (Forall2_lookup_r _ _ _ _ _ Hbows Hi) as (t & _ & _ & Hr & _).
    now rewrite <- Hlen. }
  set (idf := map (idf_weight (length bows)) df).
  assert (Hidf : compute_idf V' bows = Ok idf).
  { unfold compute_idf. now rewrite Hdf. }
  assert (Hidflen : length idf = length voc).
  { subst idf. rewrite length_map, Hdflen. lia. }
  set (self2 := set_idf_weights self1 idf).
  destruct (targets_to_tfidf_ok self2 idf (zip_with set_bow targets bows) eq_refl)
    as (targets' & Hrun5 & Hfinal).
  { apply Forall_forall. intros t' Ht'.
    apply list_elem_of_lookup in Ht' as [i Hi].
    apply lookup_zip_with_Some in Hi as (t & bow & -> & Ht & Hbow).
    destruct (Forall2_lookup_lr _ _ _ _ _ _ Hbows Ht Hbow) as (_ & Hr & _).
    rewrite Forall_forall in Hall.
    destruct (Hall t) as (Hd & Hl & Hn & _); [eapply list_elem_of_lookup_2; eauto|].
    exists bow. split; [reflexivity|]. split; [now rewrite Hidflen|].
    cbn [set_bow t_num_features]. rewrite Hn, Hl.
    destruct (t_descriptors t); [congruence | simpl; lia]. }
  exists ([ProcessingTargets (length image_files)] ++ out1
          ++ [TotalFeatures (length pool)]
          ++ fst (build_vocabulary MiniBatchKMeans_fit self pool)
          ++ [ConvertingToBow] ++ out3 ++ [IdfComputed V'; ComputingTfidf]),
         (set_targets self2 targets'), voc, idf.
  split.
  { unfold process_targets. rewrite pbind_print, Hrun1, pbind_ok. cbn [fst snd].
    assert (Hz : (length (map t_descriptors targets) =? 0)%nat = false).
    { rewrite length_map. destruct targets; [congruence | reflexivity]. }
    rewrite Hz, Hstack. unfold lift. rewrite pbind_ok. cbn [fst snd].
    rewrite pbind_print. fold pool. rewrite Hrun2, pbind_ok. cbn [fst snd].
    fold self1. rewrite pbind_print, Hrun3, pbind_ok. cbn [fst snd].
    change (self_vocabulary_size self1) with V'. rewrite Hidf, pbind_ok. cbn [fst snd].
    rewrite !pbind_print. fold self2. rewrite Hrun5, pbind_ok. cbn [fst snd ret app].
    reflexivity. }
  split; [reflexivity|]. split; [reflexivity|]. split; [cbn; lia|].
  assert (Hlt : length targets' = length targets).
  { rewrite <- (Forall2_length _ _ _ Hfinal), length_zip_with.
    rewrite (Forall2_length _ _ _ Hbows). lia. }
  assert (Hget : forall i t', targets' !! i = Some t' ->
    exists t bow tfidf,
      targets !! i = Some t /\ bows !! i = Some bow /\
      compute_tfidf_vector (Some idf) bow (t_num_features t) = Ok tfidf /\
      t' = set_bow_tfidf (set_bow t bow) tfidf).
  { intros i t' Ht'.
    destruct (Forall2_lookup_r _ _ _ _ _ Hfinal Ht') as (t1 & Ht1 & bow' & tfidf & Hb & Hc & ->).
    apply lookup_zip_with_Some in Ht1 as (t & bow & -> & Ht & Hbow).
    cbn [set_bow t_bow] in Hb. injection Hb as <-.
    exists t, bow, tfidf. auto. }
  split; [assumption|]. split; [|split].
  - cbn [set_targets self_targets]. rewrite <- Hnames.
    apply list_eq. intros i. rewrite !list_lookup_fmap.
    destruct (targets' !! i) as [t'|] eqn:Ht'.
    + destruct (Hget i t' Ht') as (t & bow & tfidf & -> & _ & _ & ->). reflexivity.
    + apply lookup_ge_None in Ht'. rewrite Hlt in Ht'.
      apply lookup_ge_None in Ht'. now rewrite Ht'.
  - cbn [set_targets self_targets]. apply Forall_forall. intros t' Ht'.
    apply list_elem_of_lookup in Ht' as [i Hi].
    destruct (Hget i t' Hi) as (t & bow & tfidf & Ht & Hbow & Htfidf & ->).
    destruct (Forall2_lookup_lr _ _ _ _ _ _ Hbows Ht Hbow) as (Hb & Hr & Hsum).
    rewrite Forall_forall in Hall.
    destruct (Hall t) as (Hd & Hl & Hn & _); [eapply list_elem_of_lookup_2; eauto|].
    exists bow, tfidf.
    cbn [set_bow set_bow_tfidf t_bow t_bow_tfidf t_descriptors t_keypoints t_num_features].
    repeat (split; [first [reflexivity | assumption]|]). assumption.
  - intros f Hf Hnf. destruct (Hskip f Hf Hnf) as [H1 H2].
    split; repeat (rewrite elem_of_cons || rewrite elem_of_app); auto.
Qed.


(** C5. In a build that succeeds, every target's TF-IDF vector is computed
    by [compute_tfidf_vector] from the target's own histogram and its
    budgeted feature count: each entry [(word, count)] of the histogram gets
    the weight [(count / num_features) * idf[word]]. The feature count is
    the number of the target's descriptors, and the counts of the histogram
    sum to it, since [descriptors_to_bow] counts every descriptor once. *)
Theorem tfidf_weight_per_target (self : VocabularyTreeBuilder Metadata)
  (image_files : list ImagePath) :
  0 < self_max_features_per_target self ->
  (1 <= self_vocabulary_size self)%Z ->
  (forall f, f ∈ image_files -> loads imread f = true) ->
  (exists f, f ∈ image_files /\ has_features imread detectAndCompute f = true) ->
  exists out self' voc idf,
    process self image_files = (out, Ok self') /\
    self_vocabulary self' = Some voc /\
    self_idf_weights self' = Some idf /\
    self_targets self' <> [] /\
    forall t, t ∈ self_targets self' ->
      exists (bow : gmap Z Z) (tfidf : gmap Z R),
        t_bow t = Some bow /\ t_bow_tfidf t = Some tfidf /\
        descriptors_to_bow (Some voc) (t_descriptors t) = Ok bow /\
        compute_tfidf_vector (Some idf) bow (t_num_features t) = Ok tfidf /\
        t_num_features t = Z.of_nat (length (t_keypoints t)) /\
        t_num_features t = Z.of_nat (length (t_descriptors t)) /\
        histogram_sum bow = t_num_features t /\
        forall w count, bow !! w = Some count ->
          exists x : R,
            idf !! Z.to_nat w = Some x /\
            tfidf !! w = Some (IZR count / IZR (t_num_features t) * x)%R.
Proof.
  intros HM HV Hload Hsome.
  destruct (process_targets_ok self image_files HM HV Hload Hsome)
    as (out & self' & voc & idf & Hrun & Hvoc & Hidf & _ & Hlen & Hnames & Hall & _).
  exists out, self', voc, idf. split; [assumption|]. split; [assumption|].
  split; [assumption|]. split.
  - intros Hnil. rewrite Hnil in Hnames. cbn [map] in Hnames.
    symmetry in Hnames. apply fmap_nil_inv in Hnames.
    destruct Hsome as (f & Hf & Hu).
    assert (Hin : f ∈ filter usable image_files) by (apply list_elem_of_filter; auto).
    rewrite Hnames in Hin. inversion Hin.
  - intros t Ht. rewrite Forall_forall in Hall.
    destruct (Hall t Ht) as (bow & tfidf & Hb & Htf & Hd & Hl & Hn & Hbow & Hr & Hsum & Hc).
    exists bow, tfidf.
    repeat (split; [first [assumption | congruence]|]).
    assert (Hnum : t_num_features t <> 0%Z).
    { rewrite Hn, Hl. destruct (t_descriptors t); [congruence | simpl; lia]. }
    destruct (compute_tfidf_vector_spec (Some idf) bow (t_num_features t) Hnum)
      as (tfidf' & Hc' & Hin & _).
    { intros w c Hw. destruct (np_getitem_in_range idf w) as (x & Hx & _); [|eauto].
      rewrite Hlen. apply Hr. eauto. }
    rewrite Hc in Hc'. injection Hc' as <-.
    intros w count Hw. destruct (Hin w count Hw) as (x & Hx & Hweight).
    exists x. split; [|assumption].
    destruct (np_getitem_in_range idf w) as (x' & Hx' & Hlook).
    { rewrite Hlen. apply Hr. eauto. }
    cbn [idf_lookup] in Hx. congruence.
Qed.

(** What [main] returns, by the outcome of [process_targets]. *)
Lemma main_exit_status (branching_factor levels vocab_size : Z)
  (image_files : list ImagePath) :
  vocab_size <> 0%Z ->
  (forall builder, exists out, export_database builder = (out, Ok tt)) ->
  let builder := set_vocabulary_size (init branching_factor levels) vocab_size in
  (forall out e, process builder image_files = (out, Raise e) ->
     run_main true branching_factor levels vocab_size image_files
     = (out ++ [ErrorReport e], 1%Z)) /\
  (forall out self', process builder image_files = (out, Ok self') ->
     exists out',
       run_main true branching_factor levels vocab_size image_files = (out ++ out', 0%Z)).
Proof.
  intros Hv Hexport builder. unfold main. cbn [negb].
  destruct (Z.eqb_spec vocab_size 0) as [|_]; [contradiction|]. fold builder.
  split.
  - intros out e ->. rewrite pbind_raise. reflexivity.
  - intros out self' ->. rewrite pbind_ok. cbn [fst snd].
    destruct (Hexport self') as (out' & ->).
    rewrite pbind_ok, pbind_print. cbn [fst snd ret]. eauto.
Qed.


(** C7, amended. The build exits with status 1 and an error report exactly
    when some image fails to load or no image yields features: a failed load
    raises out of [extract_features] and ends the build, whatever the other
    images hold. When every image loads, each image without features is
    reported and skipped, and the build goes on with the remaining images;
    it then fails only if none of them has features. The depth is taken
    non-negative, so that building the [VocabularyTreeBuilder] object itself
    cannot raise. *)
Theorem build_abort_conditions (branching_factor levels vocab_size : Z)
  (image_files : list ImagePath) :
  (0 <= levels)%Z ->
  (1 <= vocab_size)%Z ->
  (forall builder, exists out, export_database builder = (out, Ok tt)) ->
  let result := run_main true branching_factor levels vocab_size image_files in
  let builder := set_vocabulary_size (init branching_factor levels) vocab_size in
  (snd result = 1%Z <->
     (exists f, f ∈ image_files /\ loads imread f = false) \/
     (forall f, f ∈ image_files -> has_features imread detectAndCompute f = false)) /\
  (snd result = 1%Z -> exists e, ErrorReport e ∈ fst result) /\
  ((exists f, f ∈ image_files /\ loads imread f = false) ->
   exists f, f ∈ image_files /\ loads imread f = false /\
     ErrorReport (ValueError ("Failed to load image: " ++ path_str f)) ∈ fst result) /\
  ((forall f, f ∈ image_files -> loads imread f = true) ->
   (forall f, f ∈ image_files -> has_features imread detectAndCompute f = false ->
      WarnNoFeaturesFound (path_str f) ∈ fst result /\
      WarnSkipping (path_name f) ∈ fst result) /\
   ((forall f, f ∈ image_files -> has_features imread detectAndCompute f = false) ->
    ErrorReport (ValueError "No features extracted from any target images") ∈ fst result) /\
   ((exists f, f ∈ image_files /\ has_features imread detectAndCompute f = true) ->
    snd result = 0%Z /\
    exists out self',
      process builder image_files = (out, Ok self') /\
      map t_filename (self_targets self') = map path_name (filter usable image_files))).
Proof.
  intros _ Hv Hexport result builder.
  assert (Hv0 : vocab_size <> 0%Z) by lia.
  destruct (main_exit_status branching_factor levels vocab_size image_files Hv0 Hexport)
    as [Hraise Hok]. fold builder result in Hraise, Hok.
  assert (HM : 0 < self_max_features_per_target builder) by (cbn; lia).
  assert (HV : (1 <= self_vocabulary_size builder)%Z) by (cbn; lia).
  (* the three outcomes *)
  assert (Hfail : (exists f, f ∈ image_files /\ loads imread f = false) ->
    exists f, f ∈ image_files /\ loads imread f = false /\ snd result = 1%Z /\
      ErrorReport (ValueError ("Failed to load image: " ++ path_str f)) ∈ fst result).
  { intros Hf. destruct (process_targets_load_failure builder image_files HM Hf)
      as (out & f & Hin & Hl & Hrun).
    exists f. rewrite (Hraise _ _ Hrun). cbn [fst snd].
    repeat split; try assumption. apply elem_of_app. right. constructor. }
  assert (Hnone : (forall f, f ∈ image_files -> loads imread f = true) ->
    (forall f, f ∈ image_files -> has_features imread detectAndCompute f = false) ->
    snd result = 1%Z /\
    ErrorReport (ValueError "No features extracted from any target images") ∈ fst result /\
    forall f, f ∈ image_files ->
      WarnNoFeaturesFound (path_str f) ∈ fst result /\ WarnSkipping (path_name f) ∈ fst result).
  { intros Hl Hn. destruct (process_targets_no_features builder image_files HM Hl Hn)
      as (out & Hrun & Hskip).
    rewrite (Hraise _ _ Hrun). cbn [fst snd]. split; [reflexivity|]. split.
    - apply elem_of_app. right. constructor.
    - intros f Hf. destruct (Hskip f Hf). split; apply elem_of_app; now left. }
  assert (Hgood : (forall f, f ∈ image_files -> loads imread f = true) ->
    (exists f, f ∈ image_files /\ has_features imread detectAndCompute f = true) ->
    snd result = 0%Z /\
    (exists out self',
       process builder image_files = (out, Ok self') /\
       map t_filename (self_targets self') = map path_name (filter usable image_files)) /\
    forall f, f ∈ image_files -> has_features imread detectAndCompute f = false ->
      WarnNoFeaturesFound (path_str f) ∈ fst result /\ WarnSkipping (path_name f) ∈ fst result).
  { intros Hl Hs. destruct (process_targets_ok builder image_files HM HV Hl Hs)
      as (out & self' & voc & idf & Hrun & _ & _ & _ & _ & Hnames & _ & Hskip).
    destruct (Hok _ _ Hrun) as (out' & Hres). rewrite Hres. cbn [fst snd].
    split; [reflexivity|]. split; [eauto|].
    intros f Hf Hnf. destruct (Hskip f Hf Hnf). split; apply elem_of_app; now left. }
  split; [|split; [|split; [|]]].
  - split.
    + intros Hone.
      destruct (all_or_some_false (loads imread) image_files) as [Hf|Hl]; [now left|].
      right.
      destruct (all_or_some_false (fun f => negb (has_features imread detectAndCompute f))
                  image_files) as [(f & Hin & Hf)|Hn].
      * apply negb_false_iff in Hf. destruct (Hgood Hl) as (H0 & _); [eauto|]. congruence.
      * intros f Hin. apply negb_true_iff. now apply Hn.
    + intros [Hf|Hn].
      * destruct (Hfail Hf) as (f & _ & _ & H1 & _). exact H1.
      * destruct (all_or_some_false (loads imread) image_files) as [Hf|Hl].
        -- destruct (Hfail Hf) as (f & _ & _ & H1 & _). exact H1.
        -- now destruct (Hnone Hl Hn).
  - intros Hone.
    destruct (all_or_some_false (loads imread) image_files) as [Hf|Hl].
    + destruct (Hfail Hf) as (f & _ & _ & _ & He). eauto.
    + destruct (all_or_some_false (fun f => negb (has_features imread detectAndCompute f))
                  image_files) as [(f & Hin & Hf)|Hn].
      * apply negb_false_iff in Hf. destruct (Hgood Hl) as (H0 & _); [eauto|]. congruence.
      * destruct (Hnone Hl) as (_ & He & _); [|eauto].
        intros f Hin. apply negb_true_iff. now apply Hn.
  - intros Hf. destruct (Hfail Hf) as (f & Hin & Hl & _ & He). eauto.
  - intros Hl. split; [|split].
    + intros f Hin Hnf.
      destruct (all_or_some_false (fun f => negb (has_features imread detectAndCompute f))
                  image_files) as [(g & Hg & Hgf)|Hn].
      * apply negb_false_iff in Hgf. destruct (Hgood Hl) as (_ & _ & Hskip); [eauto|].
        now apply Hskip.
      * destruct (Hnone Hl) as (_ & _ & Hskip); [|now apply Hskip].
        intros g Hg. apply negb_true_iff. now apply Hn.
    + intros Hn. now destruct (Hnone Hl Hn) as (_ & He & _).
    + intros Hs. destruct (Hgood Hl Hs) as (H0 & Hrun & _). auto.
Qed.

End Orchestration.

(** ** The stand-in collaborators meet their contracts *)

Lemma sample_kmeans_contract : kmeans_contract sample_kmeans.
Proof.
  intros n data Hn. unfold sample_kmeans.
  destruct (Z.leb_spec 1 n), (Z.leb_spec n (Z.of_nat (length data))); try lia.
  cbn [andb]. exists (take (Z.to_nat n) data).
  split; [reflexivity|]. split; [rewrite length_take; lia|].
  intros width Hw. now apply Forall_take.
Defined.

Lemma sample_detector_contract : detector_contract 2 sample_gray_shape sample_detect.
Proof.
  intros [|img] kps descs Hdet Hne; [|discriminate].
  injection Hdet as <- <-. split; [exact sample_detector_output|].
  repeat (apply List.Forall_cons;
          [split; [reflexivity | repeat (apply List.Forall_cons; [reflexivity|]);
                                 apply List.Forall_nil]|]).
  apply List.Forall_nil.
Defined.

Lemma sample_files_load : forall f, f ∈ sample_files -> loads sample_imread f = true.
Proof.
  intros f Hf. unfold sample_files in Hf.
  apply elem_of_cons in Hf as [->|Hf]; [reflexivity|].
  apply list_elem_of_singleton in Hf as ->. reflexivity.
Defined.

Lemma sample_files_usable :
  exists f, f ∈ sample_files /\ has_features sample_imread sample_detect f = true.
Proof.
  exists (sample_path "a.png" "a"). split; [constructor | reflexivity].
Defined.

Lemma build_vocabulary_size_witness :
  let n := length sample_descriptors in
  let V := self_vocabulary_size (sample_builder 1000) in
  exists out self' vocabulary,
    build_vocabulary sample_kmeans (sample_builder 1000) sample_descriptors = (out, Ok self') /\
    self_vocabulary self' = Some vocabulary /\
    Z.of_nat (length vocabulary) = Z.min V (Z.of_nat n) /\
    self_vocabulary_size self' = Z.of_nat (length vocabulary) /\
    0 < length vocabulary /\
    ((Z.of_nat n < V)%Z ->
     WarnFewerDescriptors n V ∈ out /\ ReducingVocabularySize n ∈ out) /\
    ((V <= Z.of_nat n)%Z ->
     forall e, e ∈ out ->
       e <> WarnFewerDescriptors n V /\ e <> ReducingVocabularySize n).
Proof.
  apply (build_vocabulary_size sample_kmeans sample_kmeans_contract
           (sample_builder 1000) sample_descriptors).
  - discriminate.
  - simpl. lia.
Defined.

Lemma tfidf_weight_per_target_witness :
  exists out self' voc idf,
    sample_process (sample_builder 2) sample_files = (out, Ok self') /\
    self_vocabulary self' = Some voc /\
    self_idf_weights self' = Some idf /\
    self_targets self' <> [] /\
    forall t, t ∈ self_targets self' ->
      exists (bow : gmap Z Z) (tfidf : gmap Z R),
        t_bow t = Some bow /\ t_bow_tfidf t = Some tfidf /\
        descriptors_to_bow (Some voc) (t_descriptors t) = Ok bow /\
        compute_tfidf_vector (Some idf) bow (t_num_features t) = Ok tfidf /\
        t_num_features t = Z.of_nat (length (t_keypoints t)) /\
        t_num_features t = Z.of_nat (length (t_descriptors t)) /\
        histogram_sum bow = t_num_features t /\
        forall w count, bow !! w = Some count ->
          exists x : R,
            idf !! Z.to_nat w = Some x /\
            tfidf !! w = Some (IZR count / IZR (t_num_features t) * x)%R.
Proof.
  apply (tfidf_weight_per_target sample_imread sample_gray_shape sample_detect
           sample_metadata tt sample_recommended sample_kmeans 2
           sample_detector_contract sample_kmeans_contract
           (sample_builder 2) sample_files).
  - simpl. lia.
  - simpl. lia.
  - exact sample_files_load.
  - exact sample_files_usable.
Defined.

(** C7, refuted as stated: [a.png] yields three features, and the build
    still ends with exit status 1 because [missing.png] fails to load; the
    failed load is not skipped. *)
Lemma load_failure_aborts_build :
  has_features sample_imread sample_detect (sample_path "a.png" "a") = true /\
  loads sample_imread (sample_path "missing.png" "missing") = false /\
  sample_main 1000 [sample_path "a.png" "a"; sample_path "missing.png" "missing"]
  = ([ProcessingTargets 2; ExtractingFeatures "a.png"; FoundFeatures 3 false;
      ExtractingFeatures "missing.png";
      ErrorReport (ValueError "Failed to load image: missing.png")], 1%Z).
Proof.
  repeat split.
Qed.

Lemma build_abort_conditions_witness :
  let result := sample_main 1000 sample_files in
  let builder := set_vocabulary_size (init 10 2) 1000 in
  (snd result = 1%Z <->
     (exists f, f ∈ sample_files /\ loads sample_imread f = false) \/
     (forall f, f ∈ sample_files -> has_features sample_imread sample_detect f = false)) /\
  (snd result = 1%Z -> exists e, ErrorReport e ∈ fst result) /\
  ((exists f, f ∈ sample_files /\ loads sample_imread f = false) ->
   exists f, f ∈ sample_files /\ loads sample_imread f = false /\
     ErrorReport (ValueError ("Failed to load image: " ++ path_str f)) ∈ fst result) /\
  ((forall f, f ∈ sample_files -> loads sample_imread f = true) ->
   (forall f, f ∈ sample_files -> has_features sample_imread sample_detect f = false ->
      WarnNoFeaturesFound (path_str f) ∈ fst result /\
      WarnSkipping (path_name f) ∈ fst result) /\
   ((forall f, f ∈ sample_files -> has_features sample_imread sample_detect f = false) ->
    ErrorReport (ValueError "No features extracted from any target images") ∈ fst result) /\
   ((exists f, f ∈ sample_files /\ has_features sample_imread sample_detect f = true) ->
    snd result = 0%Z /\
    exists out self',
      sample_process builder sample_files = (out, Ok self') /\
      map t_filename (self_targets self')
      = map path_name
          (filter (fun f => has_features sample_imread sample_detect f = true) sample_files))).
Proof.
  apply (build_abort_conditions sample_imread sample_gray_shape sample_detect
           sample_metadata tt sample_recommended sample_kmeans sample_export 2
           sample_detector_contract sample_kmeans_contract 10 2 1000 sample_files).
  - lia.
  - lia.
  - intros builder. exists []. reflexivity.
Defined.

(** Two equal pooled descriptors can become two equal centroids. *)
Example build_vocabulary_equal_centroids :
  exists out self',
    build_vocabulary sample_kmeans (sample_builder 2) [[3%N; 7%N]; [3%N; 7%N]]
    = (out, Ok self') /\
    self_vocabulary self' = Some [[3%N; 7%N]; [3%N; 7%N]].
Proof. eexists _, _. split; vm_compute; reflexivity. Qed.

(** * Further properties of the code *)

(** ** Quantizer: indices, errors and the distance *)

Lemma np_argmin_lt (a : list nat) (w : nat) : np_argmin a = Ok w -> w < length a.
Proof.
  intros Hw. destruct (decide (a = [])) as [->|Hne]; [discriminate|].
  destruct (np_argmin_spec a Hne) as (w' & rv & Hw' & Hrv & _).
  rewrite Hw in Hw'. injection Hw' as <-. eapply lookup_lt_Some; eauto.
Qed.

Lemma quantize_descriptor_range (d : Descriptor) (vocabulary : list Descriptor) (w : Z) :
  quantize_descriptor d vocabulary = Ok w -> (0 <= w < Z.of_nat (length vocabulary))%Z.
Proof.
  unfold quantize_descriptor. intros Hq.
  destruct (mapE (hamming d) vocabulary) as [dist|e] eqn:Hd; [|discriminate].
  cbn [bind] in Hq.
  destruct (np_argmin dist) as [i|e] eqn:Hi; [|discriminate].
  cbn [bind] in Hq. injection Hq as <-.
  apply np_argmin_lt in Hi. apply mapE_length in Hd. lia.
Qed.

(** X1. Whatever the shapes of its arguments, a word-id returned by
    [quantize_descriptor] is an index into the vocabulary; on an empty
    vocabulary there is no such index and the call raises [ValueError]. *)
Theorem quantize_descriptor_index (d : Descriptor) (vocabulary : list Descriptor) (w : Z) :
  quantize_descriptor d vocabulary = Ok w ->
  (0 <= w < Z.of_nat (length vocabulary))%Z /\
  vocabulary <> [] /\
  quantize_descriptor d []
  = Raise (ValueError "attempt to get argmin of an empty sequence").
Proof.
  intros Hq. pose proof (quantize_descriptor_range d vocabulary w Hq) as Hr.
  split; [assumption|]. split; [|reflexivity].
  intros ->. simpl in Hr. lia.
Qed.

Lemma quantize_descriptor_index_witness :
  (0 <= 1 < Z.of_nat (length [[255%N; 0%N]; [4%N; 0%N]; [1%N; 0%N]]))%Z /\
  [[255%N; 0%N]; [4%N; 0%N]; [1%N; 0%N]] <> [] /\
  quantize_descriptor [5%N; 0%N] []
  = Raise (ValueError "attempt to get argmin of an empty sequence").
Proof.
  apply (quantize_descriptor_index [5%N; 0%N] [[255%N; 0%N]; [4%N; 0%N]; [1%N; 0%N]] 1).
  reflexivity.
Defined.

Lemma count_ones_byte (b : N) : (b < 256)%N -> count_ones b <= 8.
Proof.
  intros Hb. destruct b as [|p]; [simpl; lia|].
  do 8 (destruct p as [p|p|]; [| |simpl; lia]); simpl; try lia.
  all: exfalso; lia.
Qed.

Lemma count_ones_pos_lxor_le (p : positive) : forall q : positive,
  count_ones (Pos.lxor p q) <= count_ones_pos p + count_ones_pos q.
Proof.
  induction p as [p IH|p IH|]; intros [q|q|];
    cbv beta iota delta [Pos.lxor]; fold Pos.lxor; cbn [count_ones_pos];
    try (specialize (IH q); destruct (Pos.lxor p q); cbn in *; lia);
    cbn; lia.
Qed.

Lemma count_ones_lxor_le (a b : N) :
  count_ones (N.lxor a b) <= count_ones a + count_ones b.
Proof.
  destruct a as [|p], b as [|q].
  - rewrite N.lxor_0_l. lia.
  - rewrite N.lxor_0_l. lia.
  - rewrite N.lxor_0_r. lia.
  - apply count_ones_pos_lxor_le.
Qed.

Lemma differing_bits_sym (a b : Descriptor) : differing_bits a b = differing_bits b a.
Proof.
  unfold differing_bits. revert b.
  induction a as [|x a IH]; intros [|y b]; simpl; try reflexivity.
  now rewrite IH, N.lxor_comm.
Qed.

Lemma differing_bits_bound (a b : Descriptor) :
  uint8_row a -> uint8_row b -> differing_bits a b <= 8 * length a.
Proof.
  unfold differing_bits. intros Ha. revert b.
  induction Ha as [|x a Hx Ha IH]; intros b Hb; [simpl; lia|].
  destruct Hb as [|y b Hy Hb]; [simpl; lia|].
  cbn [zip_with sum_list_with sum_list length]. specialize (IH b Hb).
  pose proof (count_ones_byte (N.lxor x y) (lxor_byte x y Hx Hy)). simpl in *. lia.
Qed.

Lemma differing_bits_triangle (a b c : Descriptor) :
  length a = length b -> length b = length c ->
  differing_bits a c <= differing_bits a b + differing_bits b c.
Proof.
  unfold differing_bits. revert b c.
  induction a as [|x a IH]; intros [|y b] [|z c] Hab Hbc; simpl in *; try lia.
  specialize (IH b c). 
  assert (Hx : count_ones (N.lxor x z) <= count_ones (N.lxor x y) + count_ones (N.lxor y z)).
  { replace (N.lxor x z) with (N.lxor (N.lxor x y) (N.lxor y z)).
    - apply count_ones_lxor_le.
    - rewrite N.lxor_assoc, <- (N.lxor_assoc y y z), N.lxor_nilpotent, N.lxor_0_l.
      reflexivity. }
  lia.
Qed.

(** X2. On byte rows of one length the distance that the code computes, by
    XOR, [int.from_bytes] and counting the 1 digits, is a metric bounded by
    the number of bits: it is symmetric, it is 0 exactly between equal
    rows, it is at most eight times the row length, and it obeys the
    triangle inequality. *)
Theorem hamming_is_metric (D : nat) (a b c : Descriptor) :
  descriptor_rows D [a; b; c] ->
  exists dab dba dbc dac : nat,
    hamming a b = Ok dab /\ hamming b a = Ok dba /\
    hamming b c = Ok dbc /\ hamming a c = Ok dac /\
    dab = dba /\
    (dab = 0 <-> a = b) /\
    dab <= 8 * D /\
    dac <= dab + dbc.
Proof.
  intros Hrows. unfold descriptor_rows in Hrows.
  apply Forall_cons in Hrows as [[Hla Hua] Hrows].
  apply Forall_cons in Hrows as [[Hlb Hub] Hrows].
  apply Forall_cons in Hrows as [[Hlc Huc] _].
  exists (differing_bits a b), (differing_bits b a), (differing_bits b c),
         (differing_bits a c).
  rewrite !hamming_differing_bits by (congruence || assumption).
  repeat (split; [reflexivity|]).
  split; [apply differing_bits_sym|].
  split; [apply differing_bits_zero; congruence|].
  split; [rewrite <- Hla; now apply differing_bits_bound|].
  apply differing_bits_triangle; congruence.
Qed.

Lemma hamming_is_metric_witness :
  exists dab dba dbc dac : nat,
    hamming [5%N; 0%N] [255%N; 0%N] = Ok dab /\
    hamming [255%N; 0%N] [5%N; 0%N] = Ok dba /\
    hamming [255%N; 0%N] [4%N; 1%N] = Ok dbc /\
    hamming [5%N; 0%N] [4%N; 1%N] = Ok dac /\
    dab = dba /\
    (dab = 0 <-> [5%N; 0%N] = [255%N; 0%N]) /\
    dab <= 8 * 2 /\
    dac <= dab + dbc.
Proof.
  apply (hamming_is_metric 2 [5%N; 0%N] [255%N; 0%N] [4%N; 1%N]).
  repeat (apply List.Forall_cons;
          [split; [reflexivity | repeat (apply List.Forall_cons; [reflexivity|]);
                                 apply List.Forall_nil]|]).
  apply List.Forall_nil.
Defined.

(** ** Bag of words: what the histogram counts *)

Lemma lookup_bow_add (bow : gmap Z Z) (w w' : Z) :
  default 0%Z (bow_add bow w !! w')
  = (default 0%Z (bow !! w') + if decide (w = w') then 1 else 0)%Z.
Proof.
  unfold bow_add. destruct (decide (w = w')) as [->|Hne].
  - rewrite lookup_insert_eq. simpl. lia.
  - rewrite lookup_insert_ne by assumption. lia.
Qed.

Lemma bow_add_positive (bow : gmap Z Z) (w : Z) :
  (forall w' c, bow !! w' = Some c -> (1 <= c)%Z) ->
  forall w' c, bow_add bow w !! w' = Some c -> (1 <= c)%Z.
Proof.
  intros Hpos w' c Hc. unfold bow_add in Hc.
  apply lookup_insert_Some in Hc as [[<- <-]|[_ Hc]]; [|eauto].
  destruct (bow !! w) as [c0|] eqn:Hw; simpl; [specialize (Hpos w c0 Hw)|]; lia.
Qed.

Lemma bow_add_size (bow : gmap Z Z) (w : Z) : size (bow_add bow w) <= S (size bow).
Proof.
  unfold bow_add. destruct (bow !! w) as [c|] eqn:Hw.
  - rewrite map_size_insert_Some by eauto. lia.
  - rewrite map_size_insert_None by assumption. lia.
Qed.

(** The loop of [descriptors_to_bow], started from any histogram. *)
Lemma descriptors_to_bow_counts (voc : list Descriptor) (descriptors : list Descriptor) :
  forall bow0 bow : gmap Z Z,
    foldE (fun bow desc =>
             let! word_id <- quantize_descriptor desc voc ; Ok (bow_add bow word_id))
      bow0 descriptors = Ok bow ->
    (forall w, default 0%Z (bow !! w)
               = (default 0%Z (bow0 !! w) + Z.of_nat (occurrences voc descriptors w))%Z) /\
    ((forall w c, bow0 !! w = Some c -> (1 <= c)%Z) ->
     forall w c, bow !! w = Some c -> (1 <= c)%Z) /\
    size bow <= size bow0 + length descriptors.
Proof.
  induction descriptors as [|d ds IH]; intros bow0 bow; cbn [foldE].
  - intros [= <-]. split; [|split]; [|auto|simpl; lia].
    intros w. unfold occurrences. simpl. lia.
  - destruct (quantize_descriptor d voc) as [wd|e] eqn:Hq; cbn [bind]; [|discriminate].
    intros Hfold. destruct (IH _ _ Hfold) as (Hcount & Hpos & Hsize).
    split; [|split].
    + intros w. rewrite Hcount, lookup_bow_add. unfold occurrences.
      rewrite filter_cons.
      assert (Hqt : quantizes_to voc w d = (wd =? w)%Z)
        by (unfold quantizes_to; now rewrite Hq).
      rewrite Hqt.
      destruct (decide (wd = w)) as [->|Hne].
      * rewrite Z.eqb_refl. destruct (decide (true = true)); [|congruence].
        cbn [length]. lia.
      * rewrite (proj2 (Z.eqb_neq wd w) Hne).
        destruct (decide (false = true)); [congruence|]. lia.
    + intros Hp. apply Hpos. now apply bow_add_positive.
    + pose proof (bow_add_size bow0 wd). cbn [length]. lia.
Qed.

Lemma occurrences_in_range (voc : list Descriptor) (descriptors : list Descriptor) (w : Z) :
  0 < occurrences voc descriptors w -> (0 <= w < Z.of_nat (length voc))%Z.
Proof.
  unfold occurrences. intros Hpos.
  destruct (filter (fun d => quantizes_to voc w d = true) descriptors) as [|d l] eqn:Hf;
    [simpl in Hpos; lia|].
  assert (Hin : d ∈ filter (fun d => quantizes_to voc w d = true) descriptors)
    by (rewrite Hf; constructor).
  apply list_elem_of_filter in Hin as [Hq _]. unfold quantizes_to in Hq.
  destruct (quantize_descriptor d voc) as [w'|e] eqn:Hw; [|discriminate].
  apply Z.eqb_eq in Hq as ->.
  now apply (quantize_descriptor_range d voc).
Qed.

Lemma descriptors_to_bow_lookup (D : nat) (voc : list Descriptor) (descriptors : list Descriptor) :
  voc <> [] -> descriptor_rows D voc -> descriptor_rows D descriptors ->
  exists bow,
    descriptors_to_bow (Some voc) descriptors = Ok bow /\
    forall w, bow !! w = if (occurrences voc descriptors w =? 0)%nat then None
                         else Some (Z.of_nat (occurrences voc descriptors w)).
Proof.
  intros Hne Hvoc Hdescs.
  destruct (descriptors_to_bow_ok D voc descriptors Hne Hvoc Hdescs) as (bow & Hbow & _).
  exists bow. split; [assumption|].
  destruct (descriptors_to_bow_counts voc descriptors ∅ bow Hbow) as (Hcount & Hpos & _).
  intros w. specialize (Hcount w). rewrite lookup_empty in Hcount. simpl in Hcount.
  destruct (bow !! w) as [c|] eqn:Hw; simpl in Hcount.
  - assert (1 <= c)%Z.
    { apply (Hpos ltac:(intros ? ? Hc; rewrite lookup_empty in Hc; discriminate) w c Hw). }
    destruct (Nat.eqb_spec (occurrences voc descriptors w) 0); [lia|]. now subst c.
  - destruct (Nat.eqb_spec (occurrences voc descriptors w) 0); [reflexivity | lia].
Qed.

(** X3. The histogram of [descriptors_to_bow] holds, under each word-id,
    the number of descriptors whose nearest centroid is that word, and has
    no entry for a word that is nearest to none: every key is an index into
    the vocabulary, every count lies between 1 and the number of
    descriptors, and there are no more entries than descriptors. *)
Theorem histogram_counts_nearest_words (D : nat) (voc : list Descriptor)
  (descriptors : list Descriptor) :
  voc <> [] -> descriptor_rows D voc -> descriptor_rows D descriptors ->
  exists bow,
    descriptors_to_bow (Some voc) descriptors = Ok bow /\
    (forall w, bow !! w = if (occurrences voc descriptors w =? 0)%nat then None
                          else Some (Z.of_nat (occurrences voc descriptors w))) /\
    (forall w c, bow !! w = Some c ->
       (0 <= w < Z.of_nat (length voc))%Z /\
       (1 <= c <= Z.of_nat (length descriptors))%Z) /\
    size bow <= length descriptors.
Proof.
  intros Hne Hvoc Hdescs.
  destruct (descriptors_to_bow_lookup D voc descriptors Hne Hvoc Hdescs) as (bow & Hbow & Hlook).
  exists bow. split; [assumption|]. split; [assumption|]. split.
  - intros w c Hc. rewrite Hlook in Hc.
    destruct (Nat.eqb_spec (occurrences voc descriptors w) 0); [discriminate|].
    injection Hc as <-.
    split; [apply (occurrences_in_range voc descriptors); lia|].
    pose proof (length_filter (fun d => quantizes_to voc w d = true) descriptors).
    unfold occurrences in *. lia.
  - destruct (descriptors_to_bow_counts voc descriptors ∅ bow Hbow) as (_ & _ & Hsize).
    rewrite map_size_empty in Hsize. lia.
Qed.

Lemma sample_vocabulary_rows : descriptor_rows 2 [[1%N; 0%N]; [3%N; 255%N]].
Proof.
  repeat (apply List.Forall_cons;
          [split; [reflexivity | repeat (apply List.Forall_cons; [reflexivity|]);
                                 apply List.Forall_nil]|]).
  apply List.Forall_nil.
Defined.

Lemma sample_descriptors_rows : descriptor_rows 2 sample_descriptors.
Proof.
  repeat (apply List.Forall_cons;
          [split; [reflexivity | repeat (apply List.Forall_cons; [reflexivity|]);
                                 apply List.Forall_nil]|]).
  apply List.Forall_nil.
Defined.

Lemma histogram_counts_nearest_words_witness :
  exists bow,
    descriptors_to_bow (Some [[1%N; 0%N]; [3%N; 255%N]]) sample_descriptors = Ok bow /\
    (forall w, bow !! w
               = if (occurrences [[1%N; 0%N]; [3%N; 255%N]] sample_descriptors w =? 0)%nat
                 then None
                 else Some (Z.of_nat (occurrences [[1%N; 0%N]; [3%N; 255%N]]
                                        sample_descriptors w))) /\
    (forall w c, bow !! w = Some c ->
       (0 <= w < Z.of_nat (length [[1%N; 0%N]; [3%N; 255%N]]))%Z /\
       (1 <= c <= Z.of_nat (length sample_descriptors))%Z) /\
    size bow <= length sample_descriptors.
Proof.
  apply (histogram_counts_nearest_words 2).
  - discriminate.
  - exact sample_vocabulary_rows.
  - exact sample_descriptors_rows.
Defined.

Lemma occurrences_permutation (voc : list Descriptor) (l l' : list Descriptor) (w : Z) :
  Permutation l l' -> occurrences voc l w = occurrences voc l' w.
Proof.
  unfold occurrences. induction 1 as [|x l l' Hp IH|x y l|l l' l'' H1 IH1 H2 IH2].
  - reflexivity.
  - rewrite !filter_cons. destruct (decide (quantizes_to voc w x = true)); simpl; lia.
  - rewrite !filter_cons.
    destruct (decide (quantizes_to voc w x = true)), (decide (quantizes_to voc w y = true));
      reflexivity.
  - congruence.
Qed.

(** X4. The histogram does not depend on the order of the descriptors:
    [descriptors_to_bow] gives the same dictionary on any rearrangement of
    its input. *)
Theorem descriptors_to_bow_order_independent (D : nat) (voc : list Descriptor)
  (descriptors descriptors' : list Descriptor) :
  voc <> [] -> descriptor_rows D voc -> descriptor_rows D descriptors ->
  Permutation descriptors descriptors' ->
  exists bow,
    descriptors_to_bow (Some voc) descriptors = Ok bow /\
    descriptors_to_bow (Some voc) descriptors' = Ok bow.
Proof.
  intros Hne Hvoc Hdescs Hperm.
  assert (Hdescs' : descriptor_rows D descriptors').
  { unfold descriptor_rows in *. now rewrite <- Hperm. }
  destruct (descriptors_to_bow_lookup D voc descriptors Hne Hvoc Hdescs) as (bow & Hbow & Hl).
  destruct (descriptors_to_bow_lookup D voc descriptors' Hne Hvoc Hdescs') as (bow' & Hbow' & Hl').
  exists bow. split; [assumption|]. rewrite Hbow'. f_equal.
  apply map_eq. intros w. rewrite Hl, Hl'.
  now rewrite (occurrences_permutation voc descriptors descriptors' w Hperm).
Qed.

Lemma descriptors_to_bow_order_independent_witness :
  exists bow,
    descriptors_to_bow (Some [[1%N; 0%N]; [3%N; 255%N]])
      [[1%N; 0%N]; [2%N; 0%N]; [3%N; 255%N]] = Ok bow /\
    descriptors_to_bow (Some [[1%N; 0%N]; [3%N; 255%N]])
      [[3%N; 255%N]; [1%N; 0%N]; [2%N; 0%N]] = Ok bow.
Proof.
  apply (descriptors_to_bow_order_independent 2).
  - discriminate.
  - exact sample_vocabulary_rows.
  - exact sample_descriptors_rows.
  - apply Permutation_sym, (Permutation_cons_append [[1%N; 0%N]; [2%N; 0%N]] [3%N; 255%N]).
Defined.

(** ** IDF table: order, errors and the shape of the weights *)

Lemma targets_containing_permutation (bows bows' : list (gmap Z Z)) (w : Z) :
  Permutation bows bows' -> targets_containing bows w = targets_containing bows' w.
Proof.
  unfold targets_containing. induction 1 as [|x l l' Hp IH|x y l|l l' l'' H1 IH1 H2 IH2].
  - reflexivity.
  - rewrite !filter_cons. destruct (decide (is_Some (x !! w))); simpl; lia.
  - rewrite !filter_cons.
    destruct (decide (is_Some (x !! w))), (decide (is_Some (y !! w))); reflexivity.
  - congruence.
Qed.

(** X5. The IDF table does not depend on the order in which the targets
    are given: [compute_idf] returns the same weights on any rearrangement
    of the list of histograms. *)
Theorem compute_idf_order_independent (V : Z) (bows bows' : list (gmap Z Z)) :
  (0 <= V)%Z ->
  Forall (word_ids_in_range V) bows ->
  Permutation bows bows' ->
  exists idf, compute_idf V bows = Ok idf /\ compute_idf V bows' = Ok idf.
Proof.
  intros HV Hr Hperm.
  assert (Hr' : Forall (word_ids_in_range V) bows') by now rewrite <- Hperm.
  destruct (document_frequency_spec V bows HV Hr) as (df & Hdf & Hlen & Hget).
  destruct (document_frequency_spec V bows' HV Hr') as (df' & Hdf' & Hlen' & Hget').
  assert (Heq : df = df').
  { apply list_eq. intros i. destruct (decide (i < Z.to_nat V)) as [Hi|Hi].
    - specialize (Hget (Z.of_nat i)). specialize (Hget' (Z.of_nat i)).
      rewrite Nat2Z.id in Hget, Hget'. rewrite Hget, Hget' by lia.
      now rewrite (targets_containing_permutation bows bows' _ Hperm).
    - rewrite !(proj2 (lookup_ge_None _ _)) by lia. reflexivity. }
  subst df'. exists (map (idf_weight (length bows)) df).
  unfold compute_idf. rewrite Hdf, Hdf'. cbn [bind].
  now rewrite (Permutation_length Hperm).
Qed.

Lemma compute_idf_order_independent_witness :
  exists idf,
    compute_idf 4 [{[2%Z := 5%Z]}; {[2%Z := 1%Z; 0%Z := 3%Z]}] = Ok idf /\
    compute_idf 4 [{[2%Z := 1%Z; 0%Z := 3%Z]}; {[2%Z := 5%Z]}] = Ok idf.
Proof.
  apply (compute_idf_order_independent 4).
  - lia.
  - repeat (apply List.Forall_cons; [intros w [c Hc]|]); [| |apply List.Forall_nil].
    + apply lookup_singleton_Some in Hc as [<- _]. lia.
    + apply lookup_insert_Some in Hc as [[<- _]|[_ Hc]]; [lia|].
      apply lookup_singleton_Some in Hc as [<- _]. lia.
  - apply perm_swap.
Defined.

Lemma np_index_cases (n : nat) (i : Z) :
  ((- Z.of_nat n <= i < Z.of_nat n)%Z -> exists j, np_index n i = Ok j /\ j < n) /\
  (~ (- Z.of_nat n <= i < Z.of_nat n)%Z -> np_index n i = Raise IndexError).
Proof.
  unfold np_index. split; intros Hr.
  - destruct (Z.leb_spec 0 i), (Z.ltb_spec i (Z.of_nat n)), (Z.leb_spec (- Z.of_nat n) i),
             (Z.ltb_spec i 0); cbn [andb]; try lia;
      (eexists; split; [reflexivity | lia]).
  - destruct (Z.leb_spec 0 i), (Z.ltb_spec i (Z.of_nat n)), (Z.leb_spec (- Z.of_nat n) i),
             (Z.ltb_spec i 0); cbn [andb]; try lia; reflexivity.
Qed.

Lemma df_incr_cases (df : list Z) (w : Z) :
  ((- Z.of_nat (length df) <= w < Z.of_nat (length df))%Z ->
   exists df', df_incr df w = Ok df' /\ length df' = length df) /\
  (~ (- Z.of_nat (length df) <= w < Z.of_nat (length df))%Z ->
   df_incr df w = Raise IndexError).
Proof.
  unfold df_incr. destruct (np_index_cases (length df) w) as [Hin Hout]. split.
  - intros Hw. destruct (Hin Hw) as (j & -> & Hj). cbn [bind].
    destruct (lookup_lt_is_Some_2 df j Hj) as [c ->].
    eexists. split; [reflexivity|]. apply length_insert.
  - intros Hw. now rewrite (Hout Hw).
Qed.

Lemma foldE_df_incr_cases (keys : list Z) : forall df : list Z,
  (Forall (fun w => (- Z.of_nat (length df) <= w < Z.of_nat (length df))%Z) keys ->
   exists df', foldE df_incr df keys = Ok df' /\ length df' = length df) /\
  (~ Forall (fun w => (- Z.of_nat (length df) <= w < Z.of_nat (length df))%Z) keys ->
   foldE df_incr df keys = Raise IndexError).
Proof.
  induction keys as [|k keys IH]; intros df; cbn [foldE].
  - split; [eauto|]. intros H. exfalso. apply H. constructor.
  - destruct (df_incr_cases df k) as [Hin Hout].
    destruct (decide (- Z.of_nat (length df) <= k < Z.of_nat (length df))%Z) as [Hk|Hk].
    + destruct (Hin Hk) as (df1 & -> & Hlen1). cbn [bind].
      destruct (IH df1) as [IHin IHout]. rewrite Hlen1 in IHin, IHout. split.
      * intros Hall. apply Forall_cons in Hall as [_ Hall].
        destruct (IHin Hall) as (df' & -> & Hlen). eauto.
      * intros Hnot. apply IHout. intros Hall. apply Hnot. now constructor.
    + rewrite (Hout Hk). cbn [bind]. split; [|reflexivity].
      intros Hall. apply Forall_cons in Hall as [Hk' _]. contradiction.
Qed.

Lemma foldE_bows_cases (bows : list (gmap Z Z)) : forall df : list Z,
  let ok := fun bow : gmap Z Z =>
    forall w, is_Some (bow !! w) ->
      (- Z.of_nat (length df) <= w < Z.of_nat (length df))%Z in
  ((forall bow, bow ∈ bows -> ok bow) ->
   exists df',
     foldE (fun df bow => foldE df_incr df (map fst (map_to_list bow))) df bows = Ok df' /\
     length df' = length df) /\
  ((exists bow, bow ∈ bows /\ ~ ok bow) ->
   foldE (fun df bow => foldE df_incr df (map fst (map_to_list bow))) df bows
   = Raise IndexError).
Proof.
  induction bows as [|bow bows IH]; intros df ok; cbn [foldE].
  - split; [eauto|]. intros (bow & Hin & _). inversion Hin.
  - assert (Hkeys : Forall (fun w => (- Z.of_nat (length df) <= w < Z.of_nat (length df))%Z)
                      (map fst (map_to_list bow)) <-> ok bow).
    { rewrite Forall_forall. split.
      - intros Hall w [c Hc]. apply Hall. apply list_elem_of_fmap.
        exists (w, c). split; [reflexivity|]. now apply elem_of_map_to_list.
      - intros Hok w Hin. apply list_elem_of_fmap in Hin as ([w' c] & -> & Hin).
        apply elem_of_map_to_list in Hin. apply Hok. simpl. eauto. }
    destruct (foldE_df_incr_cases (map fst (map_to_list bow)) df) as [Hin Hout].
    destruct (decide (Forall (fun w => (- Z.of_nat (length df) <= w < Z.of_nat (length df))%Z)
                        (map fst (map_to_list bow)))) as [Hall|Hnot].
    + destruct (Hin Hall) as (df1 & -> & Hlen1). cbn [bind].
      destruct (IH df1) as [IHin IHout]. rewrite Hlen1 in IHin, IHout. split.
      * intros Hok. destruct IHin as (df' & -> & Hlen); [|eauto].
        intros b Hb. apply Hok. now constructor.
      * intros (b & Hb & Hbad). apply IHout.
        apply elem_of_cons in Hb as [->|Hb]; [|eauto].
        exfalso. apply Hbad. now apply Hkeys.
    + rewrite (Hout Hnot). cbn [bind]. split; [|reflexivity].
      intros Hok. exfalso. apply Hnot, Hkeys, Hok. constructor.
Qed.

(** X6. The bounds check of [df[word_id] += 1] decides the fate of
    [compute_idf]: with a negative [vocabulary_size] the call raises
    [ValueError]; otherwise it returns a table of [vocabulary_size] weights
    when every word-id of every histogram lies in
    [[-vocabulary_size, vocabulary_size)], and raises [IndexError] as soon
    as one does not. *)
Theorem compute_idf_index_errors (V : Z) (bows : list (gmap Z Z)) :
  let in_bounds := fun bow : gmap Z Z =>
    forall w, is_Some (bow !! w) -> (- V <= w < V)%Z in
  ((V < 0)%Z ->
   compute_idf V bows = Raise (ValueError "negative dimensions are not allowed")) /\
  ((0 <= V)%Z -> (forall bow, bow ∈ bows -> in_bounds bow) ->
   exists idf, compute_idf V bows = Ok idf /\ length idf = Z.to_nat V) /\
  ((0 <= V)%Z -> (exists bow, bow ∈ bows /\ ~ in_bounds bow) ->
   compute_idf V bows = Raise IndexError).
Proof.
  intros in_bounds. unfold compute_idf, document_frequency, np_zeros.
  split; [|split].
  - intros HV. now rewrite (proj2 (Z.ltb_lt V 0) HV).
  - intros HV Hok. rewrite (proj2 (Z.ltb_ge V 0) HV). cbn [bind].
    destruct (foldE_bows_cases bows (replicate (Z.to_nat V) 0%Z)) as [Hin _].
    rewrite length_replicate, Z2Nat.id in Hin by assumption.
    destruct (Hin Hok) as (df & -> & Hlen). cbn [bind].
    eexists. split; [reflexivity|]. now rewrite length_map, Hlen.
  - intros HV Hbad. rewrite (proj2 (Z.ltb_ge V 0) HV). cbn [bind].
    destruct (foldE_bows_cases bows (replicate (Z.to_nat V) 0%Z)) as [_ Hout].
    rewrite length_replicate, Z2Nat.id in Hout by assumption.
    now rewrite (Hout Hbad).
Qed.

Lemma idf_weight_decreasing (N : nat) (d1 d2 : Z) :
  (0 <= d1 < d2)%Z -> (idf_weight N d2 < idf_weight N d1)%R.
Proof.
  intros [H0 Hlt]. unfold idf_weight.
  assert (H1 : (0 < IZR d1 + 1)%R) by (apply IZR_le in H0; lra).
  assert (H2 : (IZR d1 + 1 < IZR d2 + 1)%R) by (apply IZR_lt in Hlt; lra).
  assert (HN : (0 < INR N + 1)%R) by (pose proof (pos_INR N); lra).
  apply ln_increasing.
  - apply Rdiv_lt_0_compat; lra.
  - unfold Rdiv. apply Rmult_lt_compat_l; [assumption|].
    apply Rinv_lt_contravar; [|assumption]. apply Rmult_lt_0_compat; lra.
Qed.

Lemma idf_weight_absent (N : nat) : idf_weight N 0 = ln (INR N + 1).
Proof. unfold idf_weight. f_equal. field. Qed.

(** X7. The IDF table ranks words by rarity: of two words the one found in
    fewer targets gets the strictly larger weight, words found in equally
    many targets get equal weights, and no weight exceeds [ln(N + 1)], the
    weight of a word that no target contains. *)
Theorem idf_ranks_words_by_rarity (V : Z) (bows : list (gmap Z Z)) :
  (0 <= V)%Z ->
  Forall (word_ids_in_range V) bows ->
  exists idf : list R,
    compute_idf V bows = Ok idf /\
    forall (w1 w2 : Z) (x1 x2 : R),
      (0 <= w1 < V)%Z -> (0 <= w2 < V)%Z ->
      idf !! Z.to_nat w1 = Some x1 -> idf !! Z.to_nat w2 = Some x2 ->
      (targets_containing bows w1 < targets_containing bows w2 -> (x2 < x1)%R) /\
      (targets_containing bows w1 = targets_containing bows w2 -> x1 = x2) /\
      (x1 <= ln (INR (length bows) + 1))%R /\
      (x1 = ln (INR (length bows) + 1) <-> targets_containing bows w1 = 0).
Proof.
  intros HV Hr.
  destruct (document_frequency_spec V bows HV Hr) as (df & Hdf & Hlen & Hget).
  exists (map (idf_weight (length bows)) df).
  split; [unfold compute_idf; now rewrite Hdf|].
  intros w1 w2 x1 x2 Hw1 Hw2 Hx1 Hx2.
  rewrite list_lookup_fmap, (Hget w1 Hw1) in Hx1. injection Hx1 as <-.
  rewrite list_lookup_fmap, (Hget w2 Hw2) in Hx2. injection Hx2 as <-.
  set (t1 := targets_containing bows w1). set (t2 := targets_containing bows w2).
  split; [|split; [|split]].
  - intros Hlt. apply idf_weight_decreasing. lia.
  - intros Heq. now rewrite Heq.
  - destruct (decide (t1 = 0)) as [->|Hne].
    + change (Z.of_nat 0) with 0%Z. rewrite idf_weight_absent. lra.
    + rewrite <- idf_weight_absent. left. apply idf_weight_decreasing. lia.
  - split.
    + intros Heq. destruct (decide (t1 = 0)) as [|Hne]; [assumption|].
      rewrite <- idf_weight_absent in Heq.
      assert (idf_weight (length bows) (Z.of_nat t1) < idf_weight (length bows) 0)%R
        by (apply idf_weight_decreasing; lia).
      lra.
    + intros ->. apply idf_weight_absent.
Qed.

Lemma idf_ranks_words_by_rarity_witness :
  exists idf : list R,
    compute_idf 4 [{[2%Z := 5%Z]}; {[2%Z := 1%Z; 0%Z := 3%Z]}] = Ok idf /\
    forall (w1 w2 : Z) (x1 x2 : R),
      (0 <= w1 < 4)%Z -> (0 <= w2 < 4)%Z ->
      idf !! Z.to_nat w1 = Some x1 -> idf !! Z.to_nat w2 = Some x2 ->
      (targets_containing [{[2%Z := 5%Z]}; {[2%Z := 1%Z; 0%Z := 3%Z]}] w1
       < targets_containing [{[2%Z := 5%Z]}; {[2%Z := 1%Z; 0%Z := 3%Z]}] w2 ->
       (x2 < x1)%R) /\
      (targets_containing [{[2%Z := 5%Z]}; {[2%Z := 1%Z; 0%Z := 3%Z]}] w1
       = targets_containing [{[2%Z := 5%Z]}; {[2%Z := 1%Z; 0%Z := 3%Z]}] w2 -> x1 = x2) /\
      (x1 <= ln (INR (length [({[2%Z := 5%Z]} : gmap Z Z); {[2%Z := 1%Z; 0%Z := 3%Z]}]) + 1))%R /\
      (x1 = ln (INR (length [({[2%Z := 5%Z]} : gmap Z Z); {[2%Z := 1%Z; 0%Z := 3%Z]}]) + 1)
       <-> targets_containing [{[2%Z := 5%Z]}; {[2%Z := 1%Z; 0%Z := 3%Z]}] w1 = 0).
Proof.
  apply (idf_ranks_words_by_rarity 4).
  - lia.
  - repeat (apply List.Forall_cons; [intros w [c Hc]|]); [| |apply List.Forall_nil].
    + apply lookup_singleton_Some in Hc as [<- _]. lia.
    + apply lookup_insert_Some in Hc as [[<- _]|[_ Hc]]; [lia|].
      apply lookup_singleton_Some in Hc as [<- _]. lia.
Defined.

(** ** TF-IDF vector: errors and the plain term frequencies *)

Lemma idf_lookup_cases (ws : option (list R)) (w : Z) :
  (exists x, idf_lookup ws w = Ok x) \/ idf_lookup ws w = Raise IndexError.
Proof.
  destruct ws as [ws|]; [|left; eexists; reflexivity]. cbn [idf_lookup].
  unfold np_getitem. destruct (np_index_cases (length ws) w) as [Hin Hout].
  destruct (decide (- Z.of_nat (length ws) <= w < Z.of_nat (length ws))%Z) as [Hw|Hw].
  - destruct (Hin Hw) as (j & -> & Hj). cbn [bind].
    destruct (lookup_lt_is_Some_2 ws j Hj) as [x ->]. left. eauto.
  - right. now rewrite (Hout Hw).
Qed.

Lemma foldE_tfidf_step_index_error (ws : option (list R)) (num : Z) (l : list (Z * Z)) :
  num <> 0%Z ->
  (exists item, item ∈ l /\ idf_lookup ws (fst item) = Raise IndexError) ->
  forall acc, foldE (tfidf_step ws num) acc l = Raise IndexError.
Proof.
  intros Hnum. induction l as [|[w c] l IH]; intros (item & Hin & Hbad) acc.
  - inversion Hin.
  - cbn [foldE tfidf_step]. unfold int_truediv.
    destruct (Z.eqb_spec num 0) as [|_]; [contradiction|]. cbn [bind].
    destruct (idf_lookup_cases ws w) as [[x Hx]|Hx].
    + rewrite Hx. cbn [bind]. apply IH.
      apply elem_of_cons in Hin as [->|Hin]; [simpl in Hbad; congruence | eauto].
    + now rewrite Hx.
Qed.

(** X8. The failures of [compute_tfidf_vector]: an empty histogram gives
    the empty vector whatever the other arguments are; a non-empty
    histogram with [num_features = 0] raises [ZeroDivisionError]; and with a
    non-zero [num_features], a word-id outside the IDF table raises
    [IndexError]. *)
Theorem compute_tfidf_vector_failures (ws : option (list R)) (bow : gmap Z Z) (num : Z) :
  compute_tfidf_vector ws ∅ num = Ok ∅ /\
  (bow <> ∅ -> compute_tfidf_vector ws bow 0 = Raise ZeroDivisionError) /\
  (num <> 0%Z ->
   (exists w, is_Some (bow !! w) /\ idf_lookup ws w = Raise IndexError) ->
   compute_tfidf_vector ws bow num = Raise IndexError).
Proof.
  split; [|split].
  - unfold compute_tfidf_vector. now rewrite map_to_list_empty.
  - intros Hne. unfold compute_tfidf_vector.
    destruct (map_to_list bow) as [|[w c] l] eqn:Hl.
    + apply map_to_list_empty_iff in Hl. contradiction.
    + reflexivity.
  - intros Hnum (w & [c Hc] & Hbad). unfold compute_tfidf_vector.
    apply foldE_tfidf_step_index_error; [assumption|].
    exists (w, c). split; [now apply elem_of_map_to_list | assumption].
Qed.

Lemma weight_sum_insert (v : gmap Z R) (w : Z) (x : R) :
  v !! w = None -> weight_sum (<[w := x]> v) = (x + weight_sum v)%R.
Proof.
  intros Hw. unfold weight_sum.
  apply (map_fold_insert_L (fun _ x acc => (x + acc)%R)); [|assumption].
  intros. lra.
Qed.

Lemma weight_sum_fmap (bow : gmap Z Z) (num : Z) :
  weight_sum ((fun c : Z => (IZR c / IZR num * 1)%R) <$> bow)
  = (IZR (histogram_sum bow) / IZR num)%R.
Proof.
  induction bow as [|w c bow Hw IH] using map_ind.
  - rewrite fmap_empty. unfold weight_sum, histogram_sum. rewrite !map_fold_empty.
    unfold Rdiv. lra.
  - rewrite fmap_insert, weight_sum_insert by (rewrite lookup_fmap, Hw; reflexivity).
    rewrite IH, histogram_sum_insert by assumption. rewrite plus_IZR. unfold Rdiv. lra.
Qed.

(** X9. Without an IDF table ([idf_weights is None]) every word weighs 1.0:
    the vector holds the term frequencies [count / num_features], and they
    add up to the sum of the histogram divided by [num_features], which is
    1 when [num_features] is the number of counted descriptors. *)
Theorem tfidf_without_idf_is_term_frequency (bow : gmap Z Z) (num : Z) :
  num <> 0%Z ->
  exists tfidf : gmap Z R,
    compute_tfidf_vector None bow num = Ok tfidf /\
    (forall w, tfidf !! w = (fun c : Z => (IZR c / IZR num * 1)%R) <$> bow !! w) /\
    weight_sum tfidf = (IZR (histogram_sum bow) / IZR num)%R /\
    (histogram_sum bow = num -> weight_sum tfidf = 1%R).
Proof.
  intros Hnum.
  destruct (compute_tfidf_vector_spec None bow num Hnum) as (tfidf & Ht & Hin & Hout).
  { intros w c _. exists 1%R. reflexivity. }
  assert (Heq : tfidf = (fun c : Z => (IZR c / IZR num * 1)%R) <$> bow).
  { apply map_eq. intros w. rewrite lookup_fmap.
    destruct (bow !! w) as [c|] eqn:Hw.
    - destruct (Hin w c Hw) as (x & Hx & ->). cbn [idf_lookup] in Hx.
      injection Hx as <-. reflexivity.
    - now rewrite (Hout w Hw). }
  exists tfidf. split; [assumption|]. split.
  - intros w. now rewrite Heq, lookup_fmap.
  - assert (Hsum : weight_sum tfidf = (IZR (histogram_sum bow) / IZR num)%R)
      by (rewrite Heq; apply weight_sum_fmap).
    split; [assumption|]. intros Hh. rewrite Hsum, Hh. field. now apply not_0_IZR.
Qed.

Lemma tfidf_without_idf_is_term_frequency_witness :
  exists tfidf : gmap Z R,
    compute_tfidf_vector None {[0%Z := 3%Z; 1%Z := 1%Z]} 4 = Ok tfidf /\
    (forall w, tfidf !! w
               = (fun c : Z => (IZR c / IZR 4 * 1)%R)
                   <$> ({[0%Z := 3%Z; 1%Z := 1%Z]} : gmap Z Z) !! w) /\
    weight_sum tfidf = (IZR (histogram_sum {[0%Z := 3%Z; 1%Z := 1%Z]}) / IZR 4)%R /\
    (histogram_sum {[0%Z := 3%Z; 1%Z := 1%Z]} = 4%Z -> weight_sum tfidf = 1%R).
Proof.
  apply tfidf_without_idf_is_term_frequency. lia.
Defined.

(** ** Feature budgeter: what the two passes keep *)

Lemma StronglySorted_filter {A : Type} (R : A -> A -> Prop) (P : A -> Prop)
  `{!forall x, Decision (P x)} (l : list A) :
  StronglySorted R l -> StronglySorted R (filter P l).
Proof.
  induction 1 as [|x l Hl IH Hx]; [constructor|].
  rewrite filter_cons. destruct (decide (P x)); [|assumption].
  constructor; [assumption|].
  apply Forall_forall. intros y Hy.
  apply list_elem_of_filter in Hy as [_ Hy].
  rewrite Forall_forall in Hx. now apply Hx.
Qed.

Lemma StronglySorted_app_elem_of {A : Type} (R : A -> A -> Prop) (l1 l2 : list A) (x y : A) :
  StronglySorted R (l1 ++ l2) -> x ∈ l1 -> y ∈ l2 -> R x y.
Proof.
  induction l1 as [|a l1 IH]; intros Hs Hx Hy; [inversion Hx|].
  simpl in Hs. inversion Hs as [|? ? Hs' Ha]; subst.
  apply elem_of_cons in Hx as [->|Hx]; [|now apply IH].
  rewrite Forall_forall in Ha. apply Ha. apply elem_of_app. now right.
Qed.

(** In a list sorted by [R], what lies outside a prefix comes after what
    lies inside it. *)
Lemma sorted_prefix_first {A : Type} (R : A -> A -> Prop) (l : list A) (k : nat) (x y : A) :
  StronglySorted R l -> x ∈ take k l -> y ∈ l -> y ∉ take k l -> R x y.
Proof.
  intros Hs Hx Hy Hny. rewrite <- (take_drop k l) in Hs, Hy.
  apply elem_of_app in Hy as [Hy|Hy]; [contradiction|].
  eapply StronglySorted_app_elem_of; eauto.
Qed.

Lemma quota_walk_cell_full (cell : nat -> nat) (q M c : nat) (sorted : list nat) :
  forall selected,
    q <= cell_count cell c selected ->
    filter (fun idx => cell idx = c) (quota_walk cell q M sorted selected)
    = filter (fun idx => cell idx = c) selected.
Proof.
  induction sorted as [|i rest IH]; intros selected Hfull; [reflexivity|].
  cbn [quota_walk].
  destruct (cell_count cell (cell i) selected <? q)%nat eqn:Hlt; [|now apply IH].
  apply Nat.ltb_lt in Hlt.
  assert (Hne : cell i <> c) by (intros Heq; rewrite Heq in Hlt; lia).
  assert (Hsnoc : filter (fun idx => cell idx = c) (selected ++ [i])
                  = filter (fun idx => cell idx = c) selected).
  { rewrite filter_app, filter_cons, filter_nil.
    destruct (decide (cell i = c)); [contradiction|]. apply app_nil_r. }
  destruct (M <=? length (selected ++ [i]))%nat; [assumption|].
  rewrite IH; [assumption|].
  pose proof (cell_count_app_le cell c selected [i]). lia.
Qed.

(** Within one cell the first pass admits the features in the order of the
    walk and never skips one to take a later one. *)
Lemma quota_walk_cell_prefix (cell : nat -> nat) (q M c : nat) (sorted : list nat) :
  forall selected, exists k,
    filter (fun idx => cell idx = c) (quota_walk cell q M sorted selected)
    = filter (fun idx => cell idx = c) selected
      ++ take k (filter (fun idx => cell idx = c) sorted).
Proof.
  induction sorted as [|i rest IH]; intros selected.
  - exists 0. cbn [quota_walk]. now rewrite filter_nil, take_nil, app_nil_r.
  - cbn [quota_walk]. rewrite (filter_cons _ i rest).
    destruct (decide (cell i = c)) as [Hc|Hc].
    + destruct (cell_count cell (cell i) selected <? q)%nat eqn:Hlt.
      * assert (Hsnoc : filter (fun idx => cell idx = c) (selected ++ [i])
                        = filter (fun idx => cell idx = c) selected ++ [i]).
        { rewrite filter_app, filter_cons, filter_nil.
          destruct (decide (cell i = c)); [reflexivity | contradiction]. }
        destruct (M <=? length (selected ++ [i]))%nat.
        -- exists 1. rewrite Hsnoc. cbn [take]. now rewrite take_0.
        -- destruct (IH (selected ++ [i])) as [k Hk]. exists (S k).
           rewrite Hk, Hsnoc, <- app_assoc. reflexivity.
      * apply Nat.ltb_ge in Hlt. exists 0. rewrite take_0, app_nil_r.
        apply quota_walk_cell_full. now rewrite <- Hc.
    + assert (Hsnoc : filter (fun idx => cell idx = c) (selected ++ [i])
                      = filter (fun idx => cell idx = c) selected).
      { rewrite filter_app, filter_cons, filter_nil.
        destruct (decide (cell i = c)); [contradiction|]. apply app_nil_r. }
      destruct (cell_count cell (cell i) selected <? q)%nat; [|apply IH].
      destruct (M <=? length (selected ++ [i]))%nat.
      * exists 0. now rewrite Hsnoc, take_0, app_nil_r.
      * destruct (IH (selected ++ [i])) as [k Hk]. exists k. now rewrite Hk, Hsnoc.
Qed.

Lemma quota_walk_cell_take (cell : nat -> nat) (q M c : nat) (sorted : list nat) :
  filter (fun idx => cell idx = c) (quota_walk cell q M sorted [])
  = take (cell_count cell c (quota_walk cell q M sorted []))
         (filter (fun idx => cell idx = c) sorted).
Proof.
  destruct (quota_walk_cell_prefix cell q M c sorted []) as [k Hk].
  rewrite filter_nil, app_nil_l in Hk. unfold cell_count. rewrite Hk.
  rewrite length_take.
  destruct (Nat.le_ge_cases k (length (filter (fun idx => cell idx = c) sorted))) as [Hle|Hge].
  - now rewrite Nat.min_l.
  - rewrite Nat.min_r by assumption. now rewrite !take_ge by lia.
Qed.

Lemma quota_walk_zero (cell : nat -> nat) (M : nat) (sorted : list nat) :
  forall selected, quota_walk cell 0 M sorted selected = selected.
Proof.
  induction sorted as [|i rest IH]; intros selected; [reflexivity|].
  cbn [quota_walk]. rewrite (proj2 (Nat.ltb_ge _ 0)) by lia. apply IH.
Qed.

Lemma filter_not_in_nil (l : list nat) : filter (fun i => i ∉ []) l = l.
Proof.
  induction l as [|i l IH]; [reflexivity|].
  rewrite filter_cons. destruct (decide (i ∉ [])) as [|Hn]; [now f_equal|].
  exfalso. apply Hn. apply not_elem_of_nil.
Qed.

Lemma response_order_refl (kps : list KeyPoint) (i : nat) :
  (response_at kps i <= response_at kps i)%Q.
Proof. apply Qle_refl. Qed.

(** X10. In every grid cell the first pass keeps the strongest features of
    that cell: the admitted positions of a cell are a prefix of the cell's
    positions in descending response order, so a feature left out by the
    first pass is no stronger than any admitted feature of its own cell. *)
Theorem first_pass_strongest_of_each_cell (M : nat) (kps : list KeyPoint)
  (image_shape : Z * Z) :
  (0 < fst image_shape)%Z -> (0 < snd image_shape)%Z ->
  Forall (fun kp => (0 <= fst (kp_pt kp))%Q /\ (0 <= snd (kp_pt kp))%Q) kps ->
  let sorted := sorted_by_response kps in
  let cell := cell_at kps image_shape in
  exists first cell_counts,
    first_pass kps (inject_Z (fst image_shape) / inject_Z grid_size)
      (inject_Z (snd image_shape) / inject_Z grid_size) (M / 16) M sorted []
      (replicate 16 0%nat) = Ok (first, cell_counts) /\
    (forall c, filter (fun idx => cell idx = c) first
               = take (cell_count cell c first) (filter (fun idx => cell idx = c) sorted)) /\
    (forall i j, i ∈ first -> j < length kps -> j ∉ first -> cell j = cell i ->
       (response_at kps j <= response_at kps i)%Q).
Proof.
  intros Hh Hw Hkps sorted cell.
  destruct (select_indices_passes M kps image_shape Hh Hw Hkps) as (cc & Hfp & _ & _).
  fold sorted cell in Hfp.
  set (first := quota_walk cell (M / 16) M sorted []) in *.
  exists first, cc. split; [assumption|].
  assert (Hpre : forall c, filter (fun idx => cell idx = c) first
    = take (cell_count cell c first) (filter (fun idx => cell idx = c) sorted))
    by (intros c; apply quota_walk_cell_take).
  split; [assumption|].
  intros i j Hi Hj Hnj Hcell.
  apply (sorted_prefix_first (fun a b => (response_at kps b <= response_at kps a)%Q)
           (filter (fun idx => cell idx = cell i) sorted) (cell_count cell (cell i) first)).
  - apply StronglySorted_filter, sorted_by_response_descending.
  - rewrite <- Hpre. apply list_elem_of_filter. auto.
  - apply list_elem_of_filter. split; [assumption|]. now apply sorted_by_response_lt.
  - rewrite <- Hpre. intros Hin. apply list_elem_of_filter in Hin as [_ Hin]. contradiction.
Qed.

Lemma crowded_kps_nonneg :
  Forall (fun kp => (0 <= fst (kp_pt kp))%Q /\ (0 <= snd (kp_pt kp))%Q) crowded_kps.
Proof.
  unfold crowded_kps. simpl.
  repeat (apply List.Forall_cons; [split; simpl; unfold Qle; simpl; lia|]).
  apply List.Forall_nil.
Defined.

Lemma first_pass_strongest_of_each_cell_witness :
  let sorted := sorted_by_response crowded_kps in
  let cell := cell_at crowded_kps sample_shape in
  exists first cell_counts,
    first_pass crowded_kps (inject_Z (fst sample_shape) / inject_Z grid_size)
      (inject_Z (snd sample_shape) / inject_Z grid_size) (16 / 16) 16 sorted []
      (replicate 16 0%nat) = Ok (first, cell_counts) /\
    (forall c, filter (fun idx => cell idx = c) first
               = take (cell_count cell c first) (filter (fun idx => cell idx = c) sorted)) /\
    (forall i j, i ∈ first -> j < length crowded_kps -> j ∉ first -> cell j = cell i ->
       (response_at crowded_kps j <= response_at crowded_kps i)%Q).
Proof.
  apply (first_pass_strongest_of_each_cell 16 crowded_kps sample_shape).
  - simpl. lia.
  - simpl. lia.
  - exact crowded_kps_nonneg.
Defined.

(** When every cell holds at most the quota, the other fifteen cells leave
    room for what one cell holds. *)
Lemma quota_slack (cell : nat -> nat) (q c : nat) (selected : list nat) :
  (forall idx, cell idx < 16) ->
  (forall c', cell_count cell c' selected <= q) ->
  c < 16 ->
  length selected <= 15 * q + cell_count cell c selected.
Proof.
  intros Hcell Hq Hc.
  assert (Hn : forall n,
    length (filter (fun idx => cell idx < n) selected)
    + (if (c <? n)%nat then q - cell_count cell c selected else 0) <= n * q).
  { induction n as [|n IH].
    - rewrite (proj2 (Nat.ltb_ge c 0)) by lia.
      assert (Hnil : filter (fun idx => cell idx < 0) selected = []).
      { clear. induction selected as [|idx rest IHr]; [reflexivity|].
        rewrite filter_cons. destruct (decide (cell idx < 0)); [lia | assumption]. }
      rewrite Hnil. simpl. lia.
    - rewrite cell_count_below.
      destruct (Nat.eq_dec n c) as [->|Hne].
      + rewrite (proj2 (Nat.ltb_ge c c)) in IH by lia.
        rewrite (proj2 (Nat.ltb_lt c (S c))) by lia.
        specialize (Hq c). lia.
      + specialize (Hq n).
        destruct (c <? n)%nat eqn:Hcn.
        * rewrite (proj2 (Nat.ltb_lt c (S n))) by (apply Nat.ltb_lt in Hcn; lia). lia.
        * rewrite (proj2 (Nat.ltb_ge c (S n))) by (apply Nat.ltb_ge in Hcn; lia). lia. }
  specialize (Hn 16). rewrite (proj2 (Nat.ltb_lt c 16)) in Hn by assumption.
  replace (filter (fun idx => cell idx < 16) selected) with selected in Hn.
  - specialize (Hq c). lia.
  - clear - Hcell. induction selected as [|idx rest IH]; [reflexivity|].
    rewrite filter_cons. destruct (decide (cell idx < 16)) as [|Hc]; [now f_equal|].
    exfalso. apply Hc, Hcell.
Qed.

Lemma first_subseteq_selected (M : nat) (kps : list KeyPoint) (image_shape : Z * Z) :
  0 < M -> M < length kps ->
  let sorted := sorted_by_response kps in
  let first := quota_walk (cell_at kps image_shape) (M / 16) M sorted [] in
  let selected := if (length first <? M)%nat then second_pass M sorted first else first in
  forall i, i ∈ first -> i ∈ selected.
Proof.
  intros HM Hn sorted first selected i Hi.
  destruct (select_indices_facts M kps image_shape HM Hn) as (_ & _ & _ & _ & _ & _ & Hfill).
  fold sorted first selected in Hfill. subst selected.
  destruct (length first <? M)%nat eqn:Hlt; [|assumption].
  apply Nat.ltb_lt in Hlt. rewrite (Hfill Hlt). apply elem_of_app. now left.
Qed.

(** Every occupied cell gets a place in the first pass when the quota is
    not zero. *)
Lemma quota_walk_occupied (cell : nat -> nat) (M : nat) (sorted : list nat) (j : nat) :
  (forall idx, cell idx < 16) ->
  16 <= M -> j ∈ sorted ->
  1 <= cell_count cell (cell j) (quota_walk cell (M / 16) M sorted []).
Proof.
  intros Hcell HM Hj.
  assert (Hq : 1 <= M / 16) by (apply Nat.div_le_lower_bound; lia).
  assert (Hquota : forall c, cell_count cell c (quota_walk cell (M / 16) M sorted []) <= M / 16).
  { apply quota_walk_quota. intros c. unfold cell_count. simpl. lia. }
  set (first := quota_walk cell (M / 16) M sorted []) in *.
  destruct (Nat.lt_ge_cases (length first) M) as [Hlt|Hge].
  - destruct (quota_walk_exhausts cell (M / 16) M sorted []) with (idx := j) as [Hin|Hfull].
    + intros c. unfold cell_count. simpl. lia.
    + assumption.
    + assumption.
    + fold first in Hin. unfold cell_count.
      assert (Hjf : j ∈ filter (fun idx => cell idx = cell j) first)
        by (apply list_elem_of_filter; auto).
      destruct (filter (fun idx => cell idx = cell j) first); [inversion Hjf | simpl; lia].
    + fold first in Hfull. lia.
  - pose proof (quota_slack cell (M / 16) (cell j) first Hcell Hquota (Hcell j)) as Hs.
    pose proof (Nat.Div0.mul_div_le M 16). lia.
Qed.

(** X11. With a budget of at least 16 the per-cell quota is at least 1, and
    then every grid cell that holds a feature is represented in the
    selection by its strongest feature. *)
Theorem occupied_cells_keep_strongest (M : nat) (kps : list KeyPoint) (image_shape : Z * Z) :
  16 <= M -> M < length kps ->
  (0 < fst image_shape)%Z -> (0 < snd image_shape)%Z ->
  Forall (fun kp => (0 <= fst (kp_pt kp))%Q /\ (0 <= snd (kp_pt kp))%Q) kps ->
  let cell := cell_at kps image_shape in
  exists selected,
    select_indices M kps image_shape = Ok selected /\
    forall c, (exists j, j < length kps /\ cell j = c) ->
      exists i, i ∈ selected /\ cell i = c /\
        forall j, j < length kps -> cell j = c ->
          (response_at kps j <= response_at kps i)%Q.
Proof.
  intros HM Hn Hh Hw Hkps cell.
  destruct (select_indices_passes M kps image_shape Hh Hw Hkps) as (cc & _ & _ & Hsel).
  fold cell in Hsel.
  set (sorted := sorted_by_response kps) in *.
  set (first := quota_walk cell (M / 16) M sorted []) in *.
  eexists. split; [exact Hsel|].
  intros c (j0 & Hj0 & Hc0).
  assert (Hin0 : j0 ∈ sorted) by now apply sorted_by_response_lt.
  assert (Hocc : 1 <= cell_count cell c first).
  { rewrite <- Hc0. apply quota_walk_occupied; [|assumption|assumption].
    intros idx. apply cell_at_lt. }
  pose proof (quota_walk_cell_take cell (M / 16) M c sorted) as Hpre. fold first in Hpre.
  assert (Hs : StronglySorted (fun a b => (response_at kps b <= response_at kps a)%Q)
                 (filter (fun idx => cell idx = c) sorted))
    by apply StronglySorted_filter, sorted_by_response_descending.
  assert (Hj0f : j0 ∈ filter (fun idx => cell idx = c) sorted)
    by (apply list_elem_of_filter; auto).
  destruct (filter (fun idx => cell idx = c) sorted) as [|i rest] eqn:Hfc; [inversion Hj0f|].
  destruct (cell_count cell c first) as [|k] eqn:Hk; [lia|].
  cbn [take] in Hpre.
  assert (Hif : i ∈ filter (fun idx => cell idx = c) first) by (rewrite Hpre; constructor).
  apply list_elem_of_filter in Hif as [Hic Hif].
  exists i. split; [|split; [assumption|]].
  - apply (first_subseteq_selected M kps image_shape); [lia | assumption | exact Hif].
  - intros j Hj Hcj.
    assert (Hjf : j ∈ i :: rest).
    { rewrite <- Hfc. apply list_elem_of_filter. split; [assumption|].
      now apply sorted_by_response_lt. }
    inversion Hs as [|? ? _ Hall]; subst.
    apply elem_of_cons in Hjf as [->|Hjf]; [apply Qle_refl|].
    rewrite Forall_forall in Hall. now apply Hall.
Qed.

Lemma occupied_cells_keep_strongest_witness :
  let cell := cell_at crowded_kps sample_shape in
  exists selected,
    select_indices 16 crowded_kps sample_shape = Ok selected /\
    forall c, (exists j, j < length crowded_kps /\ cell j = c) ->
      exists i, i ∈ selected /\ cell i = c /\
        forall j, j < length crowded_kps -> cell j = c ->
          (response_at crowded_kps j <= response_at crowded_kps i)%Q.
Proof.
  apply (occupied_cells_keep_strongest 16 crowded_kps sample_shape).
  - lia.
  - simpl. lia.
  - simpl. lia.
  - simpl. lia.
  - exact crowded_kps_nonneg.
Defined.

Lemma select_indices_small_budget (M : nat) (kps : list KeyPoint) (image_shape : Z * Z) :
  M < 16 ->
  (0 < fst image_shape)%Z -> (0 < snd image_shape)%Z ->
  Forall (fun kp => (0 <= fst (kp_pt kp))%Q /\ (0 <= snd (kp_pt kp))%Q) kps ->
  quota_walk (cell_at kps image_shape) (M / 16) M (sorted_by_response kps) [] = [] /\
  select_indices M kps image_shape = Ok (take M (sorted_by_response kps)).
Proof.
  intros HM Hh Hw Hkps.
  destruct (select_indices_passes M kps image_shape Hh Hw Hkps) as (cc & _ & _ & Hsel).
  rewrite (Nat.div_small M 16 HM) in *. rewrite quota_walk_zero in *.
  split; [reflexivity|]. rewrite Hsel. cbn [length].
  destruct M as [|m]; [now rewrite take_0|].
  rewrite (proj2 (Nat.ltb_lt 0 (S m))) by lia.
  rewrite second_pass_fill by first [apply sorted_by_response_NoDup | cbn [length]; lia].
  cbn [length app]. now rewrite Nat.sub_0_r, filter_not_in_nil.
Qed.



(** X13. The second pass takes the strongest features left: a feature that
    the selection leaves out is no stronger than any feature added by the
    second pass. The strongest feature of the image is always selected. *)
Theorem second_pass_takes_strongest_left (M : nat) (kps : list KeyPoint)
  (image_shape : Z * Z) :
  0 < M -> M < length kps ->
  (0 < fst image_shape)%Z -> (0 < snd image_shape)%Z ->
  Forall (fun kp => (0 <= fst (kp_pt kp))%Q /\ (0 <= snd (kp_pt kp))%Q) kps ->
  exists first cell_counts selected,
    first_pass kps (inject_Z (fst image_shape) / inject_Z grid_size)
      (inject_Z (snd image_shape) / inject_Z grid_size) (M / 16) M
      (sorted_by_response kps) [] (replicate 16 0%nat) = Ok (first, cell_counts) /\
    select_indices M kps image_shape = Ok selected /\
    (forall i j, i ∈ selected -> i ∉ first -> j < length kps -> j ∉ selected ->
       (response_at kps j <= response_at kps i)%Q) /\
    (exists top, top ∈ selected /\
       forall j, j < length kps -> (response_at kps j <= response_at kps top)%Q).
Proof.
  intros HM Hn Hh Hw Hkps.
  destruct (select_indices_passes M kps image_shape Hh Hw Hkps) as (cc & Hfp & _ & Hsel).
  destruct (select_indices_facts M kps image_shape HM Hn) as (_ & _ & _ & _ & _ & _ & Hfill).
  pose proof (first_subseteq_selected M kps image_shape HM Hn) as Hsub.
  pose proof (sorted_by_response_descending kps) as Hs.
  set (cell := cell_at kps image_shape) in *.
  set (sorted := sorted_by_response kps) in *.
  set (first := quota_walk cell (M / 16) M sorted []) in *.
  set (selected := if (length first <? M)%nat then second_pass M sorted first else first) in *.
  exists first, cc, selected. split; [assumption|]. split; [assumption|]. split.
  - intros i j Hi Hni Hj Hnj.
    destruct (Nat.lt_ge_cases (length first) M) as [Hlt|Hge].
    + specialize (Hfill Hlt).
      assert (Hnjf : j ∉ first) by (intros Hjf; apply Hnj, Hsub, Hjf).
      rewrite Hfill in Hi, Hnj.
      apply elem_of_app in Hi as [Hi|Hi]; [contradiction|].
      apply (sorted_prefix_first (fun a b => (response_at kps b <= response_at kps a)%Q)
               (filter (fun idx => idx ∉ first) sorted) (M - length first)).
      * now apply StronglySorted_filter.
      * assumption.
      * apply list_elem_of_filter. split; [assumption|]. now apply sorted_by_response_lt.
      * intros Hin. apply Hnj. apply elem_of_app. now right.
    + exfalso. apply Hni. subst selected.
      now rewrite (proj2 (Nat.ltb_ge (length first) M) Hge) in Hi.
  - pose proof (sorted_by_response_length kps) as Hlen. fold sorted in Hlen.
    destruct sorted as [|top rest] eqn:Hsorted; [simpl in Hlen; lia|].
    exists top. split.
    + destruct (Nat.lt_ge_cases M 16) as [H16|H16].
      * destruct (select_indices_small_budget M kps image_shape H16 Hh Hw Hkps) as [_ Hsmall].
        rewrite Hsel in Hsmall. injection Hsmall as ->.
        fold sorted. rewrite Hsorted.
        destruct M as [|m]; [lia|]. cbn [take]. constructor.
      * apply Hsub. subst first. cbn [quota_walk].
        assert (Hq : 1 <= M / 16) by (apply Nat.div_le_lower_bound; lia).
        assert (Hz : cell_count cell (cell top) [] = 0) by reflexivity.
        rewrite Hz. rewrite (proj2 (Nat.ltb_lt 0 (M / 16))) by lia.
        destruct (M <=? length ([] ++ [top]))%nat; [constructor|].
        destruct (quota_walk_app cell (M / 16) M rest ([] ++ [top])) as (adm & -> & _).
        constructor.
    + intros j Hj.
      assert (Hjs : j ∈ top :: rest).
      { rewrite <- Hsorted. now apply sorted_by_response_lt. }
      inversion Hs as [|? ? _ Hall]; subst.
      apply elem_of_cons in Hjs as [->|Hjs]; [apply Qle_refl|].
      rewrite Forall_forall in Hall. now apply Hall.
Qed.

Lemma second_pass_takes_strongest_left_witness :
  exists first cell_counts selected,
    first_pass crowded_kps (inject_Z (fst sample_shape) / inject_Z grid_size)
      (inject_Z (snd sample_shape) / inject_Z grid_size) (16 / 16) 16
      (sorted_by_response crowded_kps) [] (replicate 16 0%nat) = Ok (first, cell_counts) /\
    select_indices 16 crowded_kps sample_shape = Ok selected /\
    (forall i j, i ∈ selected -> i ∉ first -> j < length crowded_kps -> j ∉ selected ->
       (response_at crowded_kps j <= response_at crowded_kps i)%Q) /\
    (exists top, top ∈ selected /\
       forall j, j < length crowded_kps ->
         (response_at crowded_kps j <= response_at crowded_kps top)%Q).
Proof.
  apply (second_pass_takes_strongest_left 16 crowded_kps sample_shape).
  - lia.
  - simpl. lia.
  - simpl. lia.
  - simpl. lia.
  - exact crowded_kps_nonneg.
Defined.

(** X14. When the budget is not a multiple of 16, sixteen quotas fall short
    of it: the first pass can never reach the budget, the second pass always
    runs, and at least [max_features_per_target mod 16] of the selected
    features (4 for the budget of 500 set by the code) are taken for their
    strength alone. *)
Theorem uneven_budget_runs_second_pass (M : nat) (kps : list KeyPoint)
  (image_shape : Z * Z) :
  M mod 16 <> 0 -> M < length kps ->
  (0 < fst image_shape)%Z -> (0 < snd image_shape)%Z ->
  Forall (fun kp => (0 <= fst (kp_pt kp))%Q /\ (0 <= snd (kp_pt kp))%Q) kps ->
  let sorted := sorted_by_response kps in
  exists first cell_counts selected,
    first_pass kps (inject_Z (fst image_shape) / inject_Z grid_size)
      (inject_Z (snd image_shape) / inject_Z grid_size) (M / 16) M sorted []
      (replicate 16 0%nat) = Ok (first, cell_counts) /\
    select_indices M kps image_shape = Ok selected /\
    selected = second_pass M sorted first /\
    length first + M mod 16 <= M /\
    length selected = M /\
    length first + M mod 16 <= length selected.
Proof.
  intros Hmod Hn Hh Hw Hkps sorted.
  assert (HM : 0 < M) by (destruct M; [simpl in Hmod; congruence | lia]).
  destruct (select_indices_passes M kps image_shape Hh Hw Hkps) as (cc & Hfp & _ & Hsel).
  destruct (select_indices_facts M kps image_shape HM Hn) as (_ & _ & _ & _ & Hlen & _).
  fold sorted in Hfp, Hsel, Hlen.
  set (first := quota_walk (cell_at kps image_shape) (M / 16) M sorted []) in *.
  assert (Hfirst : length first <= 16 * (M / 16)).
  { apply (quota_total (cell_at kps image_shape)).
    - intros idx. apply cell_at_lt.
    - apply quota_walk_quota. intros c. unfold cell_count. simpl. lia. }
  pose proof (Nat.div_mod_eq M 16) as Hdm.
  assert (Hlt : length first < M) by lia.
  rewrite (proj2 (Nat.ltb_lt (length first) M) Hlt) in Hsel, Hlen.
  exists first, cc, (second_pass M sorted first).
  split; [assumption|]. split; [assumption|]. split; [reflexivity|].
  split; [lia|]. split; [assumption|]. lia.
Qed.

Lemma uneven_budget_runs_second_pass_witness :
  let sorted := sorted_by_response crowded_kps in
  exists first cell_counts selected,
    first_pass crowded_kps (inject_Z (fst sample_shape) / inject_Z grid_size)
      (inject_Z (snd sample_shape) / inject_Z grid_size) (18 / 16) 18 sorted []
      (replicate 16 0%nat) = Ok (first, cell_counts) /\
    select_indices 18 crowded_kps sample_shape = Ok selected /\
    selected = second_pass 18 sorted first /\
    length first + 18 mod 16 <= 18 /\
    length selected = 18 /\
    length first + 18 mod 16 <= length selected.
Proof.
  apply (uneven_budget_runs_second_pass 18 crowded_kps sample_shape).
  - simpl. lia.
  - simpl. lia.
  - simpl. lia.
  - simpl. lia.
  - exact crowded_kps_nonneg.
Defined.

(** ** Vocabulary builder: the float detour and the attributes it leaves alone *)

Lemma threshold_bit_to_float (bits : list bool) :
  map (fun c => Qlt_bool (1 # 2) c) (map bit_to_float bits) = bits.
Proof.
  induction bits as [|b bits IH]; [reflexivity|].
  cbn [map]. rewrite IH. now destruct b.
Qed.

Lemma packbits_byte (b : N) (rest : list bool) :
  (b < 256)%N ->
  packbits_from (byte_bits b ++ rest) 0%N 0 = b :: packbits_from rest 0%N 0.
Proof.
  intros Hb. destruct b as [|p]; [reflexivity|].
  do 8 (destruct p as [p|p|]; try reflexivity); lia.
Qed.

Lemma packbits_unpackbits (row : Descriptor) :
  uint8_row row -> packbits (unpackbits row) = row.
Proof.
  unfold packbits, unpackbits, uint8_row.
  induction 1 as [|b row Hb Hrow IH]; [reflexivity|].
  cbn [map concat]. rewrite packbits_byte by assumption. now rewrite IH.
Qed.

(** X15. The float detour of [build_vocabulary] loses nothing:
    [np.unpackbits], the cast to float, the threshold [> 0.5] and
    [np.packbits] give back every [uint8] row unchanged. So when k-means
    returns centres that are input samples, the stored visual words are the
    descriptors of those samples. *)
Theorem build_vocabulary_keeps_sample_centres {Metadata : Type}
  (fit : Z -> list (list Q) -> Exc (list (list Q)))
  (self : VocabularyTreeBuilder Metadata)
  (all_descriptors chosen : list Descriptor) :
  let to_float := fun row : Descriptor => map bit_to_float (unpackbits row) in
  Forall uint8_row chosen ->
  fit (Z.min (self_vocabulary_size self) (Z.of_nat (length all_descriptors)))
      (map to_float all_descriptors) = Ok (map to_float chosen) ->
  Forall (fun row => packbits (map (fun c => Qlt_bool (1 # 2) c) (to_float row)) = row) chosen /\
  exists self',
    snd (build_vocabulary fit self all_descriptors) = Ok self' /\
    self_vocabulary self' = Some chosen.
Proof.
  intros to_float Hrows Hfit.
  assert (Hback : Forall (fun row =>
    packbits (map (fun c => Qlt_bool (1 # 2) c) (to_float row)) = row) chosen).
  { eapply Forall_impl; [exact Hrows|]. intros row Hrow. subst to_float. cbv beta.
    rewrite threshold_bit_to_float. now apply packbits_unpackbits. }
  split; [assumption|].
  assert (Hvoc : map (fun center => packbits (map (fun c => Qlt_bool (1 # 2) c) center))
                   (map to_float chosen) = chosen).
  { clear - Hback. induction Hback as [|row rows Hrow _ IH]; [reflexivity|].
    cbn [map]. now rewrite Hrow, IH. }
  unfold build_vocabulary. fold to_float.
  destruct (Z.ltb_spec (Z.of_nat (length all_descriptors)) (self_vocabulary_size self))
    as [Hlt|Hge].
  - rewrite Z.min_r in Hfit by lia.
    cbn [pbind print ret app self_vocabulary_size set_vocabulary_size].
    rewrite Hfit. cbn [pbind lift print ret app snd]. rewrite Hvoc.
    eexists. split; reflexivity.
  - rewrite Z.min_l in Hfit by lia.
    cbn [pbind print ret app]. rewrite Hfit. cbn [pbind lift print ret app snd].
    rewrite Hvoc. eexists. split; reflexivity.
Qed.

Lemma build_vocabulary_keeps_sample_centres_witness :
  let to_float := fun row : Descriptor => map bit_to_float (unpackbits row) in
  Forall (fun row => packbits (map (fun c => Qlt_bool (1 # 2) c) (to_float row)) = row)
    (take 2 sample_descriptors) /\
  exists self',
    snd (build_vocabulary sample_kmeans (sample_builder 2) sample_descriptors) = Ok self' /\
    self_vocabulary self' = Some (take 2 sample_descriptors).
Proof.
  apply (build_vocabulary_keeps_sample_centres sample_kmeans (sample_builder 2)
           sample_descriptors (take 2 sample_descriptors)).
  - repeat (apply List.Forall_cons;
            [repeat (apply List.Forall_cons; [reflexivity|]); apply List.Forall_nil|]).
    apply List.Forall_nil.
  - reflexivity.
Defined.

(** X16. [build_vocabulary] never asks k-means for more clusters than there
    are descriptors: the request is [min(vocabulary_size, len(descriptors))].
    It fails exactly when k-means fails, with the same exception.
    Otherwise it stores one word per returned centre and the reduced size,
    and leaves [k], [levels], [idf_weights], [targets] and
    [max_features_per_target] as they were. *)
Theorem build_vocabulary_frame {Metadata : Type}
  (fit : Z -> list (list Q) -> Exc (list (list Q)))
  (self : VocabularyTreeBuilder Metadata) (all_descriptors : list Descriptor) :
  let requested := Z.min (self_vocabulary_size self) (Z.of_nat (length all_descriptors)) in
  let desc_float := map (fun row => map bit_to_float (unpackbits row)) all_descriptors in
  match fit requested desc_float with
  | Raise e => snd (build_vocabulary fit self all_descriptors) = Raise e
  | Ok centers =>
      exists self' vocabulary,
        snd (build_vocabulary fit self all_descriptors) = Ok self' /\
        self_vocabulary self' = Some vocabulary /\
        length vocabulary = length centers /\
        self_vocabulary_size self' = requested /\
        (self_vocabulary_size self' <= self_vocabulary_size self)%Z /\
        self_k self' = self_k self /\
        self_levels self' = self_levels self /\
        self_idf_weights self' = self_idf_weights self /\
        self_targets self' = self_targets self /\
        self_max_features_per_target self' = self_max_features_per_target self
  end.
Proof.
  intros requested desc_float. unfold build_vocabulary. fold desc_float.
  destruct (Z.ltb_spec (Z.of_nat (length all_descriptors)) (self_vocabulary_size self))
    as [Hlt|Hge].
  - assert (Hreq : requested = Z.of_nat (length all_descriptors))
      by (subst requested; lia).
    rewrite Hreq.
    cbn [pbind print ret app self_vocabulary_size set_vocabulary_size].
    destruct (fit (Z.of_nat (length all_descriptors)) desc_float) as [centers|e].
    + cbn [pbind lift print ret app snd]. eexists _, _. split; [reflexivity|].
      split; [reflexivity|]. split; [apply length_map|].
      cbn [self_vocabulary_size self_k self_levels self_idf_weights self_targets
           self_max_features_per_target set_vocabulary set_vocabulary_size].
      repeat (split; [first [reflexivity | lia]|]). reflexivity.
    + reflexivity.
  - assert (Hreq : requested = self_vocabulary_size self) by (subst requested; lia).
    rewrite Hreq. cbn [pbind print ret app].
    destruct (fit (self_vocabulary_size self) desc_float) as [centers|e].
    + cbn [pbind lift print ret app snd]. eexists _, _. split; [reflexivity|].
      split; [reflexivity|]. split; [apply length_map|].
      cbn [self_vocabulary_size self_k self_levels self_idf_weights self_targets
           self_max_features_per_target set_vocabulary set_vocabulary_size].
      repeat (split; [first [reflexivity | lia]|]). reflexivity.
    + reflexivity.
Qed.

(** ** The pipeline read backwards: what a finished run tells *)

Lemma snd_pbind {A B : Type} (m : Py A) (f : A -> Py B) :
  snd (pbind m f) = bind (snd m) (fun a => snd (f a)).
Proof.
  destruct m as [out [a|e]]; [|reflexivity]. cbn [pbind snd bind]. now destruct (f a).
Qed.

Section Database.

Context {Image Metadata : Type}.
Variable imread : string -> option Image.
Variable gray_shape : Image -> Z * Z.
Variable detectAndCompute : Image -> list KeyPoint * option (list Descriptor).
Variable _compute_image_metadata : Image -> list (Q * Q) -> list KeyPoint -> Metadata.
Variable empty_metadata : Metadata.
Variable quality_recommended : Metadata -> bool.
Variable MiniBatchKMeans_fit : Z -> list (list Q) -> Exc (list (list Q)).

Local Abbreviation extract :=
  (extract_features imread gray_shape detectAndCompute _compute_image_metadata empty_metadata).
Local Abbreviation extract_loop :=
  (extract_all imread gray_shape detectAndCompute _compute_image_metadata empty_metadata
     quality_recommended).
Local Abbreviation process :=
  (process_targets imread gray_shape detectAndCompute _compute_image_metadata empty_metadata
     quality_recommended MiniBatchKMeans_fit).

Lemma extract_all_inv (self : VocabularyTreeBuilder Metadata) (image_files : list ImagePath) :
  forall all_descriptors target_features all_descriptors' target_features',
    snd (extract_loop self image_files all_descriptors target_features)
    = Ok (all_descriptors', target_features') ->
    all_descriptors = map t_descriptors target_features ->
    all_descriptors' = map t_descriptors target_features'.
Proof.
  induction image_files as [|f rest IH]; intros ad tf ad' tf' Hrun Had.
  - cbn in Hrun. injection Hrun as <- <-. assumption.
  - cbn [extract_all] in Hrun. rewrite pbind_print in Hrun. cbn [snd] in Hrun.
    rewrite snd_pbind in Hrun.
    destruct (snd (extract self (path_str f))) as [[[ks ds] md]|e]; [|discriminate].
    cbn [bind] in Hrun.
    destruct (length ds =? 0)%nat.
    + rewrite pbind_print in Hrun. cbn [snd] in Hrun. eapply IH; eauto.
    + rewrite pbind_print in Hrun. cbn [snd] in Hrun.
      eapply IH; [exact Hrun|]. rewrite map_app, Had. reflexivity.
Qed.

Lemma np_vstack_inv (arrays : list (list Descriptor)) (pool : list Descriptor) :
  np_vstack arrays = Ok pool -> pool = concat arrays.
Proof.
  unfold np_vstack. destruct (concat arrays) as [|row rows]; [discriminate|].
  destruct (forallb _ rows); [|discriminate]. now intros [= <-].
Qed.

Lemma build_vocabulary_inv (self self' : VocabularyTreeBuilder Metadata)
  (all_descriptors : list Descriptor) :
  snd (build_vocabulary MiniBatchKMeans_fit self all_descriptors) = Ok self' ->
  self_vocabulary_size self'
  = Z.min (self_vocabulary_size self) (Z.of_nat (length all_descriptors)) /\
  is_Some (self_vocabulary self') /\
  self_k self' = self_k self /\ self_levels self' = self_levels self /\
  self_max_features_per_target self' = self_max_features_per_target self.
Proof.
  unfold build_vocabulary.
  destruct (Z.ltb_spec (Z.of_nat (length all_descriptors)) (self_vocabulary_size self))
    as [Hlt|Hge].
  - cbn [pbind print ret app self_vocabulary_size set_vocabulary_size].
    destruct (MiniBatchKMeans_fit _ _) as [centers|e]; [|discriminate].
    cbn [pbind lift print ret app snd]. intros [= <-].
    cbn [self_vocabulary_size self_k self_levels self_vocabulary
         self_max_features_per_target set_vocabulary set_vocabulary_size].
    repeat (split; [first [reflexivity | lia | eauto]|]). reflexivity.
  - cbn [pbind print ret app].
    destruct (MiniBatchKMeans_fit _ _) as [centers|e]; [|discriminate].
    cbn [pbind lift print ret app snd]. intros [= <-].
    cbn [self_vocabulary_size self_k self_levels self_vocabulary
         self_max_features_per_target set_vocabulary set_vocabulary_size].
    repeat (split; [first [reflexivity | lia | eauto]|]). reflexivity.
Qed.

Lemma targets_to_bow_inv (self : VocabularyTreeBuilder Metadata)
  (target_features : list (Target Metadata)) :
  forall targets bows,
    snd (targets_to_bow self target_features) = Ok (targets, bows) ->
    map t_bow targets = map Some bows /\
    map t_descriptors targets = map t_descriptors target_features.
Proof.
  induction target_features as [|t rest IH]; intros targets bows Hrun.
  - cbn in Hrun. injection Hrun as <- <-. split; reflexivity.
  - cbn [targets_to_bow] in Hrun. rewrite snd_pbind in Hrun. cbn [lift snd] in Hrun.
    destruct (descriptors_to_bow (self_vocabulary self) (t_descriptors t)) as [bow|e];
      [|discriminate].
    cbn [bind] in Hrun. rewrite pbind_print in Hrun. cbn [snd] in Hrun.
    rewrite snd_pbind in Hrun.
    destruct (snd (targets_to_bow self rest)) as [[ts bs]|e]; [|discriminate].
    cbn [bind ret snd] in Hrun. injection Hrun as <- <-.
    destruct (IH ts bs eq_refl) as [Hb Hd].
    cbn [map set_bow t_bow t_descriptors]. now rewrite Hb, Hd.
Qed.

Lemma targets_to_tfidf_inv (self : VocabularyTreeBuilder Metadata)
  (target_features targets : list (Target Metadata)) :
  targets_to_tfidf self target_features = Ok targets ->
  map t_bow targets = map t_bow target_features /\
  map t_descriptors targets = map t_descriptors target_features.
Proof.
  unfold targets_to_tfidf. revert targets.
  induction target_features as [|t rest IH]; intros targets Hrun.
  - cbn in Hrun. injection Hrun as <-. split; reflexivity.
  - cbn [mapE] in Hrun.
    destruct (t_bow t) as [bow|] eqn:Hbow; [|discriminate].
    destruct (compute_tfidf_vector _ bow _) as [tfidf|e]; [|discriminate].
    cbn [bind] in Hrun.
    destruct (mapE _ rest) as [ts|e]; [|discriminate].
    cbn [bind] in Hrun. injection Hrun as <-.
    destruct (IH ts eq_refl) as [Hb Hd].
    cbn [map set_bow_tfidf t_bow t_descriptors]. now rewrite Hb, Hd, Hbow.
Qed.

(** A finished run of [process_targets], read backwards. *)
Lemma process_targets_inv (self self' : VocabularyTreeBuilder Metadata)
  (image_files : list ImagePath) :
  snd (process self image_files) = Ok self' ->
  exists (bows : list (gmap Z Z)) (idf : list R),
    self_idf_weights self' = Some idf /\
    compute_idf (self_vocabulary_size self') bows = Ok idf /\
    map t_bow (self_targets self') = map Some bows /\
    self_vocabulary_size self'
    = Z.min (self_vocabulary_size self)
        (Z.of_nat (length (concat (map t_descriptors (self_targets self'))))) /\
    is_Some (self_vocabulary self') /\
    self_k self' = self_k self /\ self_levels self' = self_levels self /\
    self_max_features_per_target self' = self_max_features_per_target self /\
    exists extracted,
      snd (extract_loop self image_files [] []) = Ok (map t_descriptors extracted, extracted) /\
      map t_descriptors (self_targets self') = map t_descriptors extracted.
Proof.
  unfold process_targets. rewrite pbind_print. cbn [snd]. rewrite snd_pbind.
  destruct (snd (extract_loop self image_files [] [])) as [[ad tf]|e] eqn:H0; [|discriminate].
  cbn [bind].
  pose proof (extract_all_inv _ _ _ _ _ _ H0 eq_refl) as H1.
  destruct (length ad =? 0)%nat; [discriminate|].
  rewrite snd_pbind. cbn [lift snd].
  destruct (np_vstack ad) as [pool|e] eqn:H2; [|discriminate]. cbn [bind].
  apply np_vstack_inv in H2.
  rewrite pbind_print. cbn [snd]. rewrite snd_pbind.
  destruct (snd (build_vocabulary MiniBatchKMeans_fit self pool)) as [s1|e] eqn:H3;
    [|discriminate].
  cbn [bind]. apply build_vocabulary_inv in H3 as (HV & Hvoc & Hk & Hl & Hm).
  rewrite pbind_print. cbn [snd]. rewrite snd_pbind.
  destruct (snd (targets_to_bow s1 tf)) as [[tf1 bows]|e] eqn:H4; [|discriminate].
  cbn [bind]. apply targets_to_bow_inv in H4 as [Hb1 Hd1].
  rewrite snd_pbind. cbn [lift snd].
  destruct (compute_idf (self_vocabulary_size s1) bows) as [idf|e] eqn:H5; [|discriminate].
  cbn [bind]. rewrite !pbind_print. cbn [snd]. rewrite snd_pbind. cbn [lift snd].
  destruct (targets_to_tfidf (set_idf_weights s1 idf) tf1) as [tf2|e] eqn:H6; [|discriminate].
  cbn [bind ret snd]. intros [= <-].
  apply targets_to_tfidf_inv in H6 as [Hb2 Hd2].
  exists bows, idf.
  cbn [self_vocabulary_size self_k self_levels self_vocabulary self_idf_weights
       self_targets self_max_features_per_target set_targets set_idf_weights].
  split; [reflexivity|]. split; [assumption|]. split; [congruence|].
  split; [rewrite HV, Hd2, Hd1, <- H1, <- H2; reflexivity|].
  repeat (split; [assumption|]).
  exists tf. split; [now rewrite <- H1 | congruence].
Qed.


Lemma descriptors_to_bow_count_bounds (voc : list Descriptor) (descriptors : list Descriptor)
  (bow : gmap Z Z) :
  descriptors_to_bow (Some voc) descriptors = Ok bow ->
  forall w c, bow !! w = Some c -> (1 <= c <= Z.of_nat (length descriptors))%Z.
Proof.
  intros Hbow w c Hc.
  destruct (descriptors_to_bow_counts voc descriptors ∅ bow Hbow) as (Hcount & Hpos & _).
  split.
  - apply (Hpos ltac:(intros w' c' H'; rewrite lookup_empty in H'; discriminate) w c Hc).
  - specialize (Hcount w). rewrite Hc, lookup_empty in Hcount. simpl in Hcount.
    pose proof (length_filter (fun d => quantizes_to voc w d = true) descriptors) as Hle.
    unfold occurrences in Hcount. lia.
Qed.

Lemma filter_all_length {A : Type} (P : A -> Prop) `{!forall x, Decision (P x)} (l : list A) :
  length (filter P l) = length l <-> Forall P l.
Proof.
  induction l as [|x l IH].
  - split; [constructor | reflexivity].
  - rewrite filter_cons. destruct (decide (P x)) as [Hx|Hx].
    + cbn [length]. split.
      * intros Hlen. constructor; [assumption|]. apply IH. lia.
      * intros Hall. inversion Hall; subst. f_equal. now apply IH.
    + pose proof (length_filter P l). cbn [length]. split; [lia|].
      intros Hall. inversion Hall; subst. contradiction.
Qed.

Lemma singleton_members {A : Type} (l : list A) (x y : A) :
  length l = 1 -> x ∈ l -> y ∈ l -> x = y.
Proof.
  destruct l as [|a [|b l]]; cbn [length]; try lia. intros _ Hx Hy.
  apply list_elem_of_singleton in Hx, Hy. congruence.
Qed.

Variable D : nat.
Hypothesis detector_ok : detector_contract D gray_shape detectAndCompute.
Hypothesis kmeans_ok : kmeans_contract MiniBatchKMeans_fit.

(** X17. In a built database with [N] targets every stored TF-IDF weight
    lies between 0 and [ln(N + 1)], and a weight is 0 exactly when its word
    occurs in the histogram of every target. In particular a database built
    from a single usable image stores only zero weights. *)
Theorem database_weights (self : VocabularyTreeBuilder Metadata)
  (image_files : list ImagePath) :
  0 < self_max_features_per_target self ->
  (1 <= self_vocabulary_size self)%Z ->
  (forall f, f ∈ image_files -> loads imread f = true) ->
  (exists f, f ∈ image_files /\ has_features imread detectAndCompute f = true) ->
  exists out self',
    process self image_files = (out, Ok self') /\
    forall t tfidf w x,
      t ∈ self_targets self' -> t_bow_tfidf t = Some tfidf -> tfidf !! w = Some x ->
      (0 <= x <= ln (INR (length (self_targets self')) + 1))%R /\
      (x = 0%R <->
       forall t', t' ∈ self_targets self' ->
         exists bow', t_bow t' = Some bow' /\ is_Some (bow' !! w)) /\
      (length (self_targets self') = 1 -> x = 0%R).
Proof.
  intros HM HV Hload Hsome.
  destruct (process_targets_ok imread gray_shape detectAndCompute _compute_image_metadata
              empty_metadata quality_recommended MiniBatchKMeans_fit D detector_ok kmeans_ok
              self image_files HM HV Hload Hsome)
    as (out & self' & voc & idf & Hrun & Hvoc & Hidf & HVlen & Hlen & _ & Hind & _).
  exists out, self'. split; [assumption|].
  destruct (process_targets_inv self self' image_files) as
    (bows & idf' & Hidf' & Hcomp & Hbows & _); [now rewrite Hrun|].
  rewrite Hidf in Hidf'. injection Hidf' as <-.
  set (targets := self_targets self') in *.
  assert (Hn : length targets = length bows).
  { apply (f_equal length) in Hbows. now rewrite !length_map in Hbows. }
  assert (Htb : forall i bow, bows !! i = Some bow ->
                  exists t, targets !! i = Some t /\ t_bow t = Some bow).
  { intros i bow Hi.
    assert (Hm : map t_bow targets !! i = Some (Some bow))
      by (rewrite Hbows, list_lookup_fmap, Hi; reflexivity).
    rewrite list_lookup_fmap in Hm. destruct (targets !! i) as [t|]; [|discriminate].
    cbn in Hm. injection Hm as Hm. eauto. }
  assert (Hbt : forall i t, targets !! i = Some t -> exists bow, bows !! i = Some bow /\ t_bow t = Some bow).
  { intros i t Hi.
    assert (Hm : map Some bows !! i = Some (t_bow t))
      by (rewrite <- Hbows, list_lookup_fmap, Hi; reflexivity).
    rewrite list_lookup_fmap in Hm. destruct (bows !! i) as [bow|]; [|discriminate].
    cbn in Hm. injection Hm as Hm. eauto. }
  rewrite Forall_forall in Hind.
  assert (Hrange : Forall (word_ids_in_range (self_vocabulary_size self')) bows).
  { apply Forall_forall. intros bow Hbow. apply list_elem_of_lookup in Hbow as [i Hi].
    destruct (Htb i bow Hi) as (t & Ht & Htbow).
    destruct (Hind t) as (bow' & tf' & Hb' & _ & _ & _ & _ & _ & Hr & _);
      [eapply list_elem_of_lookup_2; eauto|].
    rewrite Htbow in Hb'. injection Hb' as <-. now rewrite HVlen. }
  destruct (document_frequency_spec (self_vocabulary_size self') bows) as (df & Hdf & Hdflen & Hdfw);
    [lia | assumption |].
  unfold compute_idf in Hcomp. rewrite Hdf in Hcomp. cbn [bind] in Hcomp.
  injection Hcomp as Hidfeq.
  intros t tfidf w x Ht Htfidf Hx.
  destruct (Hind t Ht) as (bow & tfidf0 & Hb & Htf0 & Hne & Hlk & Hnum & Hdb & Hr & _ & Hvec).
  rewrite Htfidf in Htf0. injection Htf0 as <-.
  assert (Hnum0 : t_num_features t <> 0%Z).
  { rewrite Hnum, Hlk. destruct (t_descriptors t); [congruence | cbn [length]; lia]. }
  assert (Hlook : forall w' c', bow !! w' = Some c' ->
            exists y, idf_lookup (Some idf) w' = Ok y).
  { intros w' c' Hc'. cbn [idf_lookup].
    destruct (np_getitem_in_range idf w') as (y & Hy & _); [|eauto].
    rewrite Hlen. apply Hr. eauto. }
  destruct (compute_tfidf_vector_spec (Some idf) bow (t_num_features t) Hnum0 Hlook)
    as (tfidf1 & Hvec1 & Hin & Hout).
  rewrite Hvec in Hvec1. injection Hvec1 as <-.
  destruct (bow !! w) as [c|] eqn:Hc; [|rewrite (Hout w Hc) in Hx; discriminate].
  destruct (Hin w c Hc) as (y & Hy & Hxy).
  rewrite Hx in Hxy. injection Hxy as ->.
  assert (Hw : (0 <= w < self_vocabulary_size self')%Z) by (rewrite HVlen; apply Hr; eauto).
  cbn [idf_lookup] in Hy.
  destruct (np_getitem_in_range idf w) as (y' & Hy' & Hidx); [rewrite Hlen; lia|].
  rewrite Hy in Hy'. injection Hy' as <-.
  rewrite <- Hidfeq, list_lookup_fmap, (Hdfw w Hw) in Hidx. cbn in Hidx.
  injection Hidx as Hyeq.
  pose proof (targets_containing_le bows w) as Hle.
  set (dfw := targets_containing bows w) in *.
  assert (Hy0 : (0 <= y)%R) by (rewrite <- Hyeq; apply idf_weight_nonneg; lia).
  assert (Hymax : (y <= ln (INR (length bows) + 1))%R).
  { rewrite <- Hyeq, <- idf_weight_absent.
    destruct (Nat.eq_dec dfw 0) as [->|Hpos]; [apply Rle_refl|].
    apply Rlt_le, idf_weight_decreasing. lia. }
  assert (Hyz : y = 0%R <-> dfw = length bows).
  { rewrite <- Hyeq. rewrite idf_weight_zero by lia. lia. }
  destruct (descriptors_to_bow_count_bounds voc (t_descriptors t) bow Hdb w c Hc) as [Hc1 Hc2].
  assert (Hnumpos : (1 <= t_num_features t)%Z) by lia.
  assert (Hcn : (c <= t_num_features t)%Z) by lia.
  assert (Htf : (0 < IZR c / IZR (t_num_features t) <= 1)%R).
  { apply IZR_le in Hc1, Hcn, Hnumpos.
    assert (0 < IZR (t_num_features t))%R by lra.
    split.
    - apply Rdiv_lt_0_compat; lra.
    - apply Rmult_le_reg_r with (r := IZR (t_num_features t)); [lra|].
      unfold Rdiv. rewrite Rmult_assoc, Rinv_l by lra. lra. }
  set (tf := (IZR c / IZR (t_num_features t))%R) in *.
  rewrite Hn.
  assert (Hall : dfw = length bows <->
    forall t', t' ∈ targets -> exists bow', t_bow t' = Some bow' /\ is_Some (bow' !! w)).
  { subst dfw. unfold targets_containing. rewrite filter_all_length, Forall_forall. split.
    - intros Hb' t' Ht'. apply list_elem_of_lookup in Ht' as [i Hi].
      destruct (Hbt i t' Hi) as (bow' & Hbi & Htb').
      exists bow'. split; [assumption|]. apply Hb'. eapply list_elem_of_lookup_2; eauto.
    - intros Ht' bow' Hbow'. apply list_elem_of_lookup in Hbow' as [i Hi].
      destruct (Htb i bow' Hi) as (t' & Hti & Htb').
      destruct (Ht' t') as (bow'' & Hb'' & Hw''); [eapply list_elem_of_lookup_2; eauto|].
      rewrite Htb' in Hb''. now injection Hb'' as <-. }
  split; [|split].
  - split; [apply Rmult_le_pos; lra|].
    replace (ln (INR (length bows) + 1)) with (1 * ln (INR (length bows) + 1))%R by ring.
    apply Rmult_le_compat; lra.
  - rewrite <- Hall, <- Hyz. split.
    + intros Hz. apply Rmult_integral in Hz as [Hz|Hz]; [lra | assumption].
    + intros ->. ring.
  - intros H1.
    assert (Hone : dfw = length bows).
    { apply Hall. intros t' Ht'.
      rewrite (singleton_members targets t' t) by first [assumption | lia].
      exists bow. split; [assumption|]. eauto. }
    apply Hyz in Hone. rewrite Hone. ring.
Qed.

Lemma extract_features_budget (self : VocabularyTreeBuilder Metadata) (image_path : string)
  (keypoints : list (Q * Q)) (descriptors : list Descriptor) (metadata : Metadata) :
  0 < self_max_features_per_target self ->
  snd (extract self image_path) = Ok (keypoints, descriptors, metadata) ->
  length descriptors <= self_max_features_per_target self.
Proof.
  intros HM. unfold extract_features.
  destruct (imread image_path) as [img|]; [|discriminate].
  destruct (detectAndCompute img) as [kps [[|d descs]|]] eqn:Hdet.
  - rewrite pbind_print. cbn [ret snd]. intros [= <- <- <-]. cbn [length]. lia.
  - destruct (detector_ok img kps (d :: descs) Hdet) as [Hout _]; [discriminate|].
    destruct (select_best_features_run (self_max_features_per_target self)
                (map kp_pt kps) (d :: descs) kps (gray_shape img) HM Hout)
      as (out & ks & ds & kps' & Hrun & _ & _ & Hld & _).
    rewrite Hrun, pbind_ok. cbn [ret fst snd]. intros [= <- <- <-]. lia.
  - rewrite pbind_print. cbn [ret snd]. intros [= <- <- <-]. cbn [length]. lia.
Qed.

Lemma extract_all_budget (self : VocabularyTreeBuilder Metadata) (image_files : list ImagePath) :
  0 < self_max_features_per_target self ->
  forall all_descriptors target_features all_descriptors' target_features',
    snd (extract_loop self image_files all_descriptors target_features)
    = Ok (all_descriptors', target_features') ->
    Forall (fun t => length (t_descriptors t) <= self_max_features_per_target self)
      target_features ->
    Forall (fun t => length (t_descriptors t) <= self_max_features_per_target self)
      target_features'.
Proof.
  intros HM.
  induction image_files as [|f rest IH]; intros ad tf ad' tf' Hrun Hall.
  - cbn in Hrun. injection Hrun as <- <-. assumption.
  - cbn [extract_all] in Hrun. rewrite pbind_print in Hrun. cbn [snd] in Hrun.
    rewrite snd_pbind in Hrun.
    destruct (snd (extract self (path_str f))) as [[[ks ds] md]|e] eqn:Hf; [|discriminate].
    cbn [bind] in Hrun. apply extract_features_budget in Hf; [|assumption].
    destruct (length ds =? 0)%nat.
    + rewrite pbind_print in Hrun. cbn [snd] in Hrun. eapply IH; eauto.
    + rewrite pbind_print in Hrun. cbn [snd] in Hrun.
      eapply IH; [exact Hrun|]. apply Forall_app. split; [assumption|].
      constructor; [exact Hf | constructor].
Qed.

(** X18. The sizes of a built database agree with one another: the stored
    [vocabulary_size] is the number of visual words and of IDF weights, and
    it is the requested size capped by the total number of kept features;
    every target keeps between 1 and [max_features_per_target] features and
    records that number as [num_features]; [k], [levels] and the budget are
    not touched by the build. *)
Theorem database_sizes (self : VocabularyTreeBuilder Metadata)
  (image_files : list ImagePath) :
  0 < self_max_features_per_target self ->
  (1 <= self_vocabulary_size self)%Z ->
  (forall f, f ∈ image_files -> loads imread f = true) ->
  (exists f, f ∈ image_files /\ has_features imread detectAndCompute f = true) ->
  exists out self' voc idf,
    process self image_files = (out, Ok self') /\
    self_vocabulary self' = Some voc /\
    self_idf_weights self' = Some idf /\
    self_vocabulary_size self' = Z.of_nat (length voc) /\
    length idf = length voc /\
    Z.of_nat (length voc)
    = Z.min (self_vocabulary_size self)
        (Z.of_nat (length (concat (map t_descriptors (self_targets self'))))) /\
    Forall (fun t =>
              length (t_keypoints t) = length (t_descriptors t) /\
              t_num_features t = Z.of_nat (length (t_descriptors t)) /\
              1 <= length (t_descriptors t) <= self_max_features_per_target self)
      (self_targets self') /\
    self_k self' = self_k self /\ self_levels self' = self_levels self /\
    self_max_features_per_target self' = self_max_features_per_target self.
Proof.
  intros HM HV Hload Hsome.
  destruct (process_targets_ok imread gray_shape detectAndCompute _compute_image_metadata
              empty_metadata quality_recommended MiniBatchKMeans_fit D detector_ok kmeans_ok
              self image_files HM HV Hload Hsome)
    as (out & self' & voc & idf & Hrun & Hvoc & Hidf & HVlen & Hlen & _ & Hind & _).
  exists out, self', voc, idf.
  destruct (process_targets_inv self self' image_files) as
    (_ & _ & _ & _ & _ & Hmin & _ & Hk & Hl & Hm & extracted & Hext & Hsame);
    [now rewrite Hrun|].
  repeat (split; [assumption|]).
  split; [now rewrite <- HVlen|].
  split; [|auto].
  assert (Hbudget : Forall (fun t => length (t_descriptors t)
                                     <= self_max_features_per_target self) extracted).
  { eapply extract_all_budget; [assumption | exact Hext | constructor]. }
  apply Forall_forall. intros t Ht.
  rewrite Forall_forall in Hind.
  destruct (Hind t Ht) as (bow & tfidf & _ & _ & Hne & Hlk & Hnum & _).
  split; [assumption|]. split; [congruence|].
  split; [destruct (t_descriptors t); [congruence | cbn [length]; lia]|].
  apply list_elem_of_lookup in Ht as [i Hi].
  assert (Hd : map t_descriptors extracted !! i = Some (t_descriptors t))
    by (rewrite <- Hsame, list_lookup_fmap, Hi; reflexivity).
  rewrite list_lookup_fmap in Hd.
  destruct (extracted !! i) as [t0|] eqn:Ht0; [|discriminate].
  cbn in Hd. injection Hd as Hd. rewrite <- Hd.
  rewrite Forall_forall in Hbudget. apply Hbudget. eapply list_elem_of_lookup_2; eauto.
Qed.


End Database.

Lemma database_weights_witness :
  exists out self',
    sample_process (sample_builder 2) sample_files = (out, Ok self') /\
    forall t tfidf w x,
      t ∈ self_targets self' -> t_bow_tfidf t = Some tfidf -> tfidf !! w = Some x ->
      (0 <= x <= ln (INR (length (self_targets self')) + 1))%R /\
      (x = 0%R <->
       forall t', t' ∈ self_targets self' ->
         exists bow', t_bow t' = Some bow' /\ is_Some (bow' !! w)) /\
      (length (self_targets self') = 1 -> x = 0%R).
Proof.
  apply (database_weights sample_imread sample_gray_shape sample_detect
           sample_metadata tt sample_recommended sample_kmeans 2
           sample_detector_contract sample_kmeans_contract
           (sample_builder 2) sample_files).
  - simpl. lia.
  - simpl. lia.
  - exact sample_files_load.
  - exact sample_files_usable.
Defined.

Lemma database_sizes_witness :
  exists out self' voc idf,
    sample_process (sample_builder 2) sample_files = (out, Ok self') /\
    self_vocabulary self' = Some voc /\
    self_idf_weights self' = Some idf /\
    self_vocabulary_size self' = Z.of_nat (length voc) /\
    length idf = length voc /\
    Z.of_nat (length voc)
    = Z.min (self_vocabulary_size (sample_builder 2))
        (Z.of_nat (length (concat (map t_descriptors (self_targets self'))))) /\
    Forall (fun t =>
              length (t_keypoints t) = length (t_descriptors t) /\
              t_num_features t = Z.of_nat (length (t_descriptors t)) /\
              1 <= length (t_descriptors t)
                <= self_max_features_per_target (sample_builder 2))
      (self_targets self') /\
    self_k self' = self_k (sample_builder 2) /\
    self_levels self' = self_levels (sample_builder 2) /\
    self_max_features_per_target self' = self_max_features_per_target (sample_builder 2).
Proof.
  apply (database_sizes sample_imread sample_gray_shape sample_detect
           sample_metadata tt sample_recommended sample_kmeans 2
           sample_detector_contract sample_kmeans_contract
           (sample_builder 2) sample_files).
  - simpl. lia.
  - simpl. lia.
  - exact sample_files_load.
  - exact sample_files_usable.
Defined.


(** ** The tree shape and the command line *)

Section TreeShape.

Context {Image Metadata : Type}.
Variable imread : string -> option Image.
Variable gray_shape : Image -> Z * Z.
Variable detectAndCompute : Image -> list KeyPoint * option (list Descriptor).
Variable _compute_image_metadata : Image -> list (Q * Q) -> list KeyPoint -> Metadata.
Variable empty_metadata : Metadata.
Variable quality_recommended : Metadata -> bool.
Variable MiniBatchKMeans_fit : Z -> list (list Q) -> Exc (list (list Q)).
Variable export_database : VocabularyTreeBuilder Metadata -> Py unit.

Local Abbreviation extract_loop :=
  (extract_all imread gray_shape detectAndCompute _compute_image_metadata empty_metadata
     quality_recommended).
Local Abbreviation process :=
  (process_targets imread gray_shape detectAndCompute _compute_image_metadata empty_metadata
     quality_recommended MiniBatchKMeans_fit).
Local Abbreviation run_main :=
  (main imread gray_shape detectAndCompute _compute_image_metadata empty_metadata
     quality_recommended MiniBatchKMeans_fit export_database).

Lemma extract_all_shape (k levels : Z) (self : VocabularyTreeBuilder Metadata)
  (image_files : list ImagePath) :
  forall all_descriptors target_features,
    extract_loop (with_tree_shape k levels self) image_files all_descriptors target_features
    = extract_loop self image_files all_descriptors target_features.
Proof.
  induction image_files as [|f rest IH]; intros ad tf; [reflexivity|].
  cbn [extract_all].
  change (extract_features imread gray_shape detectAndCompute _compute_image_metadata
            empty_metadata (with_tree_shape k levels self) (path_str f))
    with (extract_features imread gray_shape detectAndCompute _compute_image_metadata
            empty_metadata self (path_str f)).
  f_equal.
  destruct (extract_features imread gray_shape detectAndCompute _compute_image_metadata
              empty_metadata self (path_str f)) as [out [[[ks ds] md]|e]]; [|reflexivity].
  cbn [pbind]. destruct (length ds =? 0)%nat; now rewrite ?IH.
Qed.

Lemma build_vocabulary_shape (k levels : Z) (self : VocabularyTreeBuilder Metadata)
  (all_descriptors : list Descriptor) :
  snd (build_vocabulary MiniBatchKMeans_fit (with_tree_shape k levels self) all_descriptors)
  = bind (snd (build_vocabulary MiniBatchKMeans_fit self all_descriptors))
      (fun s => Ok (with_tree_shape k levels s)).
Proof.
  unfold build_vocabulary.
  change (self_vocabulary_size (with_tree_shape k levels self))
    with (self_vocabulary_size self).
  destruct (Z.of_nat (length all_descriptors) <? self_vocabulary_size self)%Z.
  - cbn [pbind print ret app self_vocabulary_size set_vocabulary_size].
    destruct (MiniBatchKMeans_fit _ _) as [centers|e]; reflexivity.
  - cbn [pbind print ret app].
    change (self_vocabulary_size (with_tree_shape k levels self))
      with (self_vocabulary_size self).
    destruct (MiniBatchKMeans_fit _ _) as [centers|e]; reflexivity.
Qed.

Lemma targets_to_bow_shape (k levels : Z) (self : VocabularyTreeBuilder Metadata)
  (target_features : list (Target Metadata)) :
  targets_to_bow (with_tree_shape k levels self) target_features
  = targets_to_bow self target_features.
Proof.
  induction target_features as [|t rest IH]; [reflexivity|].
  cbn [targets_to_bow]. rewrite IH. reflexivity.
Qed.

(** X20. The branching factor and the depth take no part in the build:
    [process_targets] on a builder with another [k] and [levels] fails with
    the same exception or returns the same vocabulary, IDF table, targets
    and sizes, carrying the other [k] and [levels] along. *)
Theorem tree_shape_is_carried_along (k levels : Z) (self : VocabularyTreeBuilder Metadata)
  (image_files : list ImagePath) :
  snd (process (with_tree_shape k levels self) image_files)
  = match snd (process self image_files) with
    | Ok self' => Ok (with_tree_shape k levels self')
    | Raise e => Raise e
    end.
Proof.
  unfold process_targets. rewrite !pbind_print. cbn [snd]. rewrite !snd_pbind.
  rewrite extract_all_shape.
  destruct (snd (extract_loop self image_files [] [])) as [[ad tf]|e]; [|reflexivity].
  cbn [bind]. destruct (length ad =? 0)%nat; [reflexivity|].
  rewrite !snd_pbind. cbn [lift snd].
  destruct (np_vstack ad) as [pool|e]; [|reflexivity].
  cbn [bind]. rewrite !pbind_print. cbn [snd]. rewrite !snd_pbind.
  rewrite build_vocabulary_shape.
  destruct (snd (build_vocabulary MiniBatchKMeans_fit self pool)) as [s1|e]; [|reflexivity].
  cbn [bind]. rewrite !pbind_print. cbn [snd]. rewrite !snd_pbind.
  rewrite targets_to_bow_shape.
  destruct (snd (targets_to_bow s1 tf)) as [[tf1 bows]|e]; [|reflexivity].
  cbn [bind]. rewrite !snd_pbind. cbn [lift snd].
  change (self_vocabulary_size (with_tree_shape k levels s1)) with (self_vocabulary_size s1).
  destruct (compute_idf (self_vocabulary_size s1) bows) as [idf|e]; [|reflexivity].
  cbn [bind]. rewrite !pbind_print. cbn [snd]. rewrite !snd_pbind. cbn [lift snd].
  change (targets_to_tfidf (set_idf_weights (with_tree_shape k levels s1) idf) tf1)
    with (targets_to_tfidf (set_idf_weights s1 idf) tf1).
  destruct (targets_to_tfidf (set_idf_weights s1 idf) tf1) as [tf2|e]; reflexivity.
Qed.

(** The ways [main] can end. *)
Lemma main_cases (input_exists : bool) (branching_factor levels vocab_size : Z)
  (image_files : list ImagePath) :
  let result := run_main input_exists branching_factor levels vocab_size image_files in
  let builder : VocabularyTreeBuilder Metadata :=
    if (vocab_size =? 0)%Z then init branching_factor levels
    else set_vocabulary_size (init branching_factor levels) vocab_size in
  if input_exists then
    match process builder image_files with
    | (out, Raise e) => result = (out ++ [ErrorReport e], 1%Z)
    | (out, Ok built) =>
        match export_database built with
        | (out', Raise e) => result = (out ++ out' ++ [ErrorReport e], 1%Z)
        | (out', Ok _) => result = (out ++ out' ++ [BuiltSuccessfully], 0%Z)
        end
    end
  else result = ([InputNotFound], 1%Z).
Proof.
  intros result builder. subst result. unfold main.
  destruct input_exists; [|reflexivity]. cbn [negb]. fold builder.
  destruct (process builder image_files) as [out [built|e]]; [|reflexivity].
  rewrite pbind_ok. cbn [fst snd].
  destruct (export_database built) as [out' [[]|e]].
  - rewrite pbind_ok, pbind_print. cbn [fst snd ret]. reflexivity.
  - cbn [pbind fst snd]. now rewrite app_assoc.
Qed.

(** X21. The exit status of [main] tells how the run ended: it is 0 or 1;
    it is 0 exactly when the last printed line is the success line, and 1
    exactly when the last line reports the missing input directory or an
    exception, be it raised by [process_targets] or by [export_database].
    And [--vocab-size 0] stands for [k ** levels]: the run is the one with
    that size given explicitly. The depth is taken non-negative, where
    Python's [k ** levels] is the integer power of [init]. *)
Theorem main_status_and_last_line (input_exists : bool)
  (branching_factor levels vocab_size : Z) (image_files : list ImagePath) :
  (0 <= levels)%Z ->
  let result := run_main input_exists branching_factor levels vocab_size image_files in
  (snd result = 0%Z \/ snd result = 1%Z) /\
  (snd result = 0%Z <-> last (fst result) = Some BuiltSuccessfully) /\
  (snd result = 1%Z <->
   last (fst result) = Some InputNotFound \/
   exists e, last (fst result) = Some (ErrorReport e)) /\
  run_main input_exists branching_factor levels 0 image_files
  = run_main input_exists branching_factor levels (branching_factor ^ levels) image_files.
Proof.
  intros _ result.
  pose proof (main_cases input_exists branching_factor levels vocab_size image_files) as Hc.
  cbv zeta in Hc. fold result in Hc.
  split; [|split; [|split]].
  - destruct input_exists; [|rewrite Hc; auto].
    destruct (process _ image_files) as [out [built|e]]; [|rewrite Hc; auto].
    destruct (export_database built) as [out' [[]|e]]; rewrite Hc; auto.
  - destruct input_exists; [|rewrite Hc; cbn; split; discriminate].
    destruct (process _ image_files) as [out [built|e]].
    + destruct (export_database built) as [out' [[]|e]]; rewrite Hc; cbn [fst snd].
      * rewrite !app_assoc, last_snoc. split; reflexivity.
      * rewrite !app_assoc, last_snoc. split; discriminate.
    + rewrite Hc. cbn [fst snd]. rewrite last_snoc. split; discriminate.
  - destruct input_exists; [|rewrite Hc; cbn; split; auto].
    destruct (process _ image_files) as [out [built|e]].
    + destruct (export_database built) as [out' [[]|e]]; rewrite Hc; cbn [fst snd].
      * rewrite !app_assoc, last_snoc. split; [discriminate|].
        intros [H|[e H]]; discriminate.
      * rewrite !app_assoc, last_snoc. split; eauto.
    + rewrite Hc. cbn [fst snd]. rewrite last_snoc. split; eauto.
  - unfold main. destruct input_exists; [|reflexivity]. cbn [negb Z.eqb].
    destruct (branching_factor ^ levels =? 0)%Z eqn:Hz; [reflexivity|].
    reflexivity.
Qed.

End TreeShape.

Lemma main_status_and_last_line_witness :
  let result :=
    main sample_imread sample_gray_shape sample_detect sample_metadata tt
      sample_recommended sample_kmeans sample_export true 10 2 1000 sample_files in
  (snd result = 0%Z \/ snd result = 1%Z) /\
  (snd result = 0%Z <-> last (fst result) = Some BuiltSuccessfully) /\
  (snd result = 1%Z <->
   last (fst result) = Some InputNotFound \/
   exists e, last (fst result) = Some (ErrorReport e)) /\
  main sample_imread sample_gray_shape sample_detect sample_metadata tt
    sample_recommended sample_kmeans sample_export true 10 2 0 sample_files
  = main sample_imread sample_gray_shape sample_detect sample_metadata tt
      sample_recommended sample_kmeans sample_export true 10 2 (10 ^ 2) sample_files.
Proof.
  apply (main_status_and_last_line sample_imread sample_gray_shape sample_detect
           sample_metadata tt sample_recommended sample_kmeans sample_export
           true 10 2 1000 sample_files).
  lia.
Defined.

(** ** Image metadata: the feature distribution map *)

Lemma array_sum_insert (a : list Z) (i : nat) (v v' : Z) :
  a !! i = Some v -> array_sum (<[i := v']> a) = (array_sum a - v + v')%Z.
Proof.
  unfold array_sum. revert i.
  induction a as [|x a IH]; intros [|i] Hi; simpl in *; try discriminate.
  - injection Hi as ->. lia.
  - rewrite (IH i Hi). lia.
Qed.

Lemma array_sum_replicate (n : nat) : array_sum (replicate n 0%Z) = 0%Z.
Proof. induction n as [|n IH]; [reflexivity|]. cbn. exact IH. Qed.

Lemma distribution_step_ok (gray_shape : Z * Z) (fd : list Z) (kp : Q * Q) :
  (0 < fst gray_shape)%Z -> (0 < snd gray_shape)%Z ->
  (0 <= fst kp)%Q -> (0 <= snd kp)%Q ->
  length fd = 64 ->
  exists v,
    distribution_cell gray_shape kp < 64 /\
    fd !! distribution_cell gray_shape kp = Some v /\
    distribution_step (inject_Z (fst gray_shape) / 8) (inject_Z (snd gray_shape) / 8) fd kp
    = Ok (<[distribution_cell gray_shape kp := (v + 1)%Z]> fd).
Proof.
  intros Hh Hw Hx Hy Hlen. destruct kp as [x y]. cbn [fst snd] in *.
  assert (Hch : (0 < inject_Z (fst gray_shape) / 8)%Q).
  { apply Qlt_shift_div_l; [reflexivity|]. rewrite Qmult_0_l.
    change 0%Q with (inject_Z 0). rewrite <- Zlt_Qlt. assumption. }
  assert (Hcw : (0 < inject_Z (snd gray_shape) / 8)%Q).
  { apply Qlt_shift_div_l; [reflexivity|]. rewrite Qmult_0_l.
    change 0%Q with (inject_Z 0). rewrite <- Zlt_Qlt. assumption. }
  pose proof (py_int_nonneg _ (Qdiv_nonneg x _ Hx Hcw)) as Hgx.
  pose proof (py_int_nonneg _ (Qdiv_nonneg y _ Hy Hch)) as Hgy.
  unfold distribution_cell, distribution_step, distribution_incr. cbn [fst snd].
  change (8 - 1)%Z with 7%Z.
  set (gx := Z.min (py_int (x / (inject_Z (snd gray_shape) / 8))) 7) in *.
  set (gy := Z.min (py_int (y / (inject_Z (fst gray_shape) / 8))) 7) in *.
  assert (Hgx' : (0 <= gx <= 7)%Z) by (subst gx; lia).
  assert (Hgy' : (0 <= gy <= 7)%Z) by (subst gy; lia).
  rewrite (np_index_in_range 8 gy), (np_index_in_range 8 gx) by lia. cbn [bind].
  assert (Hc : 8 * Z.to_nat gy + Z.to_nat gx < 64) by lia.
  destruct (lookup_lt_is_Some_2 fd (8 * Z.to_nat gy + Z.to_nat gx)) as [v Hv]; [lia|].
  exists v. split; [assumption|]. split; [assumption|].
  unfold list_getitem. rewrite Hv. reflexivity.
Qed.

Lemma distribution_loop (gray_shape : Z * Z) (keypoints : list (Q * Q)) :
  (0 < fst gray_shape)%Z -> (0 < snd gray_shape)%Z ->
  Forall (fun kp => (0 <= fst kp)%Q /\ (0 <= snd kp)%Q) keypoints ->
  forall fd0, length fd0 = 64 ->
    exists fd,
      foldE (distribution_step (inject_Z (fst gray_shape) / 8) (inject_Z (snd gray_shape) / 8))
        fd0 keypoints = Ok fd /\
      length fd = 64 /\
      array_sum fd = (array_sum fd0 + Z.of_nat (length keypoints))%Z /\
      forall c v0, fd0 !! c = Some v0 ->
        fd !! c = Some (v0 + Z.of_nat (length (filter
                          (fun kp => distribution_cell gray_shape kp = c) keypoints)))%Z.
Proof.
  intros Hh Hw Hall. induction Hall as [|kp rest [Hx Hy] _ IH]; intros fd0 Hlen.
  - exists fd0. split; [reflexivity|]. split; [assumption|]. split; [cbn; lia|].
    intros c v0 Hc. rewrite filter_nil. cbn. rewrite Hc. f_equal. lia.
  - destruct (distribution_step_ok gray_shape fd0 kp Hh Hw Hx Hy Hlen) as (v & Hlt & Hv & Hstep).
    cbn [foldE]. rewrite Hstep. cbn [bind].
    destruct (IH (<[distribution_cell gray_shape kp := (v + 1)%Z]> fd0)) as (fd & Hrun & Hl & Hsum & Hget).
    { now rewrite length_insert. }
    exists fd. split; [assumption|]. split; [assumption|]. split.
    + rewrite Hsum, (array_sum_insert fd0 _ v) by assumption. cbn [length]. lia.
    + intros c v0 Hc. rewrite filter_cons.
      destruct (decide (distribution_cell gray_shape kp = c)) as [Heq|Hne].
      * subst c. rewrite Hv in Hc. injection Hc as <-.
        rewrite (Hget _ (v + 1)%Z) by (apply list_lookup_insert_eq; lia).
        f_equal. cbn [length]. lia.
      * apply Hget. now rewrite list_lookup_insert_ne.
Qed.

(** X22. On an image with positive sides and keypoints at non-negative
    positions, the feature distribution map of [_compute_image_metadata] has
    64 entries; the entry of a cell is the number of keypoints that fall
    into it, so no entry is negative, and the entries add up to the number
    of keypoints: every keypoint is counted once. *)
Theorem feature_distribution_counts (keypoints : list (Q * Q)) (gray_shape : Z * Z) :
  (0 < fst gray_shape)%Z -> (0 < snd gray_shape)%Z ->
  Forall (fun kp => (0 <= fst kp)%Q /\ (0 <= snd kp)%Q) keypoints ->
  exists grid_8x8,
    feature_distribution keypoints gray_shape = Ok grid_8x8 /\
    length grid_8x8 = 64 /\
    (forall c, c < 64 ->
       grid_8x8 !! c
       = Some (Z.of_nat (length (filter
                 (fun kp => distribution_cell gray_shape kp = c) keypoints)))) /\
    Forall (fun v => (0 <= v)%Z) grid_8x8 /\
    array_sum grid_8x8 = Z.of_nat (length keypoints).
Proof.
  intros Hh Hw Hall.
  destruct (distribution_loop gray_shape keypoints Hh Hw Hall (replicate 64 0%Z))
    as (fd & Hrun & Hlen & Hsum & Hget); [apply length_replicate|].
  exists fd.
  assert (Hcells : forall c, c < 64 ->
    fd !! c = Some (Z.of_nat (length (filter
                (fun kp => distribution_cell gray_shape kp = c) keypoints)))).
  { intros c Hc. rewrite (Hget c 0%Z) by (now apply lookup_replicate_2). f_equal. }
  split.
  - unfold feature_distribution. destruct gray_shape as [h w]. cbn [fst snd] in *.
    unfold int_truediv.
    rewrite (proj2 (Z.eqb_neq h 0)) by lia. cbn [bind].
    rewrite (proj2 (Z.eqb_neq (w * h) 0)) by lia. cbn [bind]. exact Hrun.
  - split; [assumption|]. split; [assumption|]. split.
    + apply Forall_forall. intros v Hv. apply list_elem_of_lookup in Hv as [c Hc].
      rewrite Hcells in Hc by (rewrite <- Hlen; eapply lookup_lt_Some; eauto).
      injection Hc as <-. lia.
    + rewrite Hsum, array_sum_replicate. lia.
Qed.

Lemma feature_distribution_counts_witness :
  exists grid_8x8,
    feature_distribution sample_keypoints sample_shape = Ok grid_8x8 /\
    length grid_8x8 = 64 /\
    (forall c, c < 64 ->
       grid_8x8 !! c
       = Some (Z.of_nat (length (filter
                 (fun kp => distribution_cell sample_shape kp = c) sample_keypoints)))) /\
    Forall (fun v => (0 <= v)%Z) grid_8x8 /\
    array_sum grid_8x8 = Z.of_nat (length sample_keypoints).
Proof.
  apply (feature_distribution_counts sample_keypoints sample_shape).
  - simpl. lia.
  - simpl. lia.
  - repeat (apply List.Forall_cons; [split; simpl; unfold Qle; simpl; lia|]).
    apply List.Forall_nil.
Defined.

(** ** Edge cases: empty inputs, a missing vocabulary, a zero budget *)

Lemma fst_pbind {A B : Type} (m : Py A) (f : A -> Py B) :
  fst (pbind m f)
  = fst m ++ match snd m with Ok a => fst (f a) | Raise _ => [] end.
Proof.
  destruct m as [out [a|e]]; cbn [pbind fst snd]; [|now rewrite app_nil_r].
  now destruct (f a).
Qed.

Lemma select_best_features_events (M : nat) (keypoints : list (Q * Q))
  (descriptors : list Descriptor) (kps : list KeyPoint) (image_shape : Z * Z) :
  Forall (fun e => is_extraction_event e = true)
    (fst (_select_best_features M keypoints descriptors kps image_shape)).
Proof.
  unfold _select_best_features.
  destruct (length keypoints <=? M)%nat; [constructor|].
  destruct (select_indices M kps image_shape) as [sel|e]; [|constructor].
  cbn [lift pbind app].
  destruct (np_take keypoints sel) as [ks|e]; [|constructor]. cbn [lift pbind app].
  destruct (np_take descriptors sel) as [ds|e]; [|constructor]. cbn [lift pbind app].
  destruct (mapE (list_getitem kps) sel) as [kps'|e]; [|constructor].
  cbn [lift pbind app print ret fst]. repeat constructor.
Qed.

(** X23. [descriptors_to_bow] does not look at the vocabulary when there is
    no descriptor: it returns the empty dictionary. With at least one
    descriptor, a missing vocabulary ([None]) raises [TypeError] and an
    empty vocabulary raises the [ValueError] of [np.argmin]. *)
Theorem descriptors_to_bow_edge_cases (vocabulary : option (list Descriptor))
  (descriptors : list Descriptor) :
  descriptors_to_bow vocabulary [] = Ok ∅ /\
  (descriptors <> [] -> descriptors_to_bow None descriptors = Raise TypeError) /\
  (descriptors <> [] ->
   descriptors_to_bow (Some []) descriptors
   = Raise (ValueError "attempt to get argmin of an empty sequence")).
Proof.
  split; [reflexivity|].
  split; intros Hne; (destruct descriptors as [|d rest]; [congruence | reflexivity]).
Qed.

(** X24. With a budget of 0 the slow path selects nothing, and indexing the
    arrays with the empty selection raises [IndexError]: the budgeter fails
    on every non-empty detector output. *)
Theorem zero_budget_raises (keypoints : list (Q * Q)) (descriptors : list Descriptor)
  (kps : list KeyPoint) (image_shape : Z * Z) :
  keypoints <> [] ->
  detector_output keypoints descriptors kps image_shape ->
  select_indices 0 kps image_shape = Ok [] /\
  _select_best_features 0 keypoints descriptors kps image_shape = ([], Raise IndexError).
Proof.
  intros Hne (Hh & Hw & _ & _ & Hkps).
  destruct (select_indices_small_budget 0 kps image_shape) as [_ Hsel];
    [lia | assumption | assumption | assumption |].
  rewrite take_0 in Hsel. split; [assumption|].
  unfold _select_best_features.
  destruct keypoints as [|kp rest]; [congruence|]. cbn [length Nat.leb].
  rewrite Hsel. reflexivity.
Qed.

Lemma zero_budget_raises_witness :
  select_indices 0 sample_kps sample_shape = Ok [] /\
  _select_best_features 0 sample_keypoints sample_descriptors sample_kps sample_shape
  = ([], Raise IndexError).
Proof.
  apply (zero_budget_raises sample_keypoints sample_descriptors sample_kps sample_shape).
  - discriminate.
  - exact sample_detector_output.
Defined.

Section FailFast.

Context {Image Metadata : Type}.
Variable imread : string -> option Image.
Variable gray_shape : Image -> Z * Z.
Variable detectAndCompute : Image -> list KeyPoint * option (list Descriptor).
Variable _compute_image_metadata : Image -> list (Q * Q) -> list KeyPoint -> Metadata.
Variable empty_metadata : Metadata.
Variable quality_recommended : Metadata -> bool.
Variable MiniBatchKMeans_fit : Z -> list (list Q) -> Exc (list (list Q)).

Local Abbreviation extract :=
  (extract_features imread gray_shape detectAndCompute _compute_image_metadata empty_metadata).
Local Abbreviation extract_loop :=
  (extract_all imread gray_shape detectAndCompute _compute_image_metadata empty_metadata
     quality_recommended).
Local Abbreviation process :=
  (process_targets imread gray_shape detectAndCompute _compute_image_metadata empty_metadata
     quality_recommended MiniBatchKMeans_fit).

(** Once the loop over the image files has raised, the files that follow
    are not looked at. *)
Lemma extract_all_raise_prefix (self : VocabularyTreeBuilder Metadata)
  (seen unseen : list ImagePath) :
  forall all_descriptors target_features e,
    snd (extract_loop self seen all_descriptors target_features) = Raise e ->
    extract_loop self (seen ++ unseen) all_descriptors target_features
    = extract_loop self seen all_descriptors target_features.
Proof.
  induction seen as [|f rest IH]; intros ad tf e Hraise; [discriminate|].
  cbn [extract_all app] in *. rewrite !pbind_print in *. cbn [snd] in Hraise.
  destruct (extract self (path_str f)) as [out [[[ks ds] md]|e']]; [|reflexivity].
  rewrite !pbind_ok in *. cbn [fst snd] in *.
  destruct (length ds =? 0)%nat.
  - rewrite ?pbind_print in *. cbn [snd] in Hraise. now rewrite (IH _ _ e Hraise).
  - rewrite ?pbind_print in *. cbn [snd] in Hraise. now rewrite (IH _ _ e Hraise).
Qed.

Lemma extract_all_reaches_failure (self : VocabularyTreeBuilder Metadata)
  (before : list ImagePath) (bad : ImagePath) :
  loads imread bad = false ->
  forall all_descriptors target_features,
    exists e, snd (extract_loop self (before ++ [bad]) all_descriptors target_features)
              = Raise e.
Proof.
  intros Hbad. induction before as [|f rest IH]; intros ad tf.
  - cbn [app extract_all]. rewrite pbind_print. cbn [snd]. unfold extract_features.
    unfold loads in Hbad. destruct (imread (path_str bad)); [discriminate|].
    eexists. reflexivity.
  - cbn [app extract_all]. rewrite pbind_print. cbn [snd]. rewrite snd_pbind.
    destruct (snd (extract self (path_str f))) as [[[ks ds] md]|e']; [|eexists; reflexivity].
    cbn [bind]. destruct (length ds =? 0)%nat; rewrite pbind_print; cbn [snd]; apply IH.
Qed.

Lemma extract_features_events (self : VocabularyTreeBuilder Metadata) (image_path : string) :
  Forall (fun e => is_extraction_event e = true) (fst (extract self image_path)).
Proof.
  unfold extract_features.
  destruct (imread image_path) as [img|]; [|constructor].
  destruct (detectAndCompute img) as [kps [[|d descs]|]].
  - repeat constructor.
  - rewrite fst_pbind. apply Forall_app. split; [apply select_best_features_events|].
    destruct (snd _) as [[[ks ds] kps']|e]; constructor.
  - repeat constructor.
Qed.

Lemma extract_all_events (self : VocabularyTreeBuilder Metadata) (image_files : list ImagePath) :
  forall all_descriptors target_features,
    Forall (fun e => is_extraction_event e = true)
      (fst (extract_loop self image_files all_descriptors target_features)).
Proof.
  induction image_files as [|f rest IH]; intros ad tf; [constructor|].
  cbn [extract_all]. rewrite pbind_print. cbn [fst]. constructor; [reflexivity|].
  rewrite fst_pbind. apply Forall_app. split; [apply extract_features_events|].
  destruct (snd (extract self (path_str f))) as [[[ks ds] md]|e]; [|constructor].
  destruct (length ds =? 0)%nat; rewrite pbind_print; cbn [fst];
    (constructor; [reflexivity | apply IH]).
Qed.

(** X25. [process_targets] stops at the first image that fails to load:
    the run raises, and after the count of files only lines of the
    extraction step are printed, so no vocabulary is built. The files that
    come after the failing one in the sorted listing take no part in the
    run: apart from that count, the printed lines and the exception are the
    same whatever follows. *)
Theorem load_failure_stops_the_run (self : VocabularyTreeBuilder Metadata)
  (before after after' : list ImagePath) (bad : ImagePath) :
  loads imread bad = false ->
  (exists e, snd (process self (before ++ bad :: after)) = Raise e) /\
  snd (process self (before ++ bad :: after)) = snd (process self (before ++ bad :: after')) /\
  tail (fst (process self (before ++ bad :: after)))
  = tail (fst (process self (before ++ bad :: after'))) /\
  Forall (fun e => is_extraction_event e = true)
    (tail (fst (process self (before ++ bad :: after)))).
Proof.
  intros Hbad.
  destruct (extract_all_reaches_failure self before bad Hbad [] []) as [e He].
  assert (Hrun : forall rest,
    process self (before ++ bad :: rest)
    = (ProcessingTargets (length (before ++ bad :: rest))
         :: fst (extract_loop self (before ++ [bad]) [] []), Raise e)).
  { intros rest. unfold process_targets. rewrite pbind_print.
    replace (before ++ bad :: rest) with ((before ++ [bad]) ++ rest)
      by (now rewrite <- app_assoc).
    rewrite (extract_all_raise_prefix self (before ++ [bad]) rest [] [] e He).
    destruct (extract_loop self (before ++ [bad]) [] []) as [out r].
    cbn [snd] in He. subst r. reflexivity. }
  rewrite (Hrun after), (Hrun after'). cbn [fst snd tail].
  split; [eauto|]. split; [reflexivity|]. split; [reflexivity|].
  apply extract_all_events.
Qed.

End FailFast.

Lemma load_failure_stops_the_run_witness :
  let bad := sample_path "missing.png" "missing" in
  let run := fun files => sample_process (sample_builder 2) files in
  (exists e, snd (run ([sample_path "a.png" "a"] ++ bad :: sample_files)) = Raise e) /\
  snd (run ([sample_path "a.png" "a"] ++ bad :: sample_files))
  = snd (run ([sample_path "a.png" "a"] ++ bad :: [])) /\
  tail (fst (run ([sample_path "a.png" "a"] ++ bad :: sample_files)))
  = tail (fst (run ([sample_path "a.png" "a"] ++ bad :: []))) /\
  Forall (fun e => is_extraction_event e = true)
    (tail (fst (run ([sample_path "a.png" "a"] ++ bad :: sample_files)))).
Proof.
  apply (load_failure_stops_the_run sample_imread sample_gray_shape sample_detect
           sample_metadata tt sample_recommended sample_kmeans (sample_builder 2)
           [sample_path "a.png" "a"] sample_files [] (sample_path "missing.png" "missing")).
  reflexivity.
Defined.

(** The three outcomes of [compute_idf] on concrete tables. *)
Lemma compute_idf_index_errors_witness :
  compute_idf (-1) [] = Raise (ValueError "negative dimensions are not allowed") /\
  (exists idf, compute_idf 2 [{[(-1)%Z := 1%Z]}] = Ok idf /\ length idf = 2) /\
  compute_idf 2 [{[2%Z := 1%Z]}] = Raise IndexError.
Proof.
  split; [|split].
  - apply (compute_idf_index_errors (-1) []). lia.
  - apply (compute_idf_index_errors 2 [{[(-1)%Z := 1%Z]}]); [lia|].
    intros bow Hbow w Hw. apply list_elem_of_singleton in Hbow. subst bow.
    destruct (decide (w = (-1)%Z)) as [->|Hne]; [lia|].
    rewrite lookup_singleton_ne in Hw by congruence. destruct Hw; discriminate.
  - apply (compute_idf_index_errors 2 [{[2%Z := 1%Z]}]); [lia|].
    exists {[2%Z := 1%Z]}. split; [constructor|].
    intros Hin. specialize (Hin 2%Z). rewrite lookup_singleton_eq in Hin.
    specialize (Hin (ltac:(eauto))). lia.
Defined.

(** The three failures of [compute_tfidf_vector] on concrete histograms. *)
Lemma compute_tfidf_vector_failures_witness :
  compute_tfidf_vector (Some [0%R]) ∅ 0 = Ok ∅ /\
  compute_tfidf_vector (Some [0%R]) {[0%Z := 1%Z]} 0 = Raise ZeroDivisionError /\
  compute_tfidf_vector (Some [0%R]) {[1%Z := 1%Z]} 1 = Raise IndexError.
Proof.
  split; [|split].
  - apply (compute_tfidf_vector_failures (Some [0%R]) ∅ 0).
  - apply (compute_tfidf_vector_failures (Some [0%R]) {[0%Z := 1%Z]} 0).
    intros Hempty. apply (f_equal (fun m : gmap Z Z => m !! 0%Z)) in Hempty.
    rewrite lookup_singleton_eq, lookup_empty in Hempty. discriminate.
  - apply (compute_tfidf_vector_failures (Some [0%R]) {[1%Z := 1%Z]} 1); [lia|].
    exists 1%Z. split; [rewrite lookup_singleton_eq; eauto | reflexivity].
Defined.
